(** * sqlitemeta: query construction and result reassembly

    A shallow embedding of [sqlitemeta.go] (package sqlitemeta), of the
    parts of the Go library it calls (utf8, unicode, strings, fmt) and of
    the pure helpers of [sqlitemeta_test.go], followed by the properties
    of the query-construction and row-folding layer.

    Conventions:
    - a Go [string] is a byte sequence: Stdlib's [string], one [ascii] per byte;
    - a [rune] and an [int] are integers in [Z];
    - a slice is a [list], the nil slice being the empty list;
    - a pointer into a slice is an index into the list;
    - the database handle, with the query helpers that drive it, is an
      [Executor] whose connection state is threaded explicitly, every query
      handed to it being recorded in a log. *)

From Stdlib Require Import ZArith List Ascii Bool Lia Sorted.
From stdpp Require Import base list strings.
Import ListNotations.
Open Scope Z_scope.

(** ** Bytes *)

(** The numeric value of a byte. *)
Definition byteval (b : ascii) : Z := Z.of_N (N_of_ascii b).

(** Go's conversion [byte(x)]: the low eight bits. *)
Definition tobyte (z : Z) : ascii := ascii_of_N (Z.to_N (z mod 256)).

(** [s[n:]] on a string. *)
Fixpoint string_drop (n : nat) (s : string) : string :=
  match n, s with
  | O, _ => s
  | S n', String _ s' => string_drop n' s'
  | S _, EmptyString => EmptyString
  end.

(** ** Package utf8 *)
Module utf8.

Definition RuneError : Z := 0xFFFD.
Definition RuneSelf : Z := 0x80.
Definition MaxRune : Z := 0x10FFFF.
Definition surrogateMin : Z := 0xD800.
Definition surrogateMax : Z := 0xDFFF.

Definition maskx : Z := 0x3F.
Definition mask2 : Z := 0x1F.
Definition mask3 : Z := 0x0F.
Definition mask4 : Z := 0x07.

Definition locb : Z := 0x80.
Definition hicb : Z := 0xBF.

(** The table [first] joined with [acceptRanges]: for a leading byte of a
    multi-byte sequence, the length of the sequence and the range accepted
    for its second byte; [None] for a byte that starts no sequence. *)
Definition first (s0 : Z) : option (nat * Z * Z) :=
  if s0 <? 0xC2 then None
  else if s0 <=? 0xDF then Some (2%nat, locb, hicb)
  else if s0 =? 0xE0 then Some (3%nat, 0xA0, hicb)
  else if s0 <=? 0xEC then Some (3%nat, locb, hicb)
  else if s0 =? 0xED then Some (3%nat, locb, 0x9F)
  else if s0 <=? 0xEF then Some (3%nat, locb, hicb)
  else if s0 =? 0xF0 then Some (4%nat, 0x90, hicb)
  else if s0 <=? 0xF3 then Some (4%nat, locb, hicb)
  else if s0 =? 0xF4 then Some (4%nat, locb, 0x8F)
  else None.

Definition cont (b : Z) : bool := (locb <=? b) && (b <=? hicb).

(** [DecodeRuneInString]: the first rune of [s] and its width in bytes;
    [(RuneError, 0)] on the empty string and [(RuneError, 1)] on an
    encoding that is not well formed. *)
Definition DecodeRuneInString (s : string) : Z * nat :=
  match s with
  | EmptyString => (RuneError, 0%nat)
  | String c0 t0 =>
    let s0 := byteval c0 in
    if s0 <? RuneSelf then (s0, 1%nat)
    else
      match first s0 with
      | None => (RuneError, 1%nat)
      | Some (sz, lo, hi) =>
        match t0 with
        | EmptyString => (RuneError, 1%nat)
        | String c1 t1 =>
          let s1 := byteval c1 in
          if (s1 <? lo) || (hi <? s1) then (RuneError, 1%nat)
          else if (sz <=? 2)%nat then
            (Z.lor (Z.shiftl (Z.land s0 mask2) 6) (Z.land s1 maskx), 2%nat)
          else
            match t1 with
            | EmptyString => (RuneError, 1%nat)
            | String c2 t2 =>
              let s2 := byteval c2 in
              if negb (cont s2) then (RuneError, 1%nat)
              else if (sz <=? 3)%nat then
                (Z.lor (Z.lor (Z.shiftl (Z.land s0 mask3) 12)
                              (Z.shiftl (Z.land s1 maskx) 6))
                       (Z.land s2 maskx), 3%nat)
              else
                match t2 with
                | EmptyString => (RuneError, 1%nat)
                | String c3 _ =>
                  let s3 := byteval c3 in
                  if negb (cont s3) then (RuneError, 1%nat)
                  else
                    (Z.lor (Z.lor (Z.lor (Z.shiftl (Z.land s0 mask4) 18)
                                         (Z.shiftl (Z.land s1 maskx) 12))
                                  (Z.shiftl (Z.land s2 maskx) 6))
                           (Z.land s3 maskx), 4%nat)
                end
            end
        end
      end
  end.

(** [EncodeRune], as the bytes it writes. A rune out of range or in the
    surrogate range is written as [RuneError]. *)
Definition encode3 (r : Z) : string :=
  String (tobyte (Z.lor 0xE0 (Z.shiftr r 12)))
    (String (tobyte (Z.lor 0x80 (Z.land (Z.shiftr r 6) maskx)))
       (String (tobyte (Z.lor 0x80 (Z.land r maskx))) EmptyString)).

Definition EncodeRune (r : Z) : string :=
  if (0 <=? r) && (r <=? 0x7F) then String (tobyte r) EmptyString
  else if (0 <=? r) && (r <=? 0x7FF) then
    String (tobyte (Z.lor 0xC0 (Z.shiftr r 6)))
      (String (tobyte (Z.lor 0x80 (Z.land r maskx))) EmptyString)
  else if (r <? 0) || (MaxRune <? r) || ((surrogateMin <=? r) && (r <=? surrogateMax))
  then encode3 RuneError
  else if r <=? 0xFFFF then encode3 r
  else
    String (tobyte (Z.lor 0xF0 (Z.shiftr r 18)))
      (String (tobyte (Z.lor 0x80 (Z.land (Z.shiftr r 12) maskx)))
         (String (tobyte (Z.lor 0x80 (Z.land (Z.shiftr r 6) maskx)))
            (String (tobyte (Z.lor 0x80 (Z.land r maskx))) EmptyString))).

(** The runes that [for _, c := range s] visits: one per well-formed
    sequence, and [RuneError] for every byte that starts none. The fuel is
    the number of bytes left, which every step lowers. *)
Fixpoint runes_from (fuel : nat) (s : string) : list Z :=
  match fuel with
  | O => []
  | S fuel' =>
    match s with
    | EmptyString => []
    | String _ _ =>
      let '(r, w) := DecodeRuneInString s in
      r :: runes_from fuel' (string_drop w s)
    end
  end.

Definition runes (s : string) : list Z := runes_from (String.length s) s.

(** [ValidString]: [s] is made of well-formed sequences only. *)
Fixpoint valid_from (fuel : nat) (s : string) : bool :=
  match fuel with
  | O => true
  | S fuel' =>
    match s with
    | EmptyString => true
    | String _ _ =>
      let '(r, w) := DecodeRuneInString s in
      negb ((r =? RuneError) && (w =? 1)%nat) && valid_from fuel' (string_drop w s)
    end
  end.

Definition ValidString (s : string) : bool := valid_from (String.length s) s.

End utf8.

(** ** Package unicode *)
Module unicode.

Definition MaxASCII : Z := 0x7F.
Definition MaxRune : Z := 0x10FFFF.
Definition ReplacementChar : Z := 0xFFFD.

Definition UpperCase : Z := 0.
Definition LowerCase : Z := 1.
Definition TitleCase : Z := 2.
Definition MaxCase : Z := 3.

Definition UpperLower : Z := MaxRune + 1.

(** One entry of the case tables: the code points [Lo..Hi] and the deltas
    to add for the upper, lower and title case. *)
Record CaseRange := {
  Lo : Z;
  Hi : Z;
  Delta : Z * Z * Z
}.

Definition delta_at (_case : Z) (d : Z * Z * Z) : Z :=
  let '(u, l, t) := d in
  if _case =? UpperCase then u else if _case =? LowerCase then l else t.

(** [to]: the mapping of [r] by the first range that holds it. The library
    finds the range by binary search in a sorted table of disjoint ranges;
    the search is written here as a scan. *)
Fixpoint scan (_case : Z) (r : Z) (caseRange : list CaseRange) : Z * bool :=
  match caseRange with
  | [] => (r, false)
  | cr :: rest =>
    if (Lo cr <=? r) && (r <=? Hi cr) then
      let delta := delta_at _case (Delta cr) in
      if MaxRune <? delta then
        (Lo cr + Z.lor (Z.ldiff (r - Lo cr) 1) (Z.land _case 1), true)
      else (r + delta, true)
    else scan _case r rest
  end.

Definition to (_case : Z) (r : Z) (caseRange : list CaseRange) : Z * bool :=
  if (_case <? 0) || (MaxCase <=? _case) then (ReplacementChar, false)
  else scan _case r caseRange.

Section Tables.

(** The table [unicode.CaseRanges] of the Go distribution. *)
Variable CaseRanges : list CaseRange.

Definition To (_case : Z) (r : Z) : Z := fst (to _case r CaseRanges).

Definition ToUpper (r : Z) : Z :=
  if r <=? MaxASCII then
    (if (97 <=? r) && (r <=? 122) then r - 32 else r)
  else To UpperCase r.

Definition ToLower (r : Z) : Z :=
  if r <=? MaxASCII then
    (if (65 <=? r) && (r <=? 90) then r + 32 else r)
  else To LowerCase r.

End Tables.

(** The entries of [unicode.CaseRanges] up to U+017F and those of the
    Letterlike Symbols block up to U+212B, as the Go distribution lists
    them. *)
Definition CaseRanges_excerpt : list CaseRange :=
  [ {| Lo := 0x0041; Hi := 0x005A; Delta := (0, 32, 0) |};
    {| Lo := 0x0061; Hi := 0x007A; Delta := (-32, 0, -32) |};
    {| Lo := 0x00B5; Hi := 0x00B5; Delta := (743, 0, 743) |};
    {| Lo := 0x00C0; Hi := 0x00D6; Delta := (0, 32, 0) |};
    {| Lo := 0x00D8; Hi := 0x00DE; Delta := (0, 32, 0) |};
    {| Lo := 0x00E0; Hi := 0x00F6; Delta := (-32, 0, -32) |};
    {| Lo := 0x00F8; Hi := 0x00FE; Delta := (-32, 0, -32) |};
    {| Lo := 0x00FF; Hi := 0x00FF; Delta := (121, 0, 121) |};
    {| Lo := 0x0100; Hi := 0x012F; Delta := (UpperLower, UpperLower, UpperLower) |};
    {| Lo := 0x0130; Hi := 0x0130; Delta := (0, -199, 0) |};
    {| Lo := 0x0131; Hi := 0x0131; Delta := (-232, 0, -232) |};
    {| Lo := 0x0132; Hi := 0x0137; Delta := (UpperLower, UpperLower, UpperLower) |};
    {| Lo := 0x0139; Hi := 0x0148; Delta := (UpperLower, UpperLower, UpperLower) |};
    {| Lo := 0x014A; Hi := 0x0177; Delta := (UpperLower, UpperLower, UpperLower) |};
    {| Lo := 0x0178; Hi := 0x0178; Delta := (0, -121, 0) |};
    {| Lo := 0x0179; Hi := 0x017E; Delta := (UpperLower, UpperLower, UpperLower) |};
    {| Lo := 0x017F; Hi := 0x017F; Delta := (-300, 0, -300) |};
    {| Lo := 0x2126; Hi := 0x2126; Delta := (0, -7517, 0) |};
    {| Lo := 0x212A; Hi := 0x212A; Delta := (0, -8383, 0) |};
    {| Lo := 0x212B; Hi := 0x212B; Delta := (0, -8262, 0) |} ].

End unicode.

(** ** Package strings *)
Module strings.

(** [Map]: every rune of [s] replaced by its image, a negative image
    dropping the rune. The bytes of a sequence that is not well formed are
    visited as [RuneError] each, and written as the image of [RuneError]. *)
Definition Map (mapping : Z -> Z) (s : string) : string :=
  fold_right
    (fun c acc =>
       let r := mapping c in
       if 0 <=? r then utf8.EncodeRune r +:+ acc else acc)
    EmptyString (utf8.runes s).

Fixpoint isASCII (s : string) : bool :=
  match s with
  | EmptyString => true
  | String c s' => (byteval c <? utf8.RuneSelf) && isASCII s'
  end.

(** The byte loops of the ASCII fast paths of [ToUpper] and [ToLower]. *)
Definition upper_byte (c : ascii) : ascii :=
  if (97 <=? byteval c) && (byteval c <=? 122) then tobyte (byteval c - 32) else c.

Definition lower_byte (c : ascii) : ascii :=
  if (65 <=? byteval c) && (byteval c <=? 90) then tobyte (byteval c + 32) else c.

Fixpoint map_bytes (f : ascii -> ascii) (s : string) : string :=
  match s with
  | EmptyString => EmptyString
  | String c s' => String (f c) (map_bytes f s')
  end.

Section Tables.

Variable CaseRanges : list unicode.CaseRange.

Definition ToUpper (s : string) : string :=
  if isASCII s then map_bytes upper_byte s
  else Map (unicode.ToUpper CaseRanges) s.

Definition ToLower (s : string) : string :=
  if isASCII s then map_bytes lower_byte s
  else Map (unicode.ToLower CaseRanges) s.

End Tables.

(** [Repeat s count], for a count that is not negative. *)
Fixpoint Repeat (s : string) (count : nat) : string :=
  match count with
  | O => EmptyString
  | S n => s +:+ Repeat s n
  end.

(** [explode s -1], which is [Split s sep] at the empty separator: [s] cut
    into its UTF-8 sequences, a byte that starts none standing alone. *)
Fixpoint explode_from (fuel : nat) (s : string) : list string :=
  match fuel with
  | O => []
  | S fuel' =>
    match s with
    | EmptyString => []
    | String _ _ =>
      let w := snd (utf8.DecodeRuneInString s) in
      String.substring 0 w s :: explode_from fuel' (string_drop w s)
    end
  end.

Definition explode (s : string) : list string := explode_from (String.length s) s.

(** [Split s sep]: at the empty separator the sequences of [s]; otherwise
    the pieces of [s] between the occurrences of [sep], found left to
    right. *)
Fixpoint genSplit_from (fuel : nat) (s sep : string) : list string :=
  match fuel with
  | O => [s]
  | S fuel' =>
    match String.index 0 sep s with
    | None => [s]
    | Some m =>
      String.substring 0 m s
        :: genSplit_from fuel' (string_drop (m + String.length sep) s) sep
    end
  end.

Definition Split (s sep : string) : list string :=
  if String.eqb sep EmptyString then explode s
  else genSplit_from (String.length s) s sep.

(** [Join elems sep]. *)
Fixpoint Join (elems : list string) (sep : string) : string :=
  match elems with
  | [] => EmptyString
  | [x] => x
  | x :: rest => x +:+ sep +:+ Join rest sep
  end.

End strings.

(** ** Package fmt: interface values, errors and their messages *)

(** A value held in an [interface{}], by its dynamic type. [VOther T v]
    stands for a value of any type not listed, given by its renderings
    under the verbs [%T] and [%v]. An [error] is built by [errors.New] (the
    errors the database hands back) or by [fmt.Errorf], which is kept with
    its format and operands. *)
Inductive any : Type :=
| VNil
| VString (s : string)
| VBytes (b : string)
| VBool (b : bool)
| VInt (n : Z)
| VInt64 (n : Z)
| VError (e : error)
| VOther (T v : string)
with error : Type :=
| errors_New (text : string)
| Errorf (format : string) (a : list any).

Module fmt.

Definition percent : ascii := "037"%char.

(** [doPrintf] over a format whose verbs carry no flags: [%%] is a percent
    sign, and every other verb consumes the next operand, given here as the
    function from a verb to the operand's rendering under it. *)
Fixpoint doPrintf (format : string) (a : list (ascii -> string)) : string :=
  match format with
  | EmptyString =>
    match a with
    | [] => EmptyString
    | _ => "%!(EXTRA " +:+
           strings.Join (map (fun p => p "T"%char +:+ "=" +:+ p "v"%char) a) ", " +:+ ")"
    end
  | String c rest =>
    if Ascii.eqb c percent then
      match rest with
      | EmptyString => "%!(NOVERB)"
      | String verb rest' =>
        if Ascii.eqb verb percent then String percent (doPrintf rest' a)
        else
          match a with
          | [] => "%!" +:+ String verb "(MISSING)" +:+ doPrintf rest' []
          | p :: a' => p verb +:+ doPrintf rest' a'
          end
      end
    else String c (doPrintf rest a)
  end.

Section Printer.

(** The renderings this development does not spell out: an operand under
    [%T] or [%q], and under [%s] or [%v] when it is neither a string, a
    byte slice under [%s], nor an error. *)
Variable printOther : ascii -> any -> string.

Definition plain (verb : ascii) : bool :=
  Ascii.eqb verb "s"%char || Ascii.eqb verb "v"%char.

(** The method [Error] of an error value. *)
Fixpoint Error (e : error) : string :=
  match e with
  | errors_New text => text
  | Errorf format a =>
    doPrintf format
      (map (fun arg verb =>
              match arg with
              | VString s => if plain verb then s else printOther verb arg
              | VBytes b => if Ascii.eqb verb "s"%char then b else printOther verb arg
              | VError e' => if plain verb then Error e' else printOther verb arg
              | _ => printOther verb arg
              end) a)
  end.

End Printer.

End fmt.

(** ** Package database/sql *)
Module sql.

Record NullString := {
  String : string;
  Valid : bool
}.

End sql.

(** A query handed to the database: its text and its bound parameters. *)
Record Query := {
  text : string;
  params : list any
}.

(** ** Package sqlitemeta: types *)

Record Schema := {
  name : string
}.

Definition DB (name : string) : Schema := {| name := name |}.

Definition Main : Schema := DB "main".

Definition Temp : Schema := DB "temp".

Definition noSchema : Schema := {| name := EmptyString |}.

Module Column.
Record t := {
  ID : Z;
  Name : string;
  Type_ : string;
  NotNull : bool;
  Default : option string;
  PrimaryKey : Z
}.
End Column.

(** [type ForeignKeyAction uint], with its constants numbered by [iota]. *)
Definition ForeignKeyAction : Type := Z.
Definition ForeignKeyActionNone : ForeignKeyAction := 0.
Definition ForeignKeyActionRestrict : ForeignKeyAction := 1.
Definition ForeignKeyActionSetNull : ForeignKeyAction := 2.
Definition ForeignKeyActionSetDefault : ForeignKeyAction := 3.
Definition ForeignKeyActionCascade : ForeignKeyAction := 4.

Module ForeignKey.
Record t := {
  ID : Z;
  ChildTable : string;
  ChildKey : list string;
  ParentTable : string;
  ParentKey : list sql.NullString;
  OnUpdate : ForeignKeyAction;
  OnDelete : ForeignKeyAction
}.
End ForeignKey.

(** The row type that [ForeignKeys] declares for its query. *)
Module fkRow.
Record t := {
  ID : Z;
  Table : string;
  From : string;
  To : sql.NullString;
  OnUpdate : ForeignKeyAction;
  OnDelete : ForeignKeyAction
}.
End fkRow.

(** [type IndexType uint], with its constants numbered by [iota]. *)
Definition IndexType : Type := Z.
Definition IndexTypeNormal : IndexType := 0.
Definition IndexTypeUnique : IndexType := 1.
Definition IndexTypePrimaryKey : IndexType := 2.

Module Index.
Record t := {
  Name : string;
  Type_ : IndexType;
  IsUnique : bool;
  IsPartial : bool;
  ColumnNames : list sql.NullString
}.
End Index.

(** The row type that [Indexes] declares for its query. *)
Module idxRow.
Record t := {
  Name : string;
  Type_ : IndexType;
  Unique : bool;
  Partial : bool;
  ColumnName : sql.NullString
}.
End idxRow.

Definition TableRankRowID : Z := -1.
Definition TableRankExpr : Z := -2.

Module IndexColumn.
Record t := {
  Name : sql.NullString;
  Rank : Z;
  TableRank : Z;
  Descending : bool;
  Collation : string;
  IsKey : bool
}.
End IndexColumn.

(** ** The query executor

    The handle [db *sql.DB] together with the helpers [queryStrings] and
    [queryRows] of the package, which are not part of [sqlitemeta.go]: each
    entry takes a query and the state of the connection and gives back what
    the Go call leaves in its destination, the error it returns, and the
    connection afterwards. [queryRows] is one entry per destination type. *)
Record Executor (Conn : Type) := {
  (** [db.QueryRow(q, args...).Scan(&count)] *)
  QueryRow_Scan : Query -> Conn -> (Z * option error) * Conn;
  (** [queryStrings(db, q, args...)] *)
  queryStrings : Query -> Conn -> (list string * option error) * Conn;
  (** [queryRows(&dest, db, q, args...)] *)
  queryRows_Column : Query -> Conn -> (list Column.t * option error) * Conn;
  queryRows_fkRow : Query -> Conn -> (list fkRow.t * option error) * Conn;
  queryRows_idxRow : Query -> Conn -> (list idxRow.t * option error) * Conn;
  queryRows_IndexColumn : Query -> Conn -> (list IndexColumn.t * option error) * Conn
}.

Arguments QueryRow_Scan {Conn}.
Arguments queryStrings {Conn}.
Arguments queryRows_Column {Conn}.
Arguments queryRows_fkRow {Conn}.
Arguments queryRows_idxRow {Conn}.
Arguments queryRows_IndexColumn {Conn}.

(** The world a call runs in: the connection and the log of the queries
    issued so far, oldest first. *)
Record World (Conn : Type) := {
  conn : Conn;
  issued : list Query
}.

Arguments conn {Conn}.
Arguments issued {Conn}.

Definition M (Conn : Type) (A : Type) : Type := World Conn -> A * World Conn.

#[global] Instance M_ret {Conn} : MRet (M Conn) := fun A a w => (a, w).

#[global] Instance M_bind {Conn} : MBind (M Conn) :=
  fun A B f m w => let '(a, w') := m w in f a w'.

(** Handing a query to one entry of the executor. *)
Definition issue {Conn A} (entry : Query -> Conn -> A * Conn) (q : string)
    (args : list any) : M Conn A :=
  fun w =>
    let query := {| text := q; params := args |} in
    let '(a, c) := entry query (conn w) in
    (a, {| conn := c; issued := issued w ++ [query] |}).

(** Running a call on a connection, from an empty log. *)
Definition run {Conn A} (m : M Conn A) (c : Conn) : A * World Conn :=
  m {| conn := c; issued := [] |}.

(** ** Package sqlitemeta: helpers *)

Definition dquote : string := String "034"%char EmptyString.

Definition nonempty (s : string) : bool := negb (String.eqb s EmptyString).

(** [sqlower] replicates the LOWER function of SQLite. *)
Definition sqlower (s : string) : string :=
  strings.Map (fun r => if (65 <=? r) && (r <=? 90) then 97 + r - 65 else r) s.

Definition toString (v : any) : string * bool :=
  match v with
  | VString s => (s, true)
  | VBytes s => (s, true)
  | _ => (EmptyString, false)
  end.

Definition placeholdersFor (vals : list any) : string :=
  strings.Join (strings.Split (strings.Repeat "?" (length vals)) EmptyString) ", ".

(** The two folds over result rows. [fk] and [idx] point at the last
    element of the slice under construction: [None] is the nil pointer,
    [Some i] the address of element [i]. *)

Definition ForeignKeys_step (tableName : string)
    (st : option nat * list ForeignKey.t) (r : fkRow.t)
    : option nat * list ForeignKey.t :=
  let '(fk, foreignKeys) := st in
  let '(fk, foreignKeys) :=
    if match fk with
       | None => true
       | Some i =>
         match foreignKeys !! i with
         | Some cur => negb (fkRow.ID r =? ForeignKey.ID cur)
         | None => true
         end
       end
    then
      let foreignKeys :=
        foreignKeys ++ [ {| ForeignKey.ID := fkRow.ID r;
                            ForeignKey.ChildTable := tableName;
                            ForeignKey.ChildKey := [];
                            ForeignKey.ParentTable := fkRow.Table r;
                            ForeignKey.ParentKey := [];
                            ForeignKey.OnUpdate := fkRow.OnUpdate r;
                            ForeignKey.OnDelete := fkRow.OnDelete r |} ] in
      (Some (length foreignKeys - 1)%nat, foreignKeys)
    else (fk, foreignKeys) in
  match fk with
  | None => (fk, foreignKeys)
  | Some i =>
    let foreignKeys :=
      alter (fun k => {| ForeignKey.ID := ForeignKey.ID k;
                         ForeignKey.ChildTable := ForeignKey.ChildTable k;
                         ForeignKey.ChildKey := ForeignKey.ChildKey k ++ [fkRow.From r];
                         ForeignKey.ParentTable := ForeignKey.ParentTable k;
                         ForeignKey.ParentKey := ForeignKey.ParentKey k;
                         ForeignKey.OnUpdate := ForeignKey.OnUpdate k;
                         ForeignKey.OnDelete := ForeignKey.OnDelete k |}) i foreignKeys in
    let foreignKeys :=
      alter (fun k => {| ForeignKey.ID := ForeignKey.ID k;
                         ForeignKey.ChildTable := ForeignKey.ChildTable k;
                         ForeignKey.ChildKey := ForeignKey.ChildKey k;
                         ForeignKey.ParentTable := ForeignKey.ParentTable k;
                         ForeignKey.ParentKey := ForeignKey.ParentKey k ++ [fkRow.To r];
                         ForeignKey.OnUpdate := ForeignKey.OnUpdate k;
                         ForeignKey.OnDelete := ForeignKey.OnDelete k |}) i foreignKeys in
    (fk, foreignKeys)
  end.

Definition ForeignKeys_fold (tableName : string) (rows : list fkRow.t)
    : list ForeignKey.t :=
  snd (fold_left (ForeignKeys_step tableName) rows (None, [])).

Definition Indexes_step (st : option nat * list Index.t) (r : idxRow.t)
    : option nat * list Index.t :=
  let '(idx, indexes) := st in
  let '(idx, indexes) :=
    if match idx with
       | None => true
       | Some i =>
         match indexes !! i with
         | Some cur => negb (String.eqb (idxRow.Name r) (Index.Name cur))
         | None => true
         end
       end
    then
      let indexes :=
        indexes ++ [ {| Index.Name := idxRow.Name r;
                        Index.Type_ := idxRow.Type_ r;
                        Index.IsUnique := idxRow.Unique r;
                        Index.IsPartial := idxRow.Partial r;
                        Index.ColumnNames := [] |} ] in
      (Some (length indexes - 1)%nat, indexes)
    else (idx, indexes) in
  match idx with
  | None => (idx, indexes)
  | Some i =>
    let indexes :=
      alter (fun k => {| Index.Name := Index.Name k;
                         Index.Type_ := Index.Type_ k;
                         Index.IsUnique := Index.IsUnique k;
                         Index.IsPartial := Index.IsPartial k;
                         Index.ColumnNames := Index.ColumnNames k ++ [idxRow.ColumnName r] |})
            i indexes in
    (idx, indexes)
  end.

Definition Indexes_fold (rows : list idxRow.t) : list Index.t :=
  snd (fold_left Indexes_step rows (None, [])).

(** ** Package sqlitemeta: the operations *)
Section Sqlitemeta.

(** The table [unicode.CaseRanges] of the Go distribution. *)
Variable CaseRanges : list unicode.CaseRange.

(** The method [Scan] of [ForeignKeyAction]: from the value its receiver
    points at before the call and the source, the value it points at
    after the call and the error returned. *)
Definition ForeignKeyAction_Scan (v : ForeignKeyAction) (src : any)
    : ForeignKeyAction * option error :=
  let '(s, ok) := toString src in
  if negb ok then
    (v, Some (Errorf "invalid ForeignKeyAction: %T %v" [src; src]))
  else
    let u := strings.ToUpper CaseRanges s in
    if String.eqb u "NO ACTION" then (ForeignKeyActionNone, None)
    else if String.eqb u "RESTRICT" then (ForeignKeyActionRestrict, None)
    else if String.eqb u "SET NULL" then (ForeignKeyActionSetNull, None)
    else if String.eqb u "SET DEFAULT" then (ForeignKeyActionSetDefault, None)
    else if String.eqb u "CASCADE" then (ForeignKeyActionCascade, None)
    else (v, Some (Errorf "unsupported ForeignKeyAction: %q" [VString s])).

(** The method [Scan] of [IndexType], likewise. *)
Definition IndexType_Scan (t : IndexType) (src : any)
    : IndexType * option error :=
  let '(s, ok) := toString src in
  if negb ok then
    (t, Some (Errorf "invalid IndexType: %T %v" [src; src]))
  else
    let l := strings.ToLower CaseRanges s in
    if String.eqb l "c" then (IndexTypeNormal, None)
    else if String.eqb l "u" then (IndexTypeUnique, None)
    else if String.eqb l "pk" then (IndexTypePrimaryKey, None)
    else (t, Some (Errorf "unsupported IndexType: %q" [VString s])).

Context {Conn : Type}.
Variable db : Executor Conn.

Definition SchemaNames : M Conn (list string * option error) :=
  '(names, err) ← issue (queryStrings db)
                    "SELECT name FROM pragma_database_list ORDER BY name" [];
  match err with
  | Some e => mret ([], Some (Errorf "could not get schema names: %s" [VError e]))
  | None => mret (names, None)
  end.

Definition verify (s : Schema) : M Conn (option error) :=
  let q := "SELECT COUNT(*) FROM pragma_database_list WHERE LOWER(name) = ?" in
  '(count, err) ← issue (QueryRow_Scan db) q [VString (sqlower (name s))];
  match err with
  | Some e => mret (Some e)
  | None =>
    if count <? 1 then
      mret (Some (Errorf "unknown database '%s'" [VString (name s)]))
    else mret None
  end.

(** The tail of [masterTableNames], from the point where the name of the
    catalog table is settled; [fmt.Sprintf] with the one verb [%s] and a
    string operand is written as the concatenation it performs. *)
Definition masterTableNames_query (tableName typ : string)
    : M Conn (list string * option error) :=
  let q := "SELECT name FROM " +:+ tableName +:+ " WHERE type = ? ORDER BY name" in
  '(names, err) ← issue (queryStrings db) q [VString typ];
  match err with
  | Some e =>
    mret ([], Some (Errorf "could not get %s names: %s" [VString typ; VError e]))
  | None => mret (names, None)
  end.

Definition masterTableNames (s : Schema) (typ : string)
    : M Conn (list string * option error) :=
  let tableName := "sqlite_master" in
  if nonempty (name s) then
    if String.eqb (strings.ToLower CaseRanges (name s)) "temp" then
      masterTableNames_query "sqlite_temp_master" typ
    else
      err ← verify s;
      match err with
      | Some e =>
        mret ([], Some (Errorf "could not get %s names: %s" [VString typ; VError e]))
      | None => masterTableNames_query (name s +:+ "." +:+ tableName) typ
      end
  else masterTableNames_query tableName typ.

Definition Schema_TableNames (s : Schema) := masterTableNames s "table".
Definition Schema_ViewNames (s : Schema) := masterTableNames s "view".
Definition Schema_TriggerNames (s : Schema) := masterTableNames s "trigger".
Definition Schema_IndexNames (s : Schema) := masterTableNames s "index".

Definition TableNames := Schema_TableNames noSchema.
Definition ViewNames := Schema_ViewNames noSchema.
Definition TriggerNames := Schema_TriggerNames noSchema.
Definition IndexNames := Schema_IndexNames noSchema.

(** The parameter list that [Columns], [ForeignKeys] and [indexColumns]
    build: the object name, then the schema name when there is one. *)
Definition scoped_params (s : Schema) (objectName : string) : list any :=
  let params := [VString objectName] in
  if nonempty (name s) then params ++ [VString (name s)] else params.

Definition Columns_q (s : Schema) (tableName : string) : string :=
  ("SELECT
			cid,
			name,
			type,
			" +:+ dquote +:+ "notnull" +:+ dquote +:+ ",
			dflt_value,
			pk
		FROM
			pragma_table_info(") +:+ placeholdersFor (scoped_params s tableName) +:+ (")
		ORDER BY
			cid").

Definition Schema_Columns (s : Schema) (tableName : string)
    : M Conn (list Column.t * option error) :=
  let params := scoped_params s tableName in
  let q := Columns_q s tableName in
  '(columns, err) ← issue (queryRows_Column db) q params;
  match err with
  | Some e =>
    mret ([], Some (Errorf "could not get columns for table %s: %s"
                      [VString tableName; VError e]))
  | None => mret (columns, None)
  end.

Definition Columns := Schema_Columns noSchema.

Definition ForeignKeys_q (s : Schema) (tableName : string) : string :=
  ("SELECT
			id,
			" +:+ dquote +:+ "table" +:+ dquote +:+ ",
			" +:+ dquote +:+ "from" +:+ dquote +:+ ",
			" +:+ dquote +:+ "to" +:+ dquote +:+ ",
			on_update,
			on_delete
		FROM
			pragma_foreign_key_list(") +:+ placeholdersFor (scoped_params s tableName) +:+ (")
		ORDER BY
			id, seq").

Definition Schema_ForeignKeys (s : Schema) (tableName : string)
    : M Conn (list ForeignKey.t * option error) :=
  let params := scoped_params s tableName in
  let q := ForeignKeys_q s tableName in
  '(rows, err) ← issue (queryRows_fkRow db) q params;
  match err with
  | Some e =>
    mret ([], Some (Errorf "could not get foreign keys for table %s: %s"
                      [VString tableName; VError e]))
  | None => mret (ForeignKeys_fold tableName rows, None)
  end.

Definition ForeignKeys := Schema_ForeignKeys noSchema.

Definition Indexes_params (s : Schema) (tableName : string) : list any :=
  let params := [VString tableName] in
  if nonempty (name s) then params ++ [VString (name s); VString (name s)]
  else params.

Definition Indexes_q (s : Schema) : string :=
  let placeholder := if nonempty (name s) then ", ?" else EmptyString in
  ("SELECT
			t1.name,
			t1.origin,
			t1." +:+ dquote +:+ "unique" +:+ dquote +:+ ",
			t1.partial,
			t2.name
		FROM
			pragma_index_list(?") +:+ placeholder +:+ (") t1
		INNER JOIN
			pragma_index_info(t1.name") +:+ placeholder +:+ (") t2
		ORDER BY
			t1.seq, t2.seqno").

Definition Schema_Indexes (s : Schema) (tableName : string)
    : M Conn (list Index.t * option error) :=
  let params := Indexes_params s tableName in
  let q := Indexes_q s in
  '(rows, err) ← issue (queryRows_idxRow db) q params;
  match err with
  | Some e =>
    mret ([], Some (Errorf "could not get indexes for table %s: %s"
                      [VString tableName; VError e]))
  | None => mret (Indexes_fold rows, None)
  end.

Definition Indexes := Schema_Indexes noSchema.

Definition indexColumns_q (s : Schema) (indexName : string) (includeAux : bool)
    : string :=
  let whereClause := if includeAux then "1 = 1" else "key = 1" in
  ("SELECT
			name,
			seqno,
			cid,
			desc,
			coll,
			key
		FROM
			pragma_index_xinfo(") +:+ placeholdersFor (scoped_params s indexName) +:+ (")
		WHERE
			") +:+ whereClause +:+ ("
		ORDER BY
			seqno").

Definition indexColumns (s : Schema) (indexName : string) (includeAux : bool)
    : M Conn (list IndexColumn.t * option error) :=
  let params := scoped_params s indexName in
  let q := indexColumns_q s indexName includeAux in
  '(columns, err) ← issue (queryRows_IndexColumn db) q params;
  match err with
  | Some e =>
    mret ([], Some (Errorf "could not get columns for index %s: %s"
                      [VString indexName; VError e]))
  | None => mret (columns, None)
  end.

Definition Schema_IndexColumns (s : Schema) (indexName : string) :=
  indexColumns s indexName false.

Definition IndexColumns := Schema_IndexColumns noSchema.

Definition Schema_IndexColumnsAux (s : Schema) (indexName : string) :=
  indexColumns s indexName true.

Definition IndexColumnsAux := Schema_IndexColumnsAux noSchema.

End Sqlitemeta.

(** ** Package sqlitemeta_test: the database mode and the comparison helper *)

(** [type dbMode uint], with its constants numbered by [iota]. *)
Definition dbMode : Type := Z.
Definition dbModeUnknown : dbMode := 0.
Definition dbModeMemory : dbMode := 1.
Definition dbModeFile : dbMode := 2.
Definition dbModeTemp : dbMode := 3.

(** The method [Set] of [dbMode]: from the value its receiver points at
    before the call and the flag text, the value it points at after the
    call and the error returned. *)
Definition dbMode_Set (CaseRanges : list unicode.CaseRange) (m : dbMode) (s : string)
    : dbMode * option error :=
  let l := strings.ToLower CaseRanges s in
  if String.eqb l "memory" then (dbModeMemory, None)
  else if String.eqb l "file" then (dbModeFile, None)
  else if String.eqb l "temp" then (dbModeTemp, None)
  else (m, Some (Errorf "must be 'memory', 'file' or 'temp'" [])).

Definition dbMode_String (m : dbMode) : string :=
  if m =? dbModeMemory then "memory-based"
  else if m =? dbModeFile then "file-based"
  else if m =? dbModeTemp then "temp"
  else "Unknown".

(** [equalStringSlices] of [sqlitemeta_test.go]. The loop is [for i := range
    s1], written over the indexes it visits; [None] is the panic of an index
    out of range. *)
Fixpoint equalStringSlices_loop (indexes : list nat) (s1 s2 : list string)
    : option bool :=
  match indexes with
  | [] => Some true
  | i :: rest =>
    match s1 !! i, s2 !! i with
    | Some a, Some b =>
      if negb (String.eqb a b) then Some false
      else equalStringSlices_loop rest s1 s2
    | _, _ => None
    end
  end.

Definition equalStringSlices (s1 s2 : list string) : option bool :=
  if negb (length s1 =? length s2)%nat then Some false
  else equalStringSlices_loop (seq 0 (length s1)) s1 s2.

(** * The vocabulary of the properties

    The definitions below are not translated from [sqlitemeta.go]: they say
    what the properties that follow speak of. *)

(** ** Maximal runs of rows *)
Section Runs.
Context {Row K : Type} `{EqDecision K}.
Variable key : Row -> K.

(** A run is given by its first row and the rows after it. *)
Definition run_rows (run : Row * list Row) : list Row := fst run :: snd run.

(** The maximal runs of consecutive rows with equal keys, in order: each
    row is compared with the row that follows it. *)
Fixpoint runs (rows : list Row) : list (Row * list Row) :=
  match rows with
  | [] => []
  | r :: rest =>
    match runs rest with
    | (r', run) :: more =>
      if decide (key r = key r') then (r, r' :: run) :: more
      else (r, []) :: (r', run) :: more
    | [] => [(r, [])]
    end
  end.

(** Neighbouring runs start with rows of different keys. *)
Fixpoint heads_differ (rs : list (Row * list Row)) : Prop :=
  match rs with
  | a :: ((b :: _) as rest) => key (fst a) ≠ key (fst b) ∧ heads_differ rest
  | _ => True
  end.

(** [rs] cuts [rows] into its maximal runs: the runs laid end to end are
    the rows, the rows of a run share the key of its first row, and no
    two neighbouring runs could be joined. *)
Definition maximal_runs (rows : list Row) (rs : list (Row * list Row)) : Prop :=
  concat (map run_rows rs) = rows
  /\ Forall (fun run => Forall (fun x => key x = key (fst run)) (snd run)) rs
  /\ heads_differ rs.

(** The runs of [rows ++ [r]], from the runs of [rows]. *)
Fixpoint snoc_run (rs : list (Row * list Row)) (r : Row) : list (Row * list Row) :=
  match rs with
  | [] => [(r, [])]
  | (h, tl) :: [] =>
    if decide (key h = key r) then [(h, tl ++ [r])] else [(h, tl); (r, [])]
  | x :: rs' => x :: snoc_run rs' r
  end.

(** The loop that [ForeignKeys] and [Indexes] share, over any row and
    record types: [keyR] reads the key of a record, [new] starts a record
    from a row and [add] appends the payload of a row to a record. *)
Section Fold.
Context {Rec : Type}.
Variables (keyR : Rec -> K) (new : Row -> Rec) (add : Rec -> Row -> Rec).

Definition gstep (st : option nat * list Rec) (r : Row) : option nat * list Rec :=
  let '(p, l) := st in
  let '(p, l) :=
    if match p with
       | None => true
       | Some i =>
         match l !! i with
         | Some cur => negb (bool_decide (key r = keyR cur))
         | None => true
         end
       end
    then (Some (length (l ++ [new r]) - 1)%nat, l ++ [new r])
    else (p, l) in
  match p with
  | None => (p, l)
  | Some i => (p, alter (fun k => add k r) i l)
  end.

(** The record of a run: started from its first row, every row added. *)
Definition build (run : Row * list Row) : Rec :=
  fold_left add (snd run) (add (new (fst run)) (fst run)).

(** The state of the loop after the rows seen so far: the records of
    their runs, and the pointer at the last of them. *)
Definition gstate (rows : list Row) : option nat * list Rec :=
  let l := map build (runs rows) in
  (match l with [] => None | _ => Some (length l - 1)%nat end, l).

End Fold.
End Runs.

(** ** Records of runs *)

Definition ForeignKey_new (tableName : string) (r : fkRow.t) : ForeignKey.t :=
  {| ForeignKey.ID := fkRow.ID r;
     ForeignKey.ChildTable := tableName;
     ForeignKey.ChildKey := [];
     ForeignKey.ParentTable := fkRow.Table r;
     ForeignKey.ParentKey := [];
     ForeignKey.OnUpdate := fkRow.OnUpdate r;
     ForeignKey.OnDelete := fkRow.OnDelete r |}.

Definition ForeignKey_add (k : ForeignKey.t) (r : fkRow.t) : ForeignKey.t :=
  {| ForeignKey.ID := ForeignKey.ID k;
     ForeignKey.ChildTable := ForeignKey.ChildTable k;
     ForeignKey.ChildKey := ForeignKey.ChildKey k ++ [fkRow.From r];
     ForeignKey.ParentTable := ForeignKey.ParentTable k;
     ForeignKey.ParentKey := ForeignKey.ParentKey k ++ [fkRow.To r];
     ForeignKey.OnUpdate := ForeignKey.OnUpdate k;
     ForeignKey.OnDelete := ForeignKey.OnDelete k |}.

(** The foreign key of a run of rows: the group-level fields of its first
    row, and one entry of each key list per row, in row order. *)
Definition ForeignKey_of_run (tableName : string) (run : fkRow.t * list fkRow.t)
    : ForeignKey.t :=
  {| ForeignKey.ID := fkRow.ID (fst run);
     ForeignKey.ChildTable := tableName;
     ForeignKey.ChildKey := map fkRow.From (run_rows run);
     ForeignKey.ParentTable := fkRow.Table (fst run);
     ForeignKey.ParentKey := map fkRow.To (run_rows run);
     ForeignKey.OnUpdate := fkRow.OnUpdate (fst run);
     ForeignKey.OnDelete := fkRow.OnDelete (fst run) |}.

Definition Index_new (r : idxRow.t) : Index.t :=
  {| Index.Name := idxRow.Name r;
     Index.Type_ := idxRow.Type_ r;
     Index.IsUnique := idxRow.Unique r;
     Index.IsPartial := idxRow.Partial r;
     Index.ColumnNames := [] |}.

Definition Index_add (k : Index.t) (r : idxRow.t) : Index.t :=
  {| Index.Name := Index.Name k;
     Index.Type_ := Index.Type_ k;
     Index.IsUnique := Index.IsUnique k;
     Index.IsPartial := Index.IsPartial k;
     Index.ColumnNames := Index.ColumnNames k ++ [idxRow.ColumnName r] |}.

(** The index of a run of rows, likewise. *)
Definition Index_of_run (run : idxRow.t * list idxRow.t) : Index.t :=
  {| Index.Name := idxRow.Name (fst run);
     Index.Type_ := idxRow.Type_ (fst run);
     Index.IsUnique := idxRow.Unique (fst run);
     Index.IsPartial := idxRow.Partial (fst run);
     Index.ColumnNames := map idxRow.ColumnName (run_rows run) |}.

(** ** Queries as the executor receives them *)

Definition verify_query (s : Schema) : Query :=
  {| text := "SELECT COUNT(*) FROM pragma_database_list WHERE LOWER(name) = ?";
     params := [VString (sqlower (name s))] |}.

Definition catalog_query (tableName typ : string) : Query :=
  {| text := "SELECT name FROM " +:+ tableName +:+ " WHERE type = ? ORDER BY name";
     params := [VString typ] |}.

Definition Columns_query (s : Schema) (tableName : string) : Query :=
  {| text := Columns_q s tableName; params := scoped_params s tableName |}.

Definition ForeignKeys_query (s : Schema) (tableName : string) : Query :=
  {| text := ForeignKeys_q s tableName; params := scoped_params s tableName |}.

Definition Indexes_query (s : Schema) (tableName : string) : Query :=
  {| text := Indexes_q s; params := Indexes_params s tableName |}.

Definition indexColumns_query (s : Schema) (indexName : string) (includeAux : bool)
    : Query :=
  {| text := indexColumns_q s indexName includeAux;
     params := scoped_params s indexName |}.

(** The name-listing operations, each with the type tag it passes on. *)
Definition name_listings {Conn : Type} (CaseRanges : list unicode.CaseRange)
    (db : Executor Conn) (s : Schema)
    : list (string * M Conn (list string * option error)) :=
  [ ("table", Schema_TableNames CaseRanges db s);
    ("view", Schema_ViewNames CaseRanges db s);
    ("trigger", Schema_TriggerNames CaseRanges db s);
    ("index", Schema_IndexNames CaseRanges db s) ].

(** ** Placeholders *)

(** The number of bytes of [s] equal to [c]. *)
Fixpoint count_byte (c : ascii) (s : string) : nat :=
  match s with
  | EmptyString => 0%nat
  | String x s' => ((if Ascii.eqb x c then 1 else 0) + count_byte c s')%nat
  end.

Definition qmark : ascii := "?"%char.

(** A query whose text holds as many placeholders as it binds values. *)
Definition balanced (q : Query) : Prop :=
  count_byte qmark (text q) = length (params q).

(** ** Case folding *)

(** ASCII-only case folding, which is the LOWER of SQLite: the letters A to
    Z lowered, every other byte kept. *)
Definition ascii_fold (s : string) : string := strings.map_bytes strings.lower_byte s.

(** Equality of two strings under ASCII-only case folding. *)
Definition ascii_eqfold (s t : string) : Prop := ascii_fold s = ascii_fold t.

(** Every byte of [s] has its value in [P]. *)
Fixpoint only (P : Z -> bool) (s : string) : bool :=
  match s with
  | EmptyString => true
  | String c s' => P (byteval c) && only P s'
  end.

(** The four letters of the reserved name. *)
Definition temp_letter (b : Z) : bool :=
  (b =? 116) || (b =? 101) || (b =? 109) || (b =? 112).

(** What the case table of the Go distribution satisfies: no rune above
    U+007F has one of the letters t, e, m, p as its lower case. *)
Definition lower_avoids_temp (CaseRanges : list unicode.CaseRange) : Prop :=
  forall r, 128 <= r ->
    0 <= unicode.ToLower CaseRanges r
    /\ temp_letter (unicode.ToLower CaseRanges r) = false.

(** [sub] occurs in [s]. *)
Definition contains (s sub : string) : Prop :=
  exists pre post, s = pre +:+ sub +:+ post.

(** ** The literals of the two enumerations *)

Definition ForeignKeyAction_literals : list (string * ForeignKeyAction) :=
  [ ("NO ACTION", ForeignKeyActionNone);
    ("RESTRICT", ForeignKeyActionRestrict);
    ("SET NULL", ForeignKeyActionSetNull);
    ("SET DEFAULT", ForeignKeyActionSetDefault);
    ("CASCADE", ForeignKeyActionCascade) ].

Definition IndexType_literals : list (string * IndexType) :=
  [ ("c", IndexTypeNormal);
    ("u", IndexTypeUnique);
    ("pk", IndexTypePrimaryKey) ].

(** The value of the literal that [s] is, if it is one. *)
Fixpoint literal_value (literals : list (string * Z)) (s : string) : option Z :=
  match literals with
  | [] => None
  | (lit, v) :: rest => if String.eqb s lit then Some v else literal_value rest s
  end.

(** The content of a source value that is a string or a byte slice. *)
Definition text_of (src : any) : option string :=
  match src with
  | VString s => Some s
  | VBytes s => Some s
  | _ => None
  end.

(** ** Rows in groups *)

Section Grouped.
Context {Row K : Type} `{EqDecision K}.
Variable key : Row -> K.

(** Rows of equal keys are consecutive: a row is followed by a row of its
    key, or no later row has its key. *)
Fixpoint grouped (rows : list Row) : Prop :=
  match rows with
  | [] => True
  | r :: rest =>
    match rest with
    | [] => True
    | r' :: _ => key r = key r' \/ Forall (fun x => key x <> key r) rest
    end
    /\ grouped rest
  end.

(** The rows of [rows] with the key [k], in order. *)
Definition rows_of (k : K) (rows : list Row) : list Row :=
  filter (fun x => key x = k) rows.

End Grouped.

(** ** More queries and values *)

Definition SchemaNames_query : Query :=
  {| text := "SELECT name FROM pragma_database_list ORDER BY name"; params := [] |}.

(** An upper-case ASCII letter. *)
Definition upper_letter (b : Z) : bool := (65 <=? b) && (b <=? 90).

(** The message of a wrapped error: the prefix, then the message of the
    error inside. *)
Definition wraps (printOther : ascii -> any -> string) (outer : error)
    (prefix : string) (inner : error) : Prop :=
  fmt.Error printOther outer = prefix +:+ fmt.Error printOther inner.

(** A rune with an encoding of its own: a code point that is no surrogate. *)
Definition scalar (r : Z) : Prop :=
  0 <= r <= utf8.MaxRune /\ (r < utf8.surrogateMin \/ utf8.surrogateMax < r).

(** ** Relaying an answer *)

(** The call [op] relays the answer to the query [q]: on every connection
    it issues [q] and nothing else and leaves the connection as the answer
    does; when the answer carries no error it returns [post] of the rows of
    the answer and the nil error; when the answer carries an error it
    returns the nil list, whatever rows came with the error, and an error
    whose message is [prefix] followed by the message of that error. *)
Definition relays {Conn A B : Type} (op : M Conn (list B * option error))
    (entry : Query -> Conn -> (list A * option error) * Conn) (q : Query)
    (post : list A -> list B) (prefix : string) : Prop :=
  forall c : Conn,
    let '((rows, err), c') := entry q c in
    let '((result, err'), w) := run op c in
    w = {| conn := c'; issued := [q] |}
    /\ match err with
       | None => result = post rows /\ err' = None
       | Some e =>
         result = []
         /\ exists outer, err' = Some outer
              /\ forall printOther, wraps printOther outer prefix e
       end.

(** The package-level functions that list names, each with its type tag. *)
Definition package_name_listings {Conn : Type} (CaseRanges : list unicode.CaseRange)
    (db : Executor Conn) : list (string * M Conn (list string * option error)) :=
  [ ("table", TableNames CaseRanges db);
    ("view", ViewNames CaseRanges db);
    ("trigger", TriggerNames CaseRanges db);
    ("index", IndexNames CaseRanges db) ].

(** The flag texts that [dbMode.Set] knows, each with its mode. *)
Definition dbMode_literals : list (string * dbMode) :=
  [ ("memory", dbModeMemory); ("file", dbModeFile); ("temp", dbModeTemp) ].

(** ** The database reading the index-column query

    How SQLite answers a SELECT over the table-valued function
    pragma_index_xinfo, as far as the queries of [indexColumns] go: the
    statement is read word by word, the rows that the function yields for
    the bound values are filtered by the condition after WHERE and then
    sorted, stably, by the column after ORDER BY. A statement of another
    shape is refused. *)
Module sqlite.

Definition is_space (c : ascii) : bool :=
  Ascii.eqb c " "%char || Ascii.eqb c "009"%char
  || Ascii.eqb c "010"%char || Ascii.eqb c "013"%char.

(** The words of a statement: its maximal runs of bytes other than white
    space. [cur] is the word being read. *)
Fixpoint words_from (cur : string) (s : string) : list string :=
  match s with
  | EmptyString => if nonempty cur then [cur] else []
  | String c s' =>
    if is_space c then
      (if nonempty cur then [cur] else []) ++ words_from EmptyString s'
    else words_from (cur +:+ String c EmptyString) s'
  end.

Definition words (s : string) : list string := words_from EmptyString s.

(** The words before and after the first occurrence of the word [w]. *)
Fixpoint cut (w : string) (l : list string) : option (list string * list string) :=
  match l with
  | [] => None
  | x :: l' =>
    if String.eqb x w then Some ([], l')
    else match cut w l' with
         | Some (before, after) => Some (x :: before, after)
         | None => None
         end
  end.

Fixpoint same_words (a b : list string) : bool :=
  match a, b with
  | [], [] => true
  | x :: a', y :: b' => String.eqb x y && same_words a' b'
  | _, _ => false
  end.

(** The value on a row of an integer column of pragma_index_xinfo, or of
    one of the literals 0 and 1. *)
Definition operand (w : string) : option (IndexColumn.t -> Z) :=
  if String.eqb w "key" then Some (fun col => if IndexColumn.IsKey col then 1 else 0)
  else if String.eqb w "seqno" then Some IndexColumn.Rank
  else if String.eqb w "cid" then Some IndexColumn.TableRank
  else if String.eqb w "desc" then
    Some (fun col => if IndexColumn.Descending col then 1 else 0)
  else if String.eqb w "0" then Some (fun _ => 0)
  else if String.eqb w "1" then Some (fun _ => 1)
  else None.

(** A condition: two operands compared for equality. *)
Definition condition (ws : list string) : option (IndexColumn.t -> bool) :=
  match ws with
  | [l; op; r] =>
    if String.eqb op "=" then
      match operand l, operand r with
      | Some f, Some g => Some (fun col => f col =? g col)
      | _, _ => None
      end
    else None
  | _ => None
  end.

(** The number of values that the call of the function binds. *)
Definition bindings (from : list string) : option nat :=
  match from with
  | [w] => if String.eqb w "pragma_index_xinfo(?)" then Some 1%nat else None
  | [w1; w2] =>
    if String.eqb w1 "pragma_index_xinfo(?," && String.eqb w2 "?)" then Some 2%nat
    else None
  | _ => None
  end.

(** The columns in the order of the fields of [IndexColumn]. *)
Definition columns : list string :=
  ["name,"; "seqno,"; "cid,"; "desc,"; "coll,"; "key"].

(** Stable sorting by an integer key. *)
Fixpoint insert (k : IndexColumn.t -> Z) (x : IndexColumn.t) (l : list IndexColumn.t)
    : list IndexColumn.t :=
  match l with
  | [] => [x]
  | y :: l' => if k x <=? k y then x :: l else y :: insert k x l'
  end.

Definition sort (k : IndexColumn.t -> Z) (l : list IndexColumn.t) : list IndexColumn.t :=
  fold_right (insert k) [] l.

(** The answer to a query, [index_xinfo] giving the rows of the function
    for the values bound. *)
Definition select_index_xinfo (index_xinfo : list any -> list IndexColumn.t) (q : Query)
    : list IndexColumn.t * option error :=
  let refused := ([], Some (errors_New "SQL logic error")) in
  match words (text q) with
  | select :: rest =>
    match cut "FROM" rest with
    | Some (cols, rest) =>
      match cut "WHERE" rest with
      | Some (from, rest) =>
        match cut "ORDER" rest with
        | Some (cond, [BY; ord]) =>
          match bindings from, condition cond, operand ord with
          | Some n, Some holds, Some k =>
            if String.eqb select "SELECT" && same_words cols columns
               && String.eqb BY "BY" && (length (params q) =? n)%nat
            then (sort k (List.filter holds (index_xinfo (params q))), None)
            else refused
          | _, _, _ => refused
          end
        | _ => refused
        end
      | None => refused
      end
    | None => refused
    end
  | [] => refused
  end.

End sqlite.

(** The log [log] holds one query, [q], which binds the values [bound] and
    holds in its text one placeholder per value: [length bound] of them. *)
Definition issues_balanced (log : list Query) (q : Query) (bound : list any) : Prop :=
  log = [q] /\ params q = bound /\ balanced q
  /\ count_byte qmark (text q) = length bound.

(** * Inputs for the examples *)

(** ** A stand-in engine

    An executor that answers the queries of the package from a description
    of the database, the way SQLite does: the count query by the attached
    names whose LOWER is the parameter, the index-column query by reading
    its text against the rows of the index. *)
Module Engine.

Record database := {
  attached : list string;
  names : list string;
  columns : list Column.t;
  fk_rows : list fkRow.t;
  idx_rows : list idxRow.t;
  xinfo : list IndexColumn.t
}.

Definition count_attached (d : database) (q : Query) : Z * option error :=
  match params q with
  | [VString arg] =>
    (Z.of_nat (length (filter (fun n => ascii_fold n = arg) (attached d))), None)
  | _ => (0, Some (errors_New "wrong number of bindings"))
  end.

Definition executor : Executor database := {|
  QueryRow_Scan := fun q d => (count_attached d q, d);
  queryStrings := fun q d => ((names d, None), d);
  queryRows_Column := fun q d => ((columns d, None), d);
  queryRows_fkRow := fun q d => ((fk_rows d, None), d);
  queryRows_idxRow := fun q d => ((idx_rows d, None), d);
  queryRows_IndexColumn := fun q d =>
    (sqlite.select_index_xinfo (fun _ => xinfo d) q, d)
|}.

Definition text_column (s : string) : sql.NullString :=
  {| sql.String := s; sql.Valid := true |}.

Definition null_column : sql.NullString :=
  {| sql.String := EmptyString; sql.Valid := false |}.

Definition fk_row (id : Z) (table from : string) (to : sql.NullString) : fkRow.t :=
  {| fkRow.ID := id; fkRow.Table := table; fkRow.From := from; fkRow.To := to;
     fkRow.OnUpdate := ForeignKeyActionNone; fkRow.OnDelete := ForeignKeyActionCascade |}.

Definition idx_row (name : string) (type : IndexType) (column : sql.NullString) : idxRow.t :=
  {| idxRow.Name := name; idxRow.Type_ := type; idxRow.Unique := true;
     idxRow.Partial := false; idxRow.ColumnName := column |}.

Definition index_column (name : string) (rank tableRank : Z) (key : bool) : IndexColumn.t :=
  {| IndexColumn.Name := text_column name; IndexColumn.Rank := rank;
     IndexColumn.TableRank := tableRank; IndexColumn.Descending := false;
     IndexColumn.Collation := "BINARY"; IndexColumn.IsKey := key |}.

Definition key_columns : list IndexColumn.t :=
  [ index_column "a" 0 1 true; index_column "b" 1 0 true ].

Definition aux_columns : list IndexColumn.t :=
  [ {| IndexColumn.Name := null_column; IndexColumn.Rank := 2;
       IndexColumn.TableRank := TableRankRowID; IndexColumn.Descending := false;
       IndexColumn.Collation := "BINARY"; IndexColumn.IsKey := false |} ].

(** A database with one table: two foreign keys, the first over two
    columns, and two indexes. *)
Definition sample : database := {|
  attached := ["main"; "temp"];
  names := ["t"];
  columns := [];
  fk_rows := [ fk_row 0 "p" "a" (text_column "x");
               fk_row 0 "p" "b" (text_column "y");
               fk_row 1 "q" "c" null_column ];
  idx_rows := [ idx_row "t_ab" IndexTypeNormal (text_column "a");
                idx_row "t_ab" IndexTypeNormal (text_column "b");
                idx_row "sqlite_autoindex_t_1" IndexTypePrimaryKey (text_column "c") ];
  xinfo := key_columns ++ aux_columns
|}.

(** A database with nothing in it. *)
Definition empty : database := {|
  attached := ["main"; "temp"];
  names := [];
  columns := [];
  fk_rows := [];
  idx_rows := [];
  xinfo := []
|}.

(** A database whose index rows come out of rank order. *)
Definition shuffled : database := {|
  attached := ["main"; "temp"];
  names := ["t"];
  columns := [];
  fk_rows := [];
  idx_rows := [];
  xinfo := aux_columns ++ reverse key_columns
|}.

(** U+FFFD, the replacement character, in UTF-8. *)
Definition replacement : string :=
  String "239"%char (String "191"%char (String "189"%char EmptyString)).

(** A connection with a database attached under the name X followed by
    U+FFFD. *)
Definition odd_attachment : database := {|
  attached := ["main"; "temp"; "X" +:+ replacement];
  names := [];
  columns := [];
  fk_rows := [];
  idx_rows := [];
  xinfo := []
|}.

End Engine.

(** The name X followed by the byte 0xFF, which is not well-formed UTF-8. *)
Definition ill_formed_name : string := "X" +:+ String "255"%char EmptyString.

(** The words cascade and pk written with the long s (U+017F) for s and
    the Kelvin sign (U+212A) for k, as the bytes of their UTF-8 encodings. *)
Definition cascade_long_s : string :=
  "ca" +:+ String "197"%char (String "191"%char "cade").

Definition pk_kelvin : string :=
  "p" +:+ String "226"%char (String "132"%char (String "170"%char EmptyString)).


(** What [ForeignKeys] and [Indexes] return on the sample database. *)
Definition sample_foreign_keys : list ForeignKey.t :=
  [ {| ForeignKey.ID := 0;
       ForeignKey.ChildTable := "t";
       ForeignKey.ChildKey := ["a"; "b"];
       ForeignKey.ParentTable := "p";
       ForeignKey.ParentKey := [Engine.text_column "x"; Engine.text_column "y"];
       ForeignKey.OnUpdate := ForeignKeyActionNone;
       ForeignKey.OnDelete := ForeignKeyActionCascade |};
    {| ForeignKey.ID := 1;
       ForeignKey.ChildTable := "t";
       ForeignKey.ChildKey := ["c"];
       ForeignKey.ParentTable := "q";
       ForeignKey.ParentKey := [Engine.null_column];
       ForeignKey.OnUpdate := ForeignKeyActionNone;
       ForeignKey.OnDelete := ForeignKeyActionCascade |} ].

Definition sample_indexes : list Index.t :=
  [ {| Index.Name := "t_ab";
       Index.Type_ := IndexTypeNormal;
       Index.IsUnique := true;
       Index.IsPartial := false;
       Index.ColumnNames := [Engine.text_column "a"; Engine.text_column "b"] |};
    {| Index.Name := "sqlite_autoindex_t_1";
       Index.Type_ := IndexTypePrimaryKey;
       Index.IsUnique := true;
       Index.IsPartial := false;
       Index.ColumnNames := [Engine.text_column "c"] |} ].


(** An engine out of order: every answer carries the error [e], beside
    whatever rows the database holds. *)
Definition out_of_order (e : error) : Executor Engine.database := {|
  QueryRow_Scan := fun q d => ((0, Some e), d);
  queryStrings := fun q d => ((Engine.names d, Some e), d);
  queryRows_Column := fun q d => ((Engine.columns d, Some e), d);
  queryRows_fkRow := fun q d => ((Engine.fk_rows d, Some e), d);
  queryRows_idxRow := fun q d => ((Engine.idx_rows d, Some e), d);
  queryRows_IndexColumn := fun q d => ((Engine.xinfo d, Some e), d)
|}.

Definition locked : error := errors_New "database is locked".

(** * Facts about the Go library *)

(** ** Concatenation *)

Lemma string_app_cons c s t : String c s +:+ t = String c (s +:+ t).
Proof. reflexivity. Qed.

Lemma string_app_nil_r s : s +:+ EmptyString = s.
Proof. induction s as [|c s IH]; [done|]. by rewrite string_app_cons, IH. Qed.

Lemma string_app_assoc a b c : (a +:+ b) +:+ c = a +:+ (b +:+ c).
Proof. induction a as [|x a IH]; [done|]. by rewrite !string_app_cons, IH. Qed.


(** ** Bytes and bits *)

Lemma byteval_range c : 0 <= byteval c < 256.
Proof. unfold byteval. pose proof (N_ascii_bounded c). lia. Qed.

Lemma byteval_tobyte z : byteval (tobyte z) = z mod 256.
Proof.
  unfold byteval, tobyte. pose proof (Z.mod_pos_bound z 256 eq_refl).
  rewrite N_ascii_embedding by lia. lia.
Qed.

Lemma tobyte_byteval c : tobyte (byteval c) = c.
Proof.
  unfold tobyte. pose proof (byteval_range c). rewrite Z.mod_small by lia.
  unfold byteval. by rewrite N2Z.id, ascii_N_embedding.
Qed.

Lemma lor_ge_l a b : 0 <= a -> 0 <= b -> 128 <= a -> 128 <= Z.lor a b.
Proof.
  intros Ha Hb H.
  assert (0 <= Z.lor a b) as Hnn by (by apply Z.lor_nonneg).
  destruct (Z.lt_ge_cases (Z.lor a b) (2 ^ 7)) as [Hlt|Hge]; [|exact Hge].
  exfalso.
  assert (0 < Z.lor a b) as Hpos.
  { destruct (Z.eq_dec (Z.lor a b) 0) as [E|]; [|lia].
    apply Z.lor_eq_0_iff in E. lia. }
  apply Z.log2_lt_pow2 in Hlt; [|exact Hpos].
  rewrite Z.log2_lor in Hlt by done.
  assert (7 <= Z.log2 a) by (apply Z.log2_le_pow2; lia).
  lia.
Qed.

Lemma lor_ge_r a b : 0 <= a -> 0 <= b -> 128 <= b -> 128 <= Z.lor a b.
Proof. intros. rewrite Z.lor_comm. by apply lor_ge_l. Qed.

Lemma land_maskx b : Z.land b utf8.maskx = b mod 64.
Proof. change utf8.maskx with (Z.ones 6). by rewrite Z.land_ones. Qed.

Lemma land_mask2 b : Z.land b utf8.mask2 = b mod 32.
Proof. change utf8.mask2 with (Z.ones 5). by rewrite Z.land_ones. Qed.

Lemma land_mask3 b : Z.land b utf8.mask3 = b mod 16.
Proof. change utf8.mask3 with (Z.ones 4). by rewrite Z.land_ones. Qed.

Lemma land_mask4 b : Z.land b utf8.mask4 = b mod 8.
Proof. change utf8.mask4 with (Z.ones 3). by rewrite Z.land_ones. Qed.

Lemma bit7_byte z : Z.testbit z 7 = true -> 128 <= byteval (tobyte z).
Proof.
  intros Hbit. rewrite byteval_tobyte.
  pose proof (Z.mod_pos_bound z 256 eq_refl) as Hr.
  destruct (Z.lt_ge_cases (z mod 256) 128) as [Hlt|]; [exfalso|done].
  change 256 with (2 ^ 8) in *.
  rewrite <- (Z.mod_pow2_bits_low z 8 7) in Hbit by lia.
  apply Z.testbit_true in Hbit; [|lia].
  rewrite Z.div_small in Hbit by (change (2 ^ 7) with 128; lia). done.
Qed.

(** ** Decoding *)

Lemma Decode_ascii c t :
  byteval c < 128 -> utf8.DecodeRuneInString (String c t) = (byteval c, 1%nat).
Proof.
  intros H. unfold utf8.DecodeRuneInString.
  destruct (Z.ltb_spec (byteval c) utf8.RuneSelf) as [_|Hge]; [done|].
  unfold utf8.RuneSelf in Hge. lia.
Qed.

Lemma Decode_width c t :
  (1 <= snd (utf8.DecodeRuneInString (String c t)) <= 4)%nat.
Proof.
  unfold utf8.DecodeRuneInString.
  repeat match goal with
         | |- context [if ?b then _ else _] => destruct b
         | |- context [match ?x with _ => _ end] => destruct x
         end; simpl; lia.
Qed.

Ltac euclid := Z.to_euclidean_division_equations; lia.

Lemma Decode_nonascii c t :
  128 <= byteval c -> 128 <= fst (utf8.DecodeRuneInString (String c t)).
Proof.
  intros H. unfold utf8.DecodeRuneInString.
  pose proof (byteval_range c) as Hc.
  destruct (Z.ltb_spec (byteval c) utf8.RuneSelf) as [Hlt|_];
    [unfold utf8.RuneSelf in Hlt; lia|].
  destruct (utf8.first (byteval c)) as [[[sz lo] hi]|] eqn:Hfirst;
    [|by (simpl; unfold utf8.RuneError)].
  destruct t as [|c1 t1]; [by (simpl; unfold utf8.RuneError)|].
  pose proof (byteval_range c1) as Hc1.
  assert (128 <= lo /\ hi <= 191 /\ 194 <= byteval c
          /\ (byteval c = 224 -> 160 <= lo)
          /\ (byteval c = 240 -> 144 <= lo)
          /\ (sz = 2%nat -> byteval c <= 223)
          /\ (sz = 3%nat -> 224 <= byteval c <= 239)
          /\ (sz = 4%nat -> 240 <= byteval c <= 244)
          /\ (2 <= sz <= 4)%nat) as Hf.
  { revert Hfirst. unfold utf8.first, utf8.locb, utf8.hicb.
    repeat match goal with
           | |- context [if ?a <? ?b then _ else _] => destruct (Z.ltb_spec a b)
           | |- context [if ?a <=? ?b then _ else _] => destruct (Z.leb_spec a b)
           | |- context [if ?a =? ?b then _ else _] => destruct (Z.eqb_spec a b)
           end; intros [= <- <- <-] || (intros [=]); lia. }
  destruct Hf as (Hlo & Hhi & Hs0 & HE0 & HF0 & Hsz2 & Hsz3 & Hsz4 & Hsz).
  destruct ((byteval c1 <? lo) || (hi <? byteval c1)) eqn:Hr1;
    [by (simpl; unfold utf8.RuneError)|].
  apply orb_false_elim in Hr1 as [Hr1 Hr1'].
  apply Z.ltb_ge in Hr1, Hr1'.
  destruct (Nat.leb_spec sz 2).
  { simpl. rewrite land_mask2, land_maskx, Z.shiftl_mul_pow2 by lia.
    apply lor_ge_l; [euclid|euclid|]. assert (byteval c <= 223) by (apply Hsz2; lia).
    euclid. }
  destruct t1 as [|c2 t2]; [by (simpl; unfold utf8.RuneError)|].
  pose proof (byteval_range c2) as Hc2.
  destruct (negb (utf8.cont (byteval c2))); [by (simpl; unfold utf8.RuneError)|].
  destruct (Nat.leb_spec sz 3).
  { simpl. rewrite land_mask3, !land_maskx, !Z.shiftl_mul_pow2 by lia.
    assert (224 <= byteval c <= 239) by (apply Hsz3; lia).
    apply lor_ge_l; [apply Z.lor_nonneg; split; euclid|euclid|].
    destruct (Z.eq_dec (byteval c) 224) as [E|Hne].
    - apply lor_ge_r; [euclid|euclid|]. specialize (HE0 E). euclid.
    - apply lor_ge_l; [euclid|euclid|]. euclid. }
  destruct t2 as [|c3 t3]; [by (simpl; unfold utf8.RuneError)|].
  pose proof (byteval_range c3) as Hc3.
  destruct (negb (utf8.cont (byteval c3))); [by (simpl; unfold utf8.RuneError)|].
  simpl. rewrite land_mask4, !land_maskx, !Z.shiftl_mul_pow2 by lia.
  assert (240 <= byteval c <= 244) by (apply Hsz4; lia).
  apply lor_ge_l; [repeat (apply Z.lor_nonneg; split); euclid|euclid|].
  apply lor_ge_l; [apply Z.lor_nonneg; split; euclid|euclid|].
  destruct (Z.eq_dec (byteval c) 240) as [E|Hne].
  - apply lor_ge_r; [euclid|euclid|]. specialize (HF0 E). euclid.
  - apply lor_ge_l; [euclid|euclid|]. euclid.
Qed.

Lemma length_string_drop n s :
  (String.length (string_drop n s) <= String.length s - n)%nat.
Proof.
  revert s. induction n as [|n IH]; intros s; simpl; [lia|].
  destruct s as [|c s]; simpl; [lia|]. apply IH.
Qed.

Lemma runes_from_fuel n m s :
  (String.length s <= n)%nat -> (String.length s <= m)%nat ->
  utf8.runes_from n s = utf8.runes_from m s.
Proof.
  revert m s. induction n as [|n IH]; intros m s Hn Hm.
  - destruct s; [|simpl in Hn; lia]. by destruct m.
  - destruct s as [|c t]; [by destruct m|].
    destruct m as [|m]; [simpl in Hm; lia|].
    cbn [utf8.runes_from].
    pose proof (Decode_width c t) as Hw.
    destruct (utf8.DecodeRuneInString (String c t)) as [r w]. simpl in Hw.
    f_equal.
    pose proof (length_string_drop w (String c t)) as Hd. simpl in Hd, Hn, Hm.
    apply IH; lia.
Qed.

Lemma runes_cons c t :
  utf8.runes (String c t) =
  fst (utf8.DecodeRuneInString (String c t))
    :: utf8.runes (string_drop (snd (utf8.DecodeRuneInString (String c t))) (String c t)).
Proof.
  unfold utf8.runes. cbn [String.length utf8.runes_from].
  pose proof (Decode_width c t) as Hw.
  destruct (utf8.DecodeRuneInString (String c t)) as [r w]. simpl in *.
  f_equal. apply runes_from_fuel; [|done].
  pose proof (length_string_drop w (String c t)) as Hd. simpl in Hd. lia.
Qed.

Lemma Map_cons f c t :
  strings.Map f (String c t) =
  let r := f (fst (utf8.DecodeRuneInString (String c t))) in
  let rest :=
    strings.Map f (string_drop (snd (utf8.DecodeRuneInString (String c t))) (String c t)) in
  if 0 <=? r then utf8.EncodeRune r +:+ rest else rest.
Proof. unfold strings.Map. by rewrite runes_cons. Qed.

Lemma Map_cons_ascii f c t :
  byteval c < 128 ->
  strings.Map f (String c t) =
  if 0 <=? f (byteval c) then utf8.EncodeRune (f (byteval c)) +:+ strings.Map f t
  else strings.Map f t.
Proof. intros H. by rewrite Map_cons, Decode_ascii. Qed.

(** ** Encoding *)

Lemma EncodeRune_ascii r :
  0 <= r < 128 -> utf8.EncodeRune r = String (tobyte r) EmptyString.
Proof.
  intros H. unfold utf8.EncodeRune.
  destruct (Z.leb_spec 0 r); [|lia]. destruct (Z.leb_spec r 0x7F); [done|lia].
Qed.

Lemma EncodeRune_high r :
  128 <= r ->
  exists c rest, utf8.EncodeRune r = String c rest /\ 128 <= byteval c.
Proof.
  intros H. unfold utf8.EncodeRune, utf8.encode3.
  destruct (Z.leb_spec r 0x7F); [lia|]. rewrite andb_false_r.
  repeat match goal with
         | |- context [if ?b then _ else _] => destruct b
         end;
    eexists _, _; (split; [reflexivity|]);
    apply bit7_byte; rewrite Z.lor_spec; reflexivity.
Qed.

(** ** Strings of ASCII bytes *)

Lemma only_app P s t : only P (s +:+ t) = only P s && only P t.
Proof. induction s as [|c s IH]; simpl; [done|]. by rewrite IH, andb_assoc. Qed.

(** When the image of [s] under [Map f] is made of bytes in [P], a set of
    ASCII values that [f] reaches from no rune above U+007F, [s] is made
    of ASCII bytes. *)
Lemma Map_only_ascii f P s :
  (forall b, P b = true -> b < 128) ->
  (forall r, 128 <= r -> 0 <= f r /\ P (f r) = false) ->
  only P (strings.Map f s) = true -> strings.isASCII s = true.
Proof.
  intros HP Hf.
  remember (String.length s) as n eqn:Hn.
  assert (String.length s <= n)%nat as Hle by lia. clear Hn.
  revert s Hle. induction n as [|n IH]; intros s Hle.
  - destruct s; [done|simpl in Hle; lia].
  - destruct s as [|c t]; [done|]. simpl in Hle.
    destruct (Z.lt_ge_cases (byteval c) 128) as [Hc|Hc].
    + rewrite Map_cons_ascii by done. simpl.
      destruct (Z.ltb_spec (byteval c) utf8.RuneSelf) as [_|Hge];
        [|unfold utf8.RuneSelf in Hge; lia].
      intros Hall. simpl. apply IH; [lia|].
      destruct (0 <=? f (byteval c)); [|done].
      rewrite only_app in Hall. by apply andb_true_iff in Hall as [_ ?].
    + rewrite Map_cons. cbv zeta.
      pose proof (Decode_nonascii c t Hc) as Hr.
      destruct (Hf _ Hr) as [Hnn HPr].
      destruct (Z.leb_spec 0 (f (fst (utf8.DecodeRuneInString (String c t))))); [|lia].
      rewrite only_app. intros Hall. apply andb_true_iff in Hall as [Hall _].
      exfalso.
      destruct (Z.lt_ge_cases (f (fst (utf8.DecodeRuneInString (String c t)))) 128)
        as [Hlow|Hhigh].
      * rewrite EncodeRune_ascii in Hall by lia. cbn [only] in Hall.
        rewrite byteval_tobyte in Hall. rewrite Z.mod_small in Hall by lia.
        by rewrite HPr in Hall.
      * destruct (EncodeRune_high _ Hhigh) as (c' & rest & E & Hc').
        rewrite E in Hall. cbn [only] in Hall. apply andb_true_iff in Hall as [Hall _].
        apply HP in Hall. lia.
Qed.


(** ** Well-formed UTF-8 *)

Lemma lor_disjoint a b n :
  0 <= n -> 0 <= b < 2 ^ n -> Z.lor (a * 2 ^ n) b = a * 2 ^ n + b.
Proof.
  intros Hn Hb.
  assert (Z.land (a * 2 ^ n) b = 0) as Hland.
  { apply Z.bits_inj'. intros i Hi. rewrite Z.land_spec, Z.bits_0.
    destruct (Z.lt_ge_cases i n) as [Hlt|Hge].
    - by rewrite Z.mul_pow2_bits_low.
    - rewrite <- (Z.mod_small b (2 ^ n)) by done.
      rewrite Z.mod_pow2_bits_high by lia. apply andb_false_r. }
  by rewrite Z.add_nocarry_lxor, Z.lxor_lor.
Qed.

Lemma lor_const k x n :
  0 <= n -> 0 <= x < 2 ^ n -> k mod 2 ^ n = 0 -> Z.lor k x = k + x.
Proof.
  intros Hn Hx Hk.
  assert (k = k / 2 ^ n * 2 ^ n) as E.
  { pose proof (Z.div_mod k (2 ^ n)). lia. }
  rewrite E at 1. rewrite lor_disjoint by done. lia.
Qed.

Lemma tobyte_eq c z : z = byteval c -> tobyte z = c.
Proof. intros ->. apply tobyte_byteval. Qed.

(** A well-formed sequence is the encoding of the rune it decodes to. *)
Lemma Encode_Decode c t :
  128 <= byteval c ->
  let '(r, w) := utf8.DecodeRuneInString (String c t) in
  ((r =? utf8.RuneError) && (w =? 1)%nat) = false ->
  utf8.EncodeRune r +:+ string_drop w (String c t) = String c t.
Proof.
  intros H. unfold utf8.DecodeRuneInString.
  pose proof (byteval_range c) as Hc.
  destruct (Z.ltb_spec (byteval c) utf8.RuneSelf) as [Hlt|_];
    [unfold utf8.RuneSelf in Hlt; lia|].
  destruct (utf8.first (byteval c)) as [[[sz lo] hi]|] eqn:Hfirst; [|done].
  destruct t as [|c1 t1]; [done|].
  pose proof (byteval_range c1) as Hc1.
  assert (128 <= lo /\ hi <= 191 /\ 194 <= byteval c
          /\ (byteval c = 224 -> 160 <= lo)
          /\ (byteval c = 237 -> hi <= 159)
          /\ (byteval c = 240 -> 144 <= lo)
          /\ (byteval c = 244 -> hi <= 143)
          /\ (sz = 2%nat -> byteval c <= 223)
          /\ (sz = 3%nat -> 224 <= byteval c <= 239)
          /\ (sz = 4%nat -> 240 <= byteval c <= 244)
          /\ (2 <= sz <= 4)%nat) as Hf.
  { revert Hfirst. unfold utf8.first, utf8.locb, utf8.hicb.
    repeat match goal with
           | |- context [if ?a <? ?b then _ else _] => destruct (Z.ltb_spec a b)
           | |- context [if ?a <=? ?b then _ else _] => destruct (Z.leb_spec a b)
           | |- context [if ?a =? ?b then _ else _] => destruct (Z.eqb_spec a b)
           end; intros [= <- <- <-] || (intros [=]); lia. }
  destruct Hf as (Hlo & Hhi & Hs0 & HE0 & HED & HF0 & HF4 & Hsz2 & Hsz3 & Hsz4 & Hsz).
  destruct ((byteval c1 <? lo) || (hi <? byteval c1)) eqn:Hr1; [done|].
  apply orb_false_elim in Hr1 as [Hr1 Hr1'].
  apply Z.ltb_ge in Hr1, Hr1'.
  destruct (Nat.leb_spec sz 2).
  { intros _. cbn [string_drop].
    assert (byteval c <= 223) by (apply Hsz2; lia).
    rewrite land_mask2, land_maskx, Z.shiftl_mul_pow2 by lia.
    rewrite lor_disjoint by euclid.
    set (r := byteval c mod 32 * 2 ^ 6 + byteval c1 mod 64).
    assert (r = (byteval c - 192) * 64 + (byteval c1 - 128)) as Hr by (subst r; euclid).
    unfold utf8.EncodeRune.
    destruct (Z.leb_spec r 0x7F); [lia|]. rewrite andb_false_r.
    destruct (Z.leb_spec 0 r); [|lia]. destruct (Z.leb_spec r 0x7FF); [|lia].
    simpl andb. cbv iota.
    rewrite land_maskx, Z.shiftr_div_pow2 by lia.
    rewrite (lor_const 0xC0 _ 6), (lor_const 0x80 _ 6) by (done || euclid).
    rewrite !string_app_cons.
    f_equal; [apply tobyte_eq; euclid|].
    f_equal. apply tobyte_eq; euclid. }
  destruct t1 as [|c2 t2]; [done|].
  pose proof (byteval_range c2) as Hc2.
  destruct (utf8.cont (byteval c2)) eqn:Hcont2; [|done]. simpl negb. cbv iota.
  unfold utf8.cont, utf8.locb, utf8.hicb in Hcont2.
  apply andb_true_iff in Hcont2 as [Hc2lo Hc2hi]. apply Z.leb_le in Hc2lo, Hc2hi.
  destruct (Nat.leb_spec sz 3).
  { intros _. cbn [string_drop].
    assert (224 <= byteval c <= 239) by (apply Hsz3; lia).
    rewrite land_mask3, !land_maskx, !Z.shiftl_mul_pow2 by lia.
    rewrite (lor_disjoint (byteval c mod 16) _ 12) by euclid.
    rewrite (lor_const _ (byteval c2 mod 64) 6) by euclid.
    set (r := byteval c mod 16 * 2 ^ 12 + byteval c1 mod 64 * 2 ^ 6 + byteval c2 mod 64).
    assert (r = (byteval c - 224) * 4096 + (byteval c1 - 128) * 64 + (byteval c2 - 128))
      as Hr by (subst r; euclid).
    assert (byteval c = 224 -> 160 <= byteval c1) as HE0' by lia.
    assert (byteval c = 237 -> byteval c1 <= 159) as HED' by lia.
    assert (0x800 <= r <= 0xFFFF /\ (r < 0xD800 \/ 0xDFFF < r)) as [Hrange Hsur] by lia.
    unfold utf8.EncodeRune, utf8.encode3, utf8.MaxRune, utf8.surrogateMin,
      utf8.surrogateMax.
    destruct (Z.leb_spec r 0x7F); [lia|]. rewrite andb_false_r.
    destruct (Z.leb_spec r 0x7FF); [lia|]. rewrite andb_false_r.
    destruct (Z.ltb_spec r 0); [lia|]. destruct (Z.ltb_spec 0x10FFFF r); [lia|].
    assert ((0xD800 <=? r) && (r <=? 0xDFFF) = false) as ->.
    { apply andb_false_iff. destruct Hsur; [left; apply Z.leb_gt|right; apply Z.leb_gt]; lia. }
    simpl orb. cbv iota.
    destruct (Z.leb_spec r 0xFFFF); [|lia].
    rewrite !land_maskx, !Z.shiftr_div_pow2 by lia.
    rewrite (lor_const 0xE0 _ 4), !(lor_const 0x80 _ 6) by (done || euclid).
    rewrite !string_app_cons.
    f_equal; [apply tobyte_eq; euclid|].
    f_equal; [apply tobyte_eq; euclid|].
    f_equal. apply tobyte_eq; euclid. }
  destruct t2 as [|c3 t3]; [done|].
  pose proof (byteval_range c3) as Hc3.
  destruct (utf8.cont (byteval c3)) eqn:Hcont3; [|done]. simpl negb. cbv iota.
  unfold utf8.cont, utf8.locb, utf8.hicb in Hcont3.
  apply andb_true_iff in Hcont3 as [Hc3lo Hc3hi]. apply Z.leb_le in Hc3lo, Hc3hi.
  intros _. cbn [string_drop].
  assert (240 <= byteval c <= 244) by (apply Hsz4; lia).
  rewrite land_mask4, !land_maskx, !Z.shiftl_mul_pow2 by lia.
  rewrite (lor_disjoint (byteval c mod 8) _ 18) by euclid.
  rewrite (lor_const _ (byteval c2 mod 64 * 2 ^ 6) 12) by euclid.
  rewrite (lor_const _ (byteval c3 mod 64) 6) by euclid.
  set (r := byteval c mod 8 * 2 ^ 18 + byteval c1 mod 64 * 2 ^ 12
            + byteval c2 mod 64 * 2 ^ 6 + byteval c3 mod 64).
  assert (r = (byteval c - 240) * 262144 + (byteval c1 - 128) * 4096
              + (byteval c2 - 128) * 64 + (byteval c3 - 128))
    as Hr by (subst r; euclid).
  assert (byteval c = 240 -> 144 <= byteval c1) as HF0' by lia.
  assert (byteval c = 244 -> byteval c1 <= 143) as HF4' by lia.
  assert (0x10000 <= r <= 0x10FFFF) as Hrange by lia.
  unfold utf8.EncodeRune, utf8.MaxRune, utf8.surrogateMin, utf8.surrogateMax.
  destruct (Z.leb_spec r 0x7F); [lia|]. rewrite andb_false_r.
  destruct (Z.leb_spec r 0x7FF); [lia|]. rewrite andb_false_r.
  destruct (Z.ltb_spec r 0); [lia|]. destruct (Z.ltb_spec 0x10FFFF r); [lia|].
  destruct (Z.leb_spec r 0xDFFF); [lia|]. rewrite andb_false_r.
  simpl orb. cbv iota.
  destruct (Z.leb_spec r 0xFFFF); [lia|].
  rewrite !land_maskx, !Z.shiftr_div_pow2 by lia.
  rewrite (lor_const 0xF0 _ 3), !(lor_const 0x80 _ 6) by (done || euclid).
  rewrite !string_app_cons.
  f_equal; [apply tobyte_eq; euclid|].
  f_equal; [apply tobyte_eq; euclid|].
  f_equal; [apply tobyte_eq; euclid|].
  f_equal. apply tobyte_eq; euclid.
Qed.

Lemma EncodeRune_high_all r :
  128 <= r -> only (fun b => 128 <=? b) (utf8.EncodeRune r) = true.
Proof.
  intros H. unfold utf8.EncodeRune, utf8.encode3.
  destruct (Z.leb_spec r 0x7F); [lia|]. rewrite andb_false_r.
  repeat match goal with
         | |- context [if ?b then _ else _] => destruct b
         end;
    cbn [only]; rewrite ?andb_true_r, ?andb_true_iff; repeat split;
    apply Z.leb_le, bit7_byte; rewrite Z.lor_spec; reflexivity.
Qed.

Lemma ascii_fold_high s :
  only (fun b => 128 <=? b) s = true -> ascii_fold s = s.
Proof.
  unfold ascii_fold. induction s as [|c s IH]; [done|].
  cbn [only strings.map_bytes]. intros Hs.
  apply andb_true_iff in Hs as [Hc Hs]. apply Z.leb_le in Hc.
  rewrite IH by done. f_equal. unfold strings.lower_byte.
  destruct (Z.leb_spec (byteval c) 90); [lia|]. by rewrite andb_false_r.
Qed.

Lemma ascii_fold_app s t : ascii_fold (s +:+ t) = ascii_fold s +:+ ascii_fold t.
Proof.
  unfold ascii_fold. induction s as [|c s IH]; [done|].
  rewrite string_app_cons. cbn [strings.map_bytes]. by rewrite IH, string_app_cons.
Qed.

Lemma valid_from_fuel n m s :
  (String.length s <= n)%nat -> (String.length s <= m)%nat ->
  utf8.valid_from n s = utf8.valid_from m s.
Proof.
  revert m s. induction n as [|n IH]; intros m s Hn Hm.
  - destruct s; [|simpl in Hn; lia]. by destruct m.
  - destruct s as [|c t]; [by destruct m|].
    destruct m as [|m]; [simpl in Hm; lia|].
    cbn [utf8.valid_from].
    pose proof (Decode_width c t) as Hw.
    destruct (utf8.DecodeRuneInString (String c t)) as [r w]. simpl in Hw.
    f_equal.
    pose proof (length_string_drop w (String c t)) as Hd. simpl in Hd, Hn, Hm.
    apply IH; lia.
Qed.

Lemma ValidString_cons c t :
  utf8.ValidString (String c t) =
  let '(r, w) := utf8.DecodeRuneInString (String c t) in
  negb ((r =? utf8.RuneError) && (w =? 1)%nat)
  && utf8.ValidString (string_drop w (String c t)).
Proof.
  unfold utf8.ValidString. cbn [String.length utf8.valid_from].
  pose proof (Decode_width c t) as Hw.
  destruct (utf8.DecodeRuneInString (String c t)) as [r w]. simpl in Hw.
  f_equal. apply valid_from_fuel; [|done].
  pose proof (length_string_drop w (String c t)) as Hd. simpl in Hd. lia.
Qed.

(** On well-formed UTF-8, [sqlower] is the LOWER of SQLite. *)
Lemma sqlower_valid s : utf8.ValidString s = true -> sqlower s = ascii_fold s.
Proof.
  remember (String.length s) as n eqn:Hn.
  assert (String.length s <= n)%nat as Hle by lia. clear Hn.
  revert s Hle. induction n as [|n IH]; intros s Hle Hvalid.
  - destruct s; [done|simpl in Hle; lia].
  - destruct s as [|c t]; [done|]. simpl in Hle.
    rewrite ValidString_cons in Hvalid.
    pose proof (Decode_width c t) as Hw.
    pose proof (byteval_range c) as Hr.
    destruct (Z.lt_ge_cases (byteval c) 128) as [Hc|Hc].
    + rewrite Decode_ascii in Hvalid by done. cbn [string_drop] in Hvalid.
      apply andb_true_iff in Hvalid as [_ Hvalid].
      unfold sqlower. rewrite Map_cons_ascii by done.
      fold (sqlower t). rewrite IH by (done || lia).
      change (ascii_fold (String c t))
        with (String (strings.lower_byte c) (ascii_fold t)).
      unfold strings.lower_byte.
      destruct ((65 <=? byteval c) && (byteval c <=? 90)) eqn:E.
      * apply andb_true_iff in E as [E1 E2]. apply Z.leb_le in E1, E2.
        destruct (Z.leb_spec 0 (97 + byteval c - 65)); [|lia].
        rewrite EncodeRune_ascii by lia.
        change (String ?x EmptyString +:+ ?y) with (String x y).
        by replace (97 + byteval c - 65) with (byteval c + 32) by lia.
      * destruct (Z.leb_spec 0 (byteval c)); [|lia].
        rewrite EncodeRune_ascii by lia.
        change (String ?x EmptyString +:+ ?y) with (String x y).
        by rewrite tobyte_byteval.
    + pose proof (Encode_Decode c t Hc) as Hround.
      pose proof (Decode_nonascii c t Hc) as Hhigh.
      unfold sqlower. rewrite Map_cons. cbv zeta.
      destruct (utf8.DecodeRuneInString (String c t)) as [r w].
      cbn [fst snd] in *.
      apply andb_true_iff in Hvalid as [Hok Hvalid].
      apply negb_true_iff in Hok. specialize (Hround Hok).
      destruct (Z.leb_spec r 90); [lia|]. rewrite andb_false_r.
      destruct (Z.leb_spec 0 r); [|lia].
      fold (sqlower (string_drop w (String c t))).
      pose proof (length_string_drop w (String c t)) as Hd. simpl in Hd.
      rewrite IH by (done || lia).
      rewrite <- Hround at 2.
      by rewrite ascii_fold_app, (ascii_fold_high _ (EncodeRune_high_all r Hhigh)).
Qed.

Lemma ValidString_ascii s : strings.isASCII s = true -> utf8.ValidString s = true.
Proof.
  induction s as [|c t IH]; [done|].
  cbn [strings.isASCII]. intros H. apply andb_true_iff in H as [Hc Ht].
  apply Z.ltb_lt in Hc. unfold utf8.RuneSelf in Hc.
  rewrite ValidString_cons, Decode_ascii by done. cbn [string_drop].
  rewrite IH by done.
  destruct (Z.eqb_spec (byteval c) utf8.RuneError) as [E|_]; [|done].
  unfold utf8.RuneError in E. lia.
Qed.

Lemma sqlower_ascii s : strings.isASCII s = true -> sqlower s = ascii_fold s.
Proof. intros H. by apply sqlower_valid, ValidString_ascii. Qed.


(** * The decoders of the two enumerations *)


Ltac each_byte c := destruct c as [[] [] [] [] [] [] [] []].

Lemma lower_upper_byte c :
  strings.lower_byte (strings.upper_byte c) = strings.lower_byte c.
Proof. each_byte c; reflexivity. Qed.

Lemma upper_lower_byte c :
  strings.upper_byte (strings.lower_byte c) = strings.upper_byte c.
Proof. each_byte c; reflexivity. Qed.

Lemma lower_byte_ascii c :
  (byteval (strings.lower_byte c) <? utf8.RuneSelf) = (byteval c <? utf8.RuneSelf).
Proof. each_byte c; reflexivity. Qed.

Lemma upper_byte_ascii c :
  (byteval (strings.upper_byte c) <? utf8.RuneSelf) = (byteval c <? utf8.RuneSelf).
Proof. each_byte c; reflexivity. Qed.

Lemma map_bytes_compose f g s :
  strings.map_bytes f (strings.map_bytes g s) = strings.map_bytes (fun c => f (g c)) s.
Proof. induction s as [|c s IH]; simpl; [done|]. by rewrite IH. Qed.

Lemma map_bytes_ext f g s :
  (forall c, f c = g c) -> strings.map_bytes f s = strings.map_bytes g s.
Proof. intros E. induction s as [|c s IH]; simpl; [done|]. by rewrite E, IH. Qed.

Lemma lower_upper s :
  ascii_fold (strings.map_bytes strings.upper_byte s) = ascii_fold s.
Proof. unfold ascii_fold. rewrite map_bytes_compose. apply map_bytes_ext, lower_upper_byte. Qed.

Lemma upper_lower s :
  strings.map_bytes strings.upper_byte (ascii_fold s) = strings.map_bytes strings.upper_byte s.
Proof. unfold ascii_fold. rewrite map_bytes_compose. apply map_bytes_ext, upper_lower_byte. Qed.

Lemma ascii_fold_idemp s : ascii_fold (ascii_fold s) = ascii_fold s.
Proof.
  unfold ascii_fold. rewrite map_bytes_compose. apply map_bytes_ext.
  intros c. each_byte c; reflexivity.
Qed.

Lemma isASCII_fold s : strings.isASCII (ascii_fold s) = strings.isASCII s.
Proof.
  unfold ascii_fold. induction s as [|c s IH]; simpl; [done|].
  by rewrite lower_byte_ascii, IH.
Qed.

Lemma isASCII_eqfold s t : ascii_eqfold s t -> strings.isASCII s = strings.isASCII t.
Proof.
  unfold ascii_eqfold. intros E.
  rewrite <- (isASCII_fold s), <- (isASCII_fold t). by rewrite E.
Qed.

Section Scan.
Variable CaseRanges : list unicode.CaseRange.

Lemma ToUpper_ascii s :
  strings.isASCII s = true ->
  strings.ToUpper CaseRanges s = strings.map_bytes strings.upper_byte s.
Proof. unfold strings.ToUpper. by intros ->. Qed.

Lemma ToLower_ascii s :
  strings.isASCII s = true -> strings.ToLower CaseRanges s = ascii_fold s.
Proof. unfold strings.ToLower. by intros ->. Qed.

(** A content that matches an upper-case ASCII literal under ASCII folding
    is upper-cased to the literal. *)
Lemma ToUpper_eqfold s lit :
  strings.isASCII lit = true ->
  strings.map_bytes strings.upper_byte lit = lit ->
  ascii_eqfold s lit -> strings.ToUpper CaseRanges s = lit.
Proof.
  intros Hlit Hup E. rewrite ToUpper_ascii by (by rewrite (isASCII_eqfold _ _ E)).
  by rewrite <- upper_lower, E, upper_lower.
Qed.

Lemma ToLower_eqfold s lit :
  strings.isASCII lit = true ->
  ascii_fold lit = lit ->
  ascii_eqfold s lit -> strings.ToLower CaseRanges s = lit.
Proof.
  intros Hlit Hlow E. rewrite ToLower_ascii by (by rewrite (isASCII_eqfold _ _ E)).
  by rewrite E.
Qed.

(** The two decoders as a look-up of the folded content among the
    literals. *)
Lemma ForeignKeyAction_Scan_eq v src :
  ForeignKeyAction_Scan CaseRanges v src =
  match text_of src with
  | None => (v, Some (Errorf "invalid ForeignKeyAction: %T %v" [src; src]))
  | Some s =>
    match literal_value ForeignKeyAction_literals (strings.ToUpper CaseRanges s) with
    | Some a => (a, None)
    | None => (v, Some (Errorf "unsupported ForeignKeyAction: %q" [VString s]))
    end
  end.
Proof.
  unfold ForeignKeyAction_Scan.
  destruct src; simpl; try done;
    repeat match goal with |- context [String.eqb ?a ?b] => destruct (String.eqb a b) end;
    done.
Qed.

Lemma IndexType_Scan_eq t src :
  IndexType_Scan CaseRanges t src =
  match text_of src with
  | None => (t, Some (Errorf "invalid IndexType: %T %v" [src; src]))
  | Some s =>
    match literal_value IndexType_literals (strings.ToLower CaseRanges s) with
    | Some a => (a, None)
    | None => (t, Some (Errorf "unsupported IndexType: %q" [VString s]))
    end
  end.
Proof.
  unfold IndexType_Scan.
  destruct src; simpl; try done;
    repeat match goal with |- context [String.eqb ?a ?b] => destruct (String.eqb a b) end;
    done.
Qed.

Lemma literal_value_Some literals s a :
  literal_value literals s = Some a -> (s, a) ∈ literals.
Proof.
  induction literals as [|[lit v] rest IH]; simpl; [done|].
  destruct (String.eqb_spec s lit) as [->|Hne].
  - intros [= ->]. apply list_elem_of_here.
  - intros H. apply list_elem_of_further. by apply IH.
Qed.

(** C8. A call of [Scan] that returns an error, for a source of an
    unsupported type or for a literal that is not recognised, leaves the
    value its receiver points at as it was. *)
Theorem failed_scan_keeps_receiver (v : ForeignKeyAction) (t : IndexType) (src : any) :
  (snd (ForeignKeyAction_Scan CaseRanges v src) <> None ->
   fst (ForeignKeyAction_Scan CaseRanges v src) = v)
  /\ (snd (IndexType_Scan CaseRanges t src) <> None ->
   fst (IndexType_Scan CaseRanges t src) = t).
Proof.
  rewrite ForeignKeyAction_Scan_eq, IndexType_Scan_eq.
  destruct (text_of src) as [s|]; [|done].
  destruct (literal_value ForeignKeyAction_literals _);
    destruct (literal_value IndexType_literals _); done.
Qed.


Lemma elem_of_ForeignKeyAction_literals lit a :
  (lit, a) ∈ ForeignKeyAction_literals ->
  strings.isASCII lit = true
  /\ strings.map_bytes strings.upper_byte lit = lit
  /\ literal_value ForeignKeyAction_literals lit = Some a.
Proof.
  unfold ForeignKeyAction_literals. rewrite !elem_of_cons, elem_of_nil.
  intros [E|[E|[E|[E|[E|[]]]]]]; injection E as -> ->; done.
Qed.

Lemma elem_of_IndexType_literals lit a :
  (lit, a) ∈ IndexType_literals ->
  strings.isASCII lit = true
  /\ ascii_fold lit = lit
  /\ literal_value IndexType_literals lit = Some a.
Proof.
  unfold IndexType_literals. rewrite !elem_of_cons, elem_of_nil.
  intros [E|[E|[E|[]]]]; injection E as -> ->; done.
Qed.

(** C3, as amended. [Scan] of either enumeration succeeds exactly when the
    source is a string or a byte slice whose content, upper-cased by
    strings.ToUpper (foreign-key actions) or lower-cased by strings.ToLower
    (index types), is one of the recognised literals, and it then assigns
    the value of that literal. Every content that matches a literal under
    ASCII-only case folding is therefore accepted, and among the contents
    made of ASCII bytes nothing else is. A string or byte content that is
    no literal fails with the unsupported error on its text, and a source
    of any other type fails with the invalid error on the source, under
    the verbs for its type and value. *)
Theorem scan_decodes_folded_literals (v : ForeignKeyAction) (t : IndexType) (src : any) :
  match text_of src with
  | Some s =>
    (* foreign-key actions: the content is upper-cased by strings.ToUpper *)
    (forall a,
       literal_value ForeignKeyAction_literals (strings.ToUpper CaseRanges s) = Some a ->
       ForeignKeyAction_Scan CaseRanges v src = (a, None))
    /\ (literal_value ForeignKeyAction_literals (strings.ToUpper CaseRanges s) = None ->
        ForeignKeyAction_Scan CaseRanges v src
        = (v, Some (Errorf "unsupported ForeignKeyAction: %q" [VString s])))
    /\ (forall lit a,
          (lit, a) ∈ ForeignKeyAction_literals -> ascii_eqfold s lit ->
          ForeignKeyAction_Scan CaseRanges v src = (a, None))
    /\ (strings.isASCII s = true ->
        snd (ForeignKeyAction_Scan CaseRanges v src) = None ->
        exists lit, (lit, fst (ForeignKeyAction_Scan CaseRanges v src))
                      ∈ ForeignKeyAction_literals
                    /\ ascii_eqfold s lit)
    (* index types: the content is lower-cased by strings.ToLower *)
    /\ (forall a,
          literal_value IndexType_literals (strings.ToLower CaseRanges s) = Some a ->
          IndexType_Scan CaseRanges t src = (a, None))
    /\ (literal_value IndexType_literals (strings.ToLower CaseRanges s) = None ->
        IndexType_Scan CaseRanges t src
        = (t, Some (Errorf "unsupported IndexType: %q" [VString s])))
    /\ (forall lit a,
          (lit, a) ∈ IndexType_literals -> ascii_eqfold s lit ->
          IndexType_Scan CaseRanges t src = (a, None))
    /\ (strings.isASCII s = true ->
        snd (IndexType_Scan CaseRanges t src) = None ->
        exists lit, (lit, fst (IndexType_Scan CaseRanges t src)) ∈ IndexType_literals
                    /\ ascii_eqfold s lit)
  | None =>
    ForeignKeyAction_Scan CaseRanges v src
    = (v, Some (Errorf "invalid ForeignKeyAction: %T %v" [src; src]))
    /\ IndexType_Scan CaseRanges t src
       = (t, Some (Errorf "invalid IndexType: %T %v" [src; src]))
  end.
Proof.
  rewrite ForeignKeyAction_Scan_eq, IndexType_Scan_eq.
  destruct (text_of src) as [s|]; [|done].
  repeat split.
  - by intros a ->.
  - by intros ->.
  - intros lit a Hin E.
    destruct (elem_of_ForeignKeyAction_literals _ _ Hin) as (Hascii & Hup & Hval).
    by rewrite (ToUpper_eqfold s lit Hascii Hup E), Hval.
  - intros Hascii.
    destruct (literal_value _ _) as [a|] eqn:E; [|done]. intros _. simpl.
    exists (strings.ToUpper CaseRanges s). split; [by apply literal_value_Some|].
    rewrite ToUpper_ascii by done. unfold ascii_eqfold. by rewrite lower_upper.
  - by intros a ->.
  - by intros ->.
  - intros lit a Hin E.
    destruct (elem_of_IndexType_literals _ _ Hin) as (Hascii & Hlow & Hval).
    by rewrite (ToLower_eqfold s lit Hascii Hlow E), Hval.
  - intros Hascii.
    destruct (literal_value IndexType_literals _) as [a|] eqn:E; [|done]. intros _. simpl.
    exists (strings.ToLower CaseRanges s). split; [by apply literal_value_Some|].
    rewrite ToLower_ascii by done. unfold ascii_eqfold. by rewrite ascii_fold_idemp.
Qed.

End Scan.

(** C3 as stated fails: the folding is not ASCII-only. The long s is
    upper-cased to S and the Kelvin sign is lower-cased to k, so both
    contents decode, though neither matches a literal under ASCII-only
    case folding. *)
Lemma scan_folds_beyond_ascii :
  ForeignKeyAction_Scan unicode.CaseRanges_excerpt ForeignKeyActionNone
      (VString cascade_long_s)
    = (ForeignKeyActionCascade, None)
  /\ Forall (fun lit => ~ ascii_eqfold cascade_long_s (fst lit)) ForeignKeyAction_literals
  /\ IndexType_Scan unicode.CaseRanges_excerpt IndexTypeNormal (VBytes pk_kelvin)
    = (IndexTypePrimaryKey, None)
  /\ Forall (fun lit => ~ ascii_eqfold pk_kelvin (fst lit)) IndexType_literals.
Proof.
  split; [reflexivity|]. split; [repeat constructor; discriminate|].
  split; [reflexivity|]. repeat constructor; discriminate.
Qed.

(** * The single pass over sorted rows *)

Section RunsFacts.
Context {Row K : Type} `{EqDecision K}.
Variable key : Row -> K.

Lemma runs_nil_inv rows : runs key rows = [] -> rows = [].
Proof.
  destruct rows as [|r rest]; [done|]. simpl.
  destruct (runs key rest) as [|[r' run] more]; [done|]. by case_decide.
Qed.

Lemma runs_concat rows : concat (map run_rows (runs key rows)) = rows.
Proof.
  induction rows as [|r rest IH]; [done|]. simpl.
  destruct (runs key rest) as [|[r' run] more] eqn:E.
  - apply runs_nil_inv in E. by subst.
  - case_decide; simpl in *; by rewrite <- IH.
Qed.

Lemma runs_homogeneous rows :
  Forall (fun run => Forall (fun x => key x = key (fst run)) (snd run)) (runs key rows).
Proof.
  induction rows as [|r rest IH]; simpl; [constructor|].
  destruct (runs key rest) as [|[r' run] more].
  - repeat constructor.
  - inversion IH as [|? ? Hrun Hmore]; subst; simpl in *.
    case_decide.
    + constructor; [|done]. simpl. constructor; [done|].
      eapply Forall_impl; [exact Hrun|]. simpl. congruence.
    + constructor; [constructor|]. by constructor.
Qed.

Lemma runs_heads_differ rows : heads_differ key (runs key rows).
Proof.
  induction rows as [|r rest IH]; simpl; [done|].
  destruct (runs key rest) as [|[r' run] more]; [done|].
  case_decide.
  - simpl in *. destruct more as [|b more']; [done|].
    destruct IH as [Hne IH]. split; [|done]. simpl in *. congruence.
  - simpl. split; done.
Qed.

Lemma runs_maximal rows : maximal_runs key rows (runs key rows).
Proof.
  split; [apply runs_concat|split; [apply runs_homogeneous|apply runs_heads_differ]].
Qed.

Lemma run_in_rows rows run :
  run ∈ runs key rows -> exists pre post, rows = pre ++ run_rows run ++ post.
Proof.
  intros Hin. apply list_elem_of_split in Hin as (l1 & l2 & E).
  exists (concat (map run_rows l1)), (concat (map run_rows l2)).
  rewrite <- (runs_concat rows) at 1. rewrite E, map_app, concat_app. done.
Qed.

Lemma snoc_run_cons x y rs r :
  snoc_run key (x :: y :: rs) r = x :: snoc_run key (y :: rs) r.
Proof. by destruct x. Qed.

Lemma snoc_run_app init x r :
  snoc_run key (init ++ [x]) r = init ++ snoc_run key [x] r.
Proof.
  induction init as [|a init IH]; [done|].
  destruct init as [|b init]; simpl app in *.
  - by rewrite snoc_run_cons.
  - by rewrite snoc_run_cons, IH.
Qed.

Lemma runs_snoc rows r : runs key (rows ++ [r]) = snoc_run key (runs key rows) r.
Proof.
  induction rows as [|a rows IH]; [done|].
  simpl. rewrite IH.
  destruct (runs key rows) as [|[h tl] [|y more]] eqn:E.
  - simpl. by case_decide.
  - simpl. repeat case_decide; simpl; repeat case_decide; congruence.
  - rewrite snoc_run_cons. case_decide; by rewrite snoc_run_cons.
Qed.

Section FoldFacts.
Context {Rec : Type}.
Variables (keyR : Rec -> K) (new : Row -> Rec) (add : Rec -> Row -> Rec).
Hypothesis keyR_new : forall r, keyR (new r) = key r.
Hypothesis keyR_add : forall k r, keyR (add k r) = keyR k.

Lemma keyR_build run : keyR (build new add run) = key (fst run).
Proof.
  destruct run as [h tl]. unfold build. simpl.
  assert (forall k, keyR (fold_left add tl k) = keyR k) as ->.
  { induction tl as [|x tl IH]; intros k; simpl; [done|]. by rewrite IH, keyR_add. }
  by rewrite keyR_add, keyR_new.
Qed.

Lemma gstep_last l k r :
  gstep key keyR new add (Some (length l), l ++ [k]) r =
  if decide (keyR k = key r) then (Some (length l), l ++ [add k r])
  else (Some (S (length l)), l ++ [k; add (new r) r]).
Proof.
  unfold gstep. rewrite list_lookup_middle by done.
  case_decide as Hk.
  - rewrite bool_decide_eq_true_2 by done. simpl.
    f_equal. rewrite alter_app_r_alt by lia. rewrite Nat.sub_diag. done.
  - rewrite bool_decide_eq_false_2 by (intros E; by apply Hk). simpl.
    rewrite !length_app. simpl.
    replace (length l + 1 + 1 - 1)%nat with (S (length l)) by lia.
    f_equal.
    rewrite <- (app_assoc l [k] [new r]).
    rewrite alter_app_r_alt by lia.
    replace (S (length l) - length l)%nat with 1%nat by lia. done.
Qed.

Lemma build_snoc h tl r : build new add (h, tl ++ [r]) = add (build new add (h, tl)) r.
Proof. unfold build. simpl. by rewrite fold_left_app. Qed.

Lemma gstate_snoc rows r :
  gstep key keyR new add (gstate key new add rows) r = gstate key new add (rows ++ [r]).
Proof.
  unfold gstate. rewrite runs_snoc.
  destruct (runs key rows) as [|x rs] using rev_ind; [done|]. clear IHrs.
  rewrite snoc_run_app, !map_app. destruct x as [h tl].
  assert (forall (l : list Rec) k,
    match l ++ [k] with [] => None | _ => Some (length (l ++ [k]) - 1)%nat end
    = Some (length l)) as Hlast.
  { intros l k. rewrite length_app. simpl. destruct l; simpl; f_equal; lia. }
  generalize (map (build new add) rs). intros l.
  change (map (build new add) [(h, tl)]) with [build new add (h, tl)].
  rewrite Hlast, gstep_last, keyR_build. simpl fst.
  simpl snoc_run. case_decide.
  - simpl map. by rewrite Hlast, build_snoc.
  - simpl map.
    change [build new add (h, tl); build new add (r, [])]
      with ([build new add (h, tl)] ++ [build new add (r, [])]).
    rewrite app_assoc, Hlast, length_app. simpl.
    rewrite <- app_assoc. simpl. do 2 f_equal. lia.
Qed.

(** The loop leaves the records of the maximal runs of its rows. *)
Lemma gfold_runs rows :
  fold_left (gstep key keyR new add) rows (None, []) = gstate key new add rows.
Proof.
  induction rows as [|r rows IH] using rev_ind; [done|].
  rewrite fold_left_app, IH. cbn [fold_left]. apply gstate_snoc.
Qed.

End FoldFacts.
End RunsFacts.

Lemma fold_left_pointwise {A B} (f g : A -> B -> A) l a :
  (forall x y, f x y = g x y) -> fold_left f l a = fold_left g l a.
Proof.
  intros E. revert a. induction l as [|y l IH]; intros a; simpl; [done|].
  by rewrite E, IH.
Qed.

(** The loop of [ForeignKeys] is the shared loop over foreign-key rows. *)
Lemma ForeignKeys_step_gstep tn st r :
  ForeignKeys_step tn st r =
  gstep fkRow.ID ForeignKey.ID (ForeignKey_new tn) ForeignKey_add st r.
Proof.
  destruct st as [p l]. unfold ForeignKeys_step, gstep.
  assert (forall cur, negb (fkRow.ID r =? ForeignKey.ID cur)
                      = negb (bool_decide (fkRow.ID r = ForeignKey.ID cur))) as E.
  { intros cur. f_equal. destruct (Z.eqb_spec (fkRow.ID r) (ForeignKey.ID cur)).
    - by rewrite bool_decide_eq_true_2.
    - by rewrite bool_decide_eq_false_2. }
  destruct p as [i|]; [destruct (l !! i) as [cur|] eqn:El|]; rewrite ?E;
    repeat match goal with |- context [if ?b then _ else _] => destruct b end;
    try (by rewrite list_alter_alter_eq).
Qed.

Lemma ForeignKey_build tn run :
  build (ForeignKey_new tn) ForeignKey_add run = ForeignKey_of_run tn run.
Proof.
  destruct run as [h tl]. unfold build, ForeignKey_of_run, run_rows. simpl fst. simpl snd.
  assert (forall k, fold_left ForeignKey_add tl k =
    {| ForeignKey.ID := ForeignKey.ID k;
       ForeignKey.ChildTable := ForeignKey.ChildTable k;
       ForeignKey.ChildKey := ForeignKey.ChildKey k ++ map fkRow.From tl;
       ForeignKey.ParentTable := ForeignKey.ParentTable k;
       ForeignKey.ParentKey := ForeignKey.ParentKey k ++ map fkRow.To tl;
       ForeignKey.OnUpdate := ForeignKey.OnUpdate k;
       ForeignKey.OnDelete := ForeignKey.OnDelete k |}) as ->.
  { induction tl as [|x tl IH]; intros k; simpl.
    - rewrite !app_nil_r. by destruct k.
    - rewrite IH. simpl. by rewrite <- !app_assoc. }
  done.
Qed.

Lemma ForeignKeys_fold_runs tn rows :
  ForeignKeys_fold tn rows = map (ForeignKey_of_run tn) (runs fkRow.ID rows).
Proof.
  unfold ForeignKeys_fold.
  rewrite (fold_left_pointwise _ _ _ _ (ForeignKeys_step_gstep tn)).
  rewrite gfold_runs by done. unfold gstate. simpl snd.
  apply map_ext. intros run. apply ForeignKey_build.
Qed.

(** The loop of [Indexes] is the shared loop over index rows. *)
Lemma Indexes_step_gstep st r :
  Indexes_step st r = gstep idxRow.Name Index.Name Index_new Index_add st r.
Proof.
  destruct st as [p l]. unfold Indexes_step, gstep.
  assert (forall cur, negb (String.eqb (idxRow.Name r) (Index.Name cur))
                      = negb (bool_decide (idxRow.Name r = Index.Name cur))) as E.
  { intros cur. f_equal. destruct (String.eqb_spec (idxRow.Name r) (Index.Name cur)).
    - by rewrite bool_decide_eq_true_2.
    - by rewrite bool_decide_eq_false_2. }
  destruct p as [i|]; [destruct (l !! i) as [cur|] eqn:El|]; rewrite ?E;
    repeat match goal with |- context [if ?b then _ else _] => destruct b end;
    done.
Qed.

Lemma Index_build run : build Index_new Index_add run = Index_of_run run.
Proof.
  destruct run as [h tl]. unfold build, Index_of_run, run_rows. simpl fst. simpl snd.
  assert (forall k, fold_left Index_add tl k =
    {| Index.Name := Index.Name k;
       Index.Type_ := Index.Type_ k;
       Index.IsUnique := Index.IsUnique k;
       Index.IsPartial := Index.IsPartial k;
       Index.ColumnNames := Index.ColumnNames k ++ map idxRow.ColumnName tl |}) as ->.
  { induction tl as [|x tl IH]; intros k; simpl.
    - rewrite !app_nil_r. by destruct k.
    - rewrite IH. simpl. by rewrite <- !app_assoc. }
  done.
Qed.

Lemma Indexes_fold_runs rows :
  Indexes_fold rows = map Index_of_run (runs idxRow.Name rows).
Proof.
  unfold Indexes_fold.
  rewrite (fold_left_pointwise _ _ _ _ Indexes_step_gstep).
  rewrite gfold_runs by done. unfold gstate. simpl snd.
  apply map_ext. intros run. apply Index_build.
Qed.


(** * Placeholders and bound parameters *)


Lemma count_byte_app c s t :
  count_byte c (s +:+ t) = (count_byte c s + count_byte c t)%nat.
Proof. induction s as [|x s IH]; simpl; [done|]. rewrite IH. lia. Qed.

Lemma substring_0_0 s : String.substring 0 0 s = EmptyString.
Proof. by destruct s. Qed.

Lemma Repeat_qmark n : strings.Repeat "?" (S n) = String qmark (strings.Repeat "?" n).
Proof. done. Qed.

Lemma length_Repeat_qmark n : String.length (strings.Repeat "?" n) = n.
Proof. induction n as [|n IH]; [done|]. rewrite Repeat_qmark. simpl. by rewrite IH. Qed.

Lemma explode_from_Repeat n fuel :
  (n <= fuel)%nat ->
  strings.explode_from fuel (strings.Repeat "?" n) = replicate n "?".
Proof.
  revert fuel. induction n as [|n IH]; intros fuel Hle.
  - by destruct fuel.
  - destruct fuel as [|fuel]; [lia|].
    rewrite Repeat_qmark. cbn [strings.explode_from].
    change (utf8.DecodeRuneInString (String qmark (strings.Repeat "?" n)))
      with (63, 1%nat).
    cbn [snd string_drop String.substring]. rewrite substring_0_0.
    rewrite IH by lia. done.
Qed.

Lemma Split_Repeat n :
  strings.Split (strings.Repeat "?" n) EmptyString = replicate n "?".
Proof.
  unfold strings.Split. simpl String.eqb. cbv iota. unfold strings.explode.
  apply explode_from_Repeat. by rewrite length_Repeat_qmark.
Qed.

Lemma placeholdersFor_spec vals :
  placeholdersFor vals = strings.Join (replicate (length vals) "?") ", ".
Proof. unfold placeholdersFor. by rewrite Split_Repeat. Qed.

Lemma count_Join_qmarks n :
  count_byte qmark (strings.Join (replicate n "?") ", ") = n.
Proof.
  induction n as [|n IH]; [done|].
  destruct n as [|n]; [done|].
  change (replicate (S (S n)) "?") with ("?" :: replicate (S n) "?") in *.
  change (strings.Join ("?" :: replicate (S n) "?") ", ")
    with ("?" +:+ ", " +:+ strings.Join (replicate (S n) "?") ", ").
  rewrite !count_byte_app, IH. done.
Qed.

Lemma count_placeholdersFor vals :
  count_byte qmark (placeholdersFor vals) = length vals.
Proof. by rewrite placeholdersFor_spec, count_Join_qmarks. Qed.


Lemma length_scoped_params s objectName :
  length (scoped_params s objectName) = (1 + (if nonempty (name s) then 1 else 0))%nat.
Proof. unfold scoped_params. by destruct (nonempty (name s)). Qed.

Lemma length_Indexes_params s tn :
  length (Indexes_params s tn) = (1 + (if nonempty (name s) then 2 else 0))%nat.
Proof. unfold Indexes_params. by destruct (nonempty (name s)). Qed.

Lemma Columns_q_count s tn :
  count_byte qmark (Columns_q s tn) = length (scoped_params s tn).
Proof. unfold Columns_q. rewrite !count_byte_app, count_placeholdersFor. simpl. lia. Qed.

Lemma ForeignKeys_q_count s tn :
  count_byte qmark (ForeignKeys_q s tn) = length (scoped_params s tn).
Proof. unfold ForeignKeys_q. rewrite !count_byte_app, count_placeholdersFor. simpl. lia. Qed.

Lemma indexColumns_q_count s n aux :
  count_byte qmark (indexColumns_q s n aux) = length (scoped_params s n).
Proof.
  unfold indexColumns_q. rewrite !count_byte_app, count_placeholdersFor.
  destruct aux; simpl; lia.
Qed.

Lemma Indexes_q_count s tn :
  count_byte qmark (Indexes_q s) = length (Indexes_params s tn).
Proof.
  unfold Indexes_q. rewrite !count_byte_app, length_Indexes_params.
  destruct (nonempty (name s)); simpl; lia.
Qed.

Section Ops.
Context {Conn : Type} (db : Executor Conn).

(** What a call leaves in the log: the one query it builds. *)
Lemma issued_Schema_Columns s tn c :
  issued (snd (run (Schema_Columns db s tn) c)) =
  [ {| text := Columns_q s tn; params := scoped_params s tn |} ].
Proof.
  unfold run, Schema_Columns, issue, mbind, M_bind, mret, M_ret. simpl.
  destruct (queryRows_Column db _ c) as [[rows [e|]] c']; done.
Qed.

Lemma issued_Schema_ForeignKeys s tn c :
  issued (snd (run (Schema_ForeignKeys db s tn) c)) =
  [ {| text := ForeignKeys_q s tn; params := scoped_params s tn |} ].
Proof.
  unfold run, Schema_ForeignKeys, issue, mbind, M_bind, mret, M_ret. simpl.
  destruct (queryRows_fkRow db _ c) as [[rows [e|]] c']; done.
Qed.

Lemma issued_Schema_Indexes s tn c :
  issued (snd (run (Schema_Indexes db s tn) c)) =
  [ {| text := Indexes_q s; params := Indexes_params s tn |} ].
Proof.
  unfold run, Schema_Indexes, issue, mbind, M_bind, mret, M_ret. simpl.
  destruct (queryRows_idxRow db _ c) as [[rows [e|]] c']; done.
Qed.

Lemma issued_indexColumns s n aux c :
  issued (snd (run (indexColumns db s n aux) c)) =
  [ {| text := indexColumns_q s n aux; params := scoped_params s n |} ].
Proof.
  unfold run, indexColumns, issue, mbind, M_bind, mret, M_ret. simpl.
  destruct (queryRows_IndexColumn db _ c) as [[rows [e|]] c']; done.
Qed.

(** C10. [placeholdersFor] of a list of values is as many question marks
    as the list has values, joined by a comma and a space. Each of
    [Columns], [ForeignKeys], [Indexes] and [indexColumns] hands to the
    executor exactly one query, the one it builds, and that query holds as
    many question marks in its text as it binds values: it binds the
    object name and, for a named selector, the schema name once per pragma
    call that takes it (one call, two for [Indexes]). *)
Theorem placeholders_match_params (s : Schema) (objectName : string) (c : Conn)
    (includeAux : bool) (vals : list any) :
  let scope := if nonempty (name s) then [VString (name s)] else [] in
  (placeholdersFor vals = strings.Join (replicate (length vals) "?") ", "
   /\ count_byte qmark (placeholdersFor vals) = length vals)
  /\ issues_balanced (issued (snd (run (Schema_Columns db s objectName) c)))
       (Columns_query s objectName) (VString objectName :: scope)
  /\ issues_balanced (issued (snd (run (Schema_ForeignKeys db s objectName) c)))
       (ForeignKeys_query s objectName) (VString objectName :: scope)
  /\ issues_balanced (issued (snd (run (Schema_Indexes db s objectName) c)))
       (Indexes_query s objectName) (VString objectName :: scope ++ scope)
  /\ issues_balanced (issued (snd (run (indexColumns db s objectName includeAux) c)))
       (indexColumns_query s objectName includeAux) (VString objectName :: scope).
Proof.
  intros scope. split; [split; [apply placeholdersFor_spec|apply count_placeholdersFor]|].
  unfold issues_balanced, balanced.
  rewrite issued_Schema_Columns, issued_Schema_ForeignKeys,
    issued_Schema_Indexes, issued_indexColumns.
  unfold Columns_query, ForeignKeys_query, Indexes_query, indexColumns_query.
  cbn [text params].
  rewrite Columns_q_count, ForeignKeys_q_count, indexColumns_q_count,
    (Indexes_q_count s objectName).
  unfold scope, scoped_params, Indexes_params.
  destruct (nonempty (name s)); done.
Qed.
End Ops.


(** * Reassembly of rows *)


(** ** Filtering and sorting the rows of an index *)

Section Sorting.
Variable k : IndexColumn.t -> Z.
Variable holds : IndexColumn.t -> bool.

Lemma insert_head x l :
  Forall (fun z => k x <= k z) l -> sqlite.insert k x l = x :: l.
Proof.
  destruct l as [|y l]; [done|]. intros H. apply Forall_cons in H as [Hy _].
  simpl. by destruct (Z.leb_spec (k x) (k y)); [|lia].
Qed.

Lemma insert_sorted x l :
  StronglySorted (fun a b => k a <= k b) l ->
  StronglySorted (fun a b => k a <= k b) (sqlite.insert k x l).
Proof.
  induction 1 as [|y l Hl IH Hy]; [repeat constructor|].
  simpl. destruct (Z.leb_spec (k x) (k y)).
  - constructor; [by constructor|]. constructor; [done|].
    eapply Forall_impl; [exact Hy|]. simpl. lia.
  - constructor; [done|].
    assert (forall l', Forall (fun z => k y <= k z) l' ->
                       Forall (fun z => k y <= k z) (sqlite.insert k x l')) as Hins.
    { induction l' as [|z l' IH']; intros Hall.
      - constructor; [lia|done].
      - apply Forall_cons in Hall as [Hz Hall]. simpl.
        destruct (k x <=? k z); repeat (constructor; try done); try lia; by apply IH'. }
    by apply Hins.
Qed.

Lemma sort_sorted l : StronglySorted (fun a b => k a <= k b) (sqlite.sort k l).
Proof. induction l as [|x l IH]; [constructor|]. by apply insert_sorted. Qed.

Lemma filter_insert x l :
  StronglySorted (fun a b => k a <= k b) l ->
  List.filter holds (sqlite.insert k x l) =
  if holds x then sqlite.insert k x (List.filter holds l) else List.filter holds l.
Proof.
  induction 1 as [|y l Hl IH Hy]; [simpl; by destruct (holds x)|].
  cbn [sqlite.insert]. destruct (Z.leb_spec (k x) (k y)) as [Hle|Hgt].
  - cbn [List.filter]. destruct (holds x); [|done].
    destruct (holds y).
    + cbn [sqlite.insert]. by destruct (Z.leb_spec (k x) (k y)); [|lia].
    + rewrite insert_head; [done|].
      clear -Hy Hle. induction Hy as [|z l Hz Hl IH]; [constructor|].
      simpl. destruct (holds z); [constructor; [lia|done]|done].
  - cbn [List.filter]. rewrite IH. destruct (holds y), (holds x); try done.
    cbn [sqlite.insert]. by destruct (Z.leb_spec (k x) (k y)); [lia|].
Qed.

(** Filtering and stable sorting commute. *)
Lemma filter_sort l :
  List.filter holds (sqlite.sort k l) = sqlite.sort k (List.filter holds l).
Proof.
  induction l as [|x l IH]; [done|].
  change (sqlite.sort k (x :: l)) with (sqlite.insert k x (sqlite.sort k l)).
  rewrite filter_insert by apply sort_sorted. rewrite IH.
  cbn [List.filter]. by destruct (holds x).
Qed.

End Sorting.

Lemma filter_true {A} (l : list A) : List.filter (fun _ => true) l = l.
Proof. induction l as [|x l IH]; [done|]. simpl. by rewrite IH. Qed.

Lemma filter_bool {A} (f : A -> bool) (l : list A) :
  List.filter f l = filter (fun x => f x = true) l.
Proof.
  induction l as [|x l IH]; [done|]. simpl. destruct (f x) eqn:E.
  - by rewrite filter_cons_True, IH.
  - rewrite filter_cons_False, IH; [done|]. by rewrite E.
Qed.

Lemma filter_key_flag l :
  List.filter (fun col => (if IndexColumn.IsKey col then 1 else 0) =? 1) l
  = filter (fun col => IndexColumn.IsKey col = true) l.
Proof.
  rewrite filter_bool. induction l as [|x l IH]; [done|].
  destruct (IndexColumn.IsKey x) eqn:E.
  - rewrite !filter_cons_True; [by rewrite IH|done|by rewrite E].
  - rewrite !filter_cons_False; [done|by rewrite E|by rewrite E].
Qed.

(** The query of [indexColumns], word by word. *)
Lemma words_indexColumns_q s n aux :
  sqlite.words (indexColumns_q s n aux) =
  ["SELECT"; "name,"; "seqno,"; "cid,"; "desc,"; "coll,"; "key"; "FROM"]
  ++ (if nonempty (name s) then ["pragma_index_xinfo(?,"; "?)"]
      else ["pragma_index_xinfo(?)"])
  ++ ["WHERE"] ++ (if aux then ["1"; "="; "1"] else ["key"; "="; "1"])
  ++ ["ORDER"; "BY"; "seqno"].
Proof.
  unfold indexColumns_q, scoped_params.
  destruct (nonempty (name s)), aux; vm_compute; reflexivity.
Qed.

(** The answer of the database to the query of [indexColumns]: the rows
    of the index for the index name and, for a named selector, its name,
    those with the key flag unless the auxiliary ones are asked for, sorted
    by their rank. *)
Lemma select_indexColumns_query index_xinfo s n aux :
  sqlite.select_index_xinfo index_xinfo (indexColumns_query s n aux) =
  let rows :=
    index_xinfo (VString n :: if nonempty (name s) then [VString (name s)] else []) in
  (sqlite.sort IndexColumn.Rank
     (if aux then rows else filter (fun col => IndexColumn.IsKey col = true) rows), None).
Proof.
  unfold sqlite.select_index_xinfo, indexColumns_query. cbn [text params].
  rewrite words_indexColumns_q. unfold scoped_params.
  destruct (nonempty (name s)), aux; cbn; rewrite ?filter_true, ?filter_key_flag; done.
Qed.

Section Ops.
Context {Conn : Type} (db : Executor Conn).

Lemma run_Schema_ForeignKeys s tn c :
  fst (run (Schema_ForeignKeys db s tn) c) =
  let '(rows, err) := fst (queryRows_fkRow db (ForeignKeys_query s tn) c) in
  match err with
  | Some e => ([], Some (Errorf "could not get foreign keys for table %s: %s"
                           [VString tn; VError e]))
  | None => (ForeignKeys_fold tn rows, None)
  end.
Proof.
  unfold run, Schema_ForeignKeys, issue, mbind, M_bind, mret, M_ret, ForeignKeys_query.
  simpl. destruct (queryRows_fkRow db _ c) as [[rows [e|]] c']; done.
Qed.

Lemma run_Schema_Indexes s tn c :
  fst (run (Schema_Indexes db s tn) c) =
  let '(rows, err) := fst (queryRows_idxRow db (Indexes_query s tn) c) in
  match err with
  | Some e => ([], Some (Errorf "could not get indexes for table %s: %s"
                           [VString tn; VError e]))
  | None => (Indexes_fold rows, None)
  end.
Proof.
  unfold run, Schema_Indexes, issue, mbind, M_bind, mret, M_ret, Indexes_query.
  simpl. destruct (queryRows_idxRow db _ c) as [[rows [e|]] c']; done.
Qed.

Lemma run_Schema_Columns s tn c :
  fst (run (Schema_Columns db s tn) c) =
  let '(columns, err) := fst (queryRows_Column db (Columns_query s tn) c) in
  match err with
  | Some e => ([], Some (Errorf "could not get columns for table %s: %s"
                           [VString tn; VError e]))
  | None => (columns, None)
  end.
Proof.
  unfold run, Schema_Columns, issue, mbind, M_bind, mret, M_ret, Columns_query.
  simpl. destruct (queryRows_Column db _ c) as [[rows [e|]] c']; done.
Qed.

Lemma run_indexColumns s n aux c :
  fst (run (indexColumns db s n aux) c) =
  let '(columns, err) := fst (queryRows_IndexColumn db (indexColumns_query s n aux) c) in
  match err with
  | Some e => ([], Some (Errorf "could not get columns for index %s: %s"
                           [VString n; VError e]))
  | None => (columns, None)
  end.
Proof.
  unfold run, indexColumns, issue, mbind, M_bind, mret, M_ret, indexColumns_query.
  simpl. destruct (queryRows_IndexColumn db _ c) as [[rows [e|]] c']; done.
Qed.

(** C2. The loops of [ForeignKeys] and [Indexes] pass once over the rows
    and leave one record per maximal run of rows with equal keys (the
    foreign-key id, the index name), in run order: a record takes its
    group-level fields from the first row of its run and one entry of each
    of its list fields from every row of the run, in row order. This holds
    of every row list; on one sorted by key the runs are the groups. *)
Theorem single_pass_grouping (s : Schema) (tableName : string) (c : Conn) :
  (forall rows,
     maximal_runs fkRow.ID rows (runs fkRow.ID rows)
     /\ ForeignKeys_fold tableName rows
        = map (ForeignKey_of_run tableName) (runs fkRow.ID rows))
  /\ (forall rows,
     maximal_runs idxRow.Name rows (runs idxRow.Name rows)
     /\ Indexes_fold rows = map Index_of_run (runs idxRow.Name rows))
  /\ (forall rows c',
     queryRows_fkRow db (ForeignKeys_query s tableName) c = ((rows, None), c') ->
     fst (run (Schema_ForeignKeys db s tableName) c)
     = (map (ForeignKey_of_run tableName) (runs fkRow.ID rows), None))
  /\ (forall rows c',
     queryRows_idxRow db (Indexes_query s tableName) c = ((rows, None), c') ->
     fst (run (Schema_Indexes db s tableName) c)
     = (map Index_of_run (runs idxRow.Name rows), None)).
Proof.
  repeat split; try apply runs_maximal.
  - apply ForeignKeys_fold_runs.
  - apply Indexes_fold_runs.
  - intros rows c' E. rewrite run_Schema_ForeignKeys, E. simpl.
    by rewrite ForeignKeys_fold_runs.
  - intros rows c' E. rewrite run_Schema_Indexes, E. simpl.
    by rewrite Indexes_fold_runs.
Qed.

(** C4. Every foreign key of a successful result of [ForeignKeys] has child
    and parent key lists of equal length and of at least one entry, and
    both come, position by position, from one block of consecutive rows of
    the answer of the executor: entry i of each is the from column and the
    to column of row i of the block. *)
Theorem foreign_key_columns_paired (s : Schema) (tableName : string) (c : Conn)
    (foreignKeys : list ForeignKey.t) :
  fst (run (Schema_ForeignKeys db s tableName) c) = (foreignKeys, None) ->
  let rows := fst (fst (queryRows_fkRow db (ForeignKeys_query s tableName) c)) in
  forall fk, fk ∈ foreignKeys ->
    length (ForeignKey.ChildKey fk) = length (ForeignKey.ParentKey fk)
    /\ (1 <= length (ForeignKey.ChildKey fk))%nat
    /\ exists pre group post,
         rows = pre ++ group ++ post
         /\ ForeignKey.ChildKey fk = map fkRow.From group
         /\ ForeignKey.ParentKey fk = map fkRow.To group
         /\ forall i child parent,
              ForeignKey.ChildKey fk !! i = Some child ->
              ForeignKey.ParentKey fk !! i = Some parent ->
              exists r, group !! i = Some r
                        /\ fkRow.From r = child /\ fkRow.To r = parent.
Proof.
  intros E rows fk Hin. subst rows.
  rewrite run_Schema_ForeignKeys in E.
  destruct (queryRows_fkRow db (ForeignKeys_query s tableName) c) as [[rows [e|]] c'];
    simpl in E; [done|].
  injection E as E. subst foreignKeys. simpl.
  rewrite ForeignKeys_fold_runs in Hin.
  apply list_elem_of_fmap in Hin as (run & -> & Hrun).
  simpl. rewrite !length_map. split; [done|]. split; [simpl; lia|].
  destruct (run_in_rows _ _ _ Hrun) as (pre & post & Hrows).
  exists pre, (run_rows run), post. repeat split; try done.
  intros i child parent Hc Hp.
  assert ((fkRow.From <$> run_rows run) !! i = Some child) as Hc' by exact Hc.
  assert ((fkRow.To <$> run_rows run) !! i = Some parent) as Hp' by exact Hp.
  rewrite list_lookup_fmap in Hc'. rewrite list_lookup_fmap in Hp'.
  destruct (run_rows run !! i) as [r|]; simpl in *; [|done].
  exists r. split; [done|]. split; congruence.
Qed.

(** C9. Every foreign key of a successful result of [ForeignKeys] has a
    child key list and a parent key list that are not empty, and every
    index of a successful result of [Indexes] has a list of column names
    that is not empty. *)
Theorem groups_nonempty (s : Schema) (tableName : string) (c : Conn) :
  (forall foreignKeys,
     fst (run (Schema_ForeignKeys db s tableName) c) = (foreignKeys, None) ->
     forall fk, fk ∈ foreignKeys ->
       ForeignKey.ChildKey fk <> [] /\ ForeignKey.ParentKey fk <> [])
  /\ (forall indexes,
     fst (run (Schema_Indexes db s tableName) c) = (indexes, None) ->
     forall idx, idx ∈ indexes -> Index.ColumnNames idx <> []).
Proof.
  split.
  - intros fks E fk Hin. rewrite run_Schema_ForeignKeys in E.
    destruct (queryRows_fkRow db _ c) as [[rows [e|]] c']; simpl in E; [done|].
    injection E as E. subst fks. rewrite ForeignKeys_fold_runs in Hin.
    apply list_elem_of_fmap in Hin as (run & -> & Hrun). done.
  - intros idxs E idx Hin. rewrite run_Schema_Indexes in E.
    destruct (queryRows_idxRow db _ c) as [[rows [e|]] c']; simpl in E; [done|].
    injection E as E. subst idxs. rewrite Indexes_fold_runs in Hin.
    apply list_elem_of_fmap in Hin as (run & -> & Hrun). done.
Qed.

(** C6. When the executor answers the query with no rows and no error, as
    for a table or an index that does not exist, [Columns], [ForeignKeys],
    [Indexes], [IndexColumns] and [IndexColumnsAux] each return the empty
    list and the nil error. *)
Theorem no_rows_no_error (s : Schema) (objectName : string) (c : Conn) :
  (fst (queryRows_Column db (Columns_query s objectName) c) = ([], None) ->
   fst (run (Schema_Columns db s objectName) c) = ([], None))
  /\ (fst (queryRows_fkRow db (ForeignKeys_query s objectName) c) = ([], None) ->
   fst (run (Schema_ForeignKeys db s objectName) c) = ([], None))
  /\ (fst (queryRows_idxRow db (Indexes_query s objectName) c) = ([], None) ->
   fst (run (Schema_Indexes db s objectName) c) = ([], None))
  /\ (fst (queryRows_IndexColumn db (indexColumns_query s objectName false) c) = ([], None) ->
   fst (run (Schema_IndexColumns db s objectName) c) = ([], None))
  /\ (fst (queryRows_IndexColumn db (indexColumns_query s objectName true) c) = ([], None) ->
   fst (run (Schema_IndexColumnsAux db s objectName) c) = ([], None)).
Proof.
  repeat split; intros E.
  - by rewrite run_Schema_Columns, E.
  - by rewrite run_Schema_ForeignKeys, E.
  - by rewrite run_Schema_Indexes, E.
  - unfold Schema_IndexColumns. by rewrite run_indexColumns, E.
  - unfold Schema_IndexColumnsAux. by rewrite run_indexColumns, E.
Qed.

(** C5. Let the database answer the query of [indexColumns] as SQLite
    reads it, filtering the rows of the index by the condition after WHERE
    and sorting them by the column after ORDER BY, and let the rows of the
    index, in the order of their rank, be its key entries followed by its
    auxiliary entries. Then [IndexColumns] and [IndexColumnsAux] both
    succeed, [IndexColumns] returns the key entries, which are the entries
    of the result of [IndexColumnsAux] that have the key flag, unchanged
    and in the same order, and the result of [IndexColumnsAux] is that list
    followed by the auxiliary entries. *)
Theorem key_columns_prefix_of_aux (s : Schema) (indexName : string) (c : Conn)
    (index_xinfo : list any -> list IndexColumn.t) (keys auxs : list IndexColumn.t) :
  (forall q, queryRows_IndexColumn db q c = (sqlite.select_index_xinfo index_xinfo q, c)) ->
  sqlite.sort IndexColumn.Rank
    (index_xinfo (VString indexName
                    :: if nonempty (name s) then [VString (name s)] else []))
    = keys ++ auxs ->
  Forall (fun col => IndexColumn.IsKey col = true) keys ->
  Forall (fun col => IndexColumn.IsKey col = false) auxs ->
  let withAux := fst (run (Schema_IndexColumnsAux db s indexName) c) in
  let keyOnly := fst (run (Schema_IndexColumns db s indexName) c) in
  snd withAux = None /\ snd keyOnly = None
  /\ fst keyOnly = filter (fun col => IndexColumn.IsKey col = true) (fst withAux)
  /\ fst withAux = fst keyOnly ++ auxs
  /\ fst keyOnly = keys.
Proof.
  intros Hdb Hrows Hk Ha. cbv zeta.
  unfold Schema_IndexColumns, Schema_IndexColumnsAux.
  rewrite !run_indexColumns, !Hdb, !select_indexColumns_query. cbv zeta. cbn [fst snd].
  rewrite <- (filter_bool IndexColumn.IsKey), <- filter_sort, Hrows, filter_bool.
  assert (filter (fun col => IndexColumn.IsKey col = true) (keys ++ auxs) = keys) as ->.
  { rewrite filter_app.
    assert (filter (fun col => IndexColumn.IsKey col = true) keys = keys) as ->.
    { clear -Hk. induction Hk as [|x l Hx Hl IH]; [done|].
      rewrite filter_cons_True by done. by rewrite IH. }
    assert (filter (fun col => IndexColumn.IsKey col = true) auxs = []) as ->.
    { clear -Ha. induction Ha as [|x l Hx Hl IH]; [done|].
      rewrite filter_cons_False; [done|]. by rewrite Hx. }
    by rewrite app_nil_r. }
  done.
Qed.

End Ops.


(** * Listing names *)


Section Names.
Variable CaseRanges : list unicode.CaseRange.
Context {Conn : Type} (db : Executor Conn).

Lemma name_listings_masterTableNames s (P : string -> M Conn (list string * option error) -> Prop) :
  (forall typ, P typ (masterTableNames CaseRanges db s typ)) ->
  Forall (fun op => P (fst op) (snd op)) (name_listings CaseRanges db s).
Proof. intros H. repeat constructor; apply H. Qed.

Lemma ToLower_temp_of_fold s :
  ascii_fold s = "temp" -> strings.ToLower CaseRanges s = "temp".
Proof.
  intros E. rewrite ToLower_ascii; [done|].
  by rewrite <- isASCII_fold, E.
Qed.

Lemma fold_temp_of_ToLower s :
  lower_avoids_temp CaseRanges ->
  strings.ToLower CaseRanges s = "temp" -> ascii_fold s = "temp".
Proof.
  intros Htable E.
  destruct (strings.isASCII s) eqn:Hascii.
  - by rewrite ToLower_ascii in E.
  - unfold strings.ToLower in E. rewrite Hascii in E.
    assert (strings.isASCII s = true) as Hyes; [|congruence].
    apply (Map_only_ascii (unicode.ToLower CaseRanges) temp_letter).
    + unfold temp_letter. intros b Hb.
      repeat (apply orb_true_iff in Hb as [Hb|Hb]); apply Z.eqb_eq in Hb; lia.
    + exact Htable.
    + by rewrite E.
Qed.

Lemma issued_masterTableNames_query tableName typ w :
  issued (snd (masterTableNames_query db tableName typ w))
  = issued w ++ [catalog_query tableName typ].
Proof.
  unfold masterTableNames_query, issue, mbind, M_bind, mret, M_ret, catalog_query.
  destruct (queryStrings db _ (conn w)) as [[names [e|]] c']; done.
Qed.

Lemma masterTableNames_temp s typ :
  nonempty (name s) = true ->
  strings.ToLower CaseRanges (name s) = "temp" ->
  masterTableNames CaseRanges db s typ = masterTableNames_query db "sqlite_temp_master" typ.
Proof. unfold masterTableNames. by intros -> ->. Qed.

Lemma masterTableNames_verified s typ :
  nonempty (name s) = true ->
  strings.ToLower CaseRanges (name s) <> "temp" ->
  masterTableNames CaseRanges db s typ =
  (err ← verify db s;
   match err with
   | Some e =>
     mret ([], Some (Errorf "could not get %s names: %s" [VString typ; VError e]))
   | None => masterTableNames_query db (name s +:+ "." +:+ "sqlite_master") typ
   end).
Proof.
  unfold masterTableNames. intros -> Hne.
  by destruct (String.eqb_spec (strings.ToLower CaseRanges (name s)) "temp").
Qed.

Lemma verify_eq s w :
  verify db s w =
  let '((count, err), c') := QueryRow_Scan db (verify_query s) (conn w) in
  (match err with
   | Some e => Some e
   | None =>
     if count <? 1 then Some (Errorf "unknown database '%s'" [VString (name s)])
     else None
   end, {| conn := c'; issued := issued w ++ [verify_query s] |}).
Proof.
  unfold verify, issue, mbind, M_bind, mret, M_ret, verify_query.
  destruct (QueryRow_Scan db _ (conn w)) as [[count [e|]] c']; [done|].
  by destruct (count <? 1).
Qed.

Lemma issued_verified s typ c :
  nonempty (name s) = true ->
  strings.ToLower CaseRanges (name s) <> "temp" ->
  exists rest,
    issued (snd (run (masterTableNames CaseRanges db s typ) c)) = verify_query s :: rest.
Proof.
  intros Hn Hne. rewrite masterTableNames_verified by done.
  unfold run, mbind, M_bind. rewrite verify_eq. cbn [conn issued].
  destruct (QueryRow_Scan db (verify_query s) c) as [[count [e|]] c'].
  - by eexists.
  - destruct (count <? 1); [by eexists|].
    rewrite issued_masterTableNames_query. by eexists.
Qed.

(** C7. For a selector whose non-empty name is temp in any mix of ASCII
    cases, each of the four name-listing operations behaves as the catalog
    query on the fixed table sqlite_temp_master does: that query is the one
    query issued, so no count query is made and no caller-supplied name
    enters the SQL text. The routing is taken exactly when strings.ToLower
    of the name is temp (any other non-empty name is verified first), and
    that is exactly when the name is temp under ASCII folding, the case
    table of the Go distribution lowering no other rune to t, e, m or p. *)
Theorem temp_routing (s : Schema) (c : Conn) :
  nonempty (name s) = true ->
  (lower_avoids_temp CaseRanges ->
   (strings.ToLower CaseRanges (name s) = "temp" <-> ascii_fold (name s) = "temp"))
  /\ Forall (fun op =>
       let typ := fst op in
       let after := run (snd op) c in
       let routed :=
         after = run (masterTableNames_query db "sqlite_temp_master" typ) c
         /\ issued (snd after) = [catalog_query "sqlite_temp_master" typ] in
       (ascii_fold (name s) = "temp" -> routed)
       /\ (strings.ToLower CaseRanges (name s) = "temp" -> routed)
       /\ (strings.ToLower CaseRanges (name s) <> "temp" ->
           exists rest, issued (snd after) = verify_query s :: rest))
       (name_listings CaseRanges db s).
Proof.
  intros Hn. split.
  { intros Htable. split; [by apply fold_temp_of_ToLower|apply ToLower_temp_of_fold]. }
  apply (name_listings_masterTableNames s (fun typ op =>
    let routed :=
      run op c = run (masterTableNames_query db "sqlite_temp_master" typ) c
      /\ issued (snd (run op c)) = [catalog_query "sqlite_temp_master" typ] in
    (ascii_fold (name s) = "temp" -> routed)
    /\ (strings.ToLower CaseRanges (name s) = "temp" -> routed)
    /\ (strings.ToLower CaseRanges (name s) <> "temp" ->
        exists rest, issued (snd (run op c)) = verify_query s :: rest))).
  intros typ.
  assert (strings.ToLower CaseRanges (name s) = "temp" ->
          run (masterTableNames CaseRanges db s typ) c
            = run (masterTableNames_query db "sqlite_temp_master" typ) c
          /\ issued (snd (run (masterTableNames CaseRanges db s typ) c))
            = [catalog_query "sqlite_temp_master" typ]) as Hrouted.
  { intros E. rewrite masterTableNames_temp by done.
    split; [done|]. unfold run. by rewrite issued_masterTableNames_query. }
  split; [|split].
  - intros E. by apply Hrouted, ToLower_temp_of_fold.
  - exact Hrouted.
  - intros Hne. by apply issued_verified.
Qed.

(** A named selector that is not routed to the temporary catalog: what
    [masterTableNames] does is settled by the answer to the count query.
    On an error, or on a count below one, the call returns the nil list
    and an error and the count query is the only query issued; the
    catalog query with the name spliced into its text is issued only
    after the count query has answered one or more without an error. *)
Theorem splice_follows_verification (s : Schema) (typ : string) (c : Conn) :
  nonempty (name s) = true ->
  strings.ToLower CaseRanges (name s) <> "temp" ->
  let after := run (masterTableNames CaseRanges db s typ) c in
  let '((count, err), c') := QueryRow_Scan db (verify_query s) c in
  let verified := {| conn := c'; issued := [verify_query s] |} in
  match err with
  | Some e =>
    after = (([], Some (Errorf "could not get %s names: %s" [VString typ; VError e])),
             verified)
  | None =>
    if count <? 1 then
      after = (([], Some (Errorf "could not get %s names: %s"
                            [VString typ;
                             VError (Errorf "unknown database '%s'" [VString (name s)])])),
               verified)
    else
      after = masterTableNames_query db (name s +:+ ".sqlite_master") typ verified
      /\ issued (snd after)
         = [verify_query s; catalog_query (name s +:+ ".sqlite_master") typ]
  end.
Proof.
  intros Hn Hne. cbv zeta.
  rewrite masterTableNames_verified by done.
  unfold run, mbind, M_bind. rewrite verify_eq. cbn [conn issued].
  destruct (QueryRow_Scan db (verify_query s) c) as [[count [e|]] c']; [done|].
  destruct (count <? 1); [done|].
  split; [done|]. by rewrite issued_masterTableNames_query.
Qed.

(** For a selector whose non-empty name is well-formed UTF-8, is not temp
    under ASCII folding and matches no attached database under ASCII
    folding, the executor answering the count query with the number of
    matches: each of the four name-listing operations returns the nil list
    and the unknown-database error, whose message holds the name as it was
    given, and the count query is the one query issued. The case table is
    taken to lower no rune above U+007F to t, e, m or p. *)
Theorem unknown_database_refused (s : Schema) (c c' : Conn)
    (attached : list string) :
  nonempty (name s) = true ->
  utf8.ValidString (name s) = true ->
  lower_avoids_temp CaseRanges ->
  ascii_fold (name s) <> "temp" ->
  Forall (fun n => ~ ascii_eqfold (name s) n) attached ->
  QueryRow_Scan db (verify_query s) c
    = ((Z.of_nat (length (filter (fun n => ascii_fold n = sqlower (name s)) attached)),
        None), c') ->
  Forall (fun op =>
    let typ := fst op in
    let e := Errorf "could not get %s names: %s"
               [VString typ; VError (Errorf "unknown database '%s'" [VString (name s)])] in
    run (snd op) c = (([], Some e), {| conn := c'; issued := [verify_query s] |})
    /\ forall printOther, contains (fmt.Error printOther e) (name s))
    (name_listings CaseRanges db s).
Proof.
  intros Hn Hvalid Htable Hne Hnone Hcount.
  apply (name_listings_masterTableNames s (fun typ op =>
    let e := Errorf "could not get %s names: %s"
               [VString typ; VError (Errorf "unknown database '%s'" [VString (name s)])] in
    run op c = (([], Some e), {| conn := c'; issued := [verify_query s] |})
    /\ forall printOther, contains (fmt.Error printOther e) (name s))).
  intros typ. split.
  - rewrite masterTableNames_verified;
      [|done|intros E; by apply Hne, fold_temp_of_ToLower].
    unfold run, mbind, M_bind. rewrite verify_eq. cbn [conn issued]. rewrite Hcount.
    assert (filter (fun n => ascii_fold n = sqlower (name s)) attached = []) as ->.
    { rewrite sqlower_valid by done. clear -Hnone.
      induction Hnone as [|n l Hn Hl IH]; [done|].
      rewrite filter_cons_False; [done|]. intros E. by apply Hn. }
    done.
  - intros printOther. cbn.
    exists ("could not get " +:+ typ +:+ " names: unknown database '"), "'".
    rewrite !string_app_nil_r. cbn. rewrite !string_app_assoc. cbn. reflexivity.
Qed.

End Names.


(** C1, at a failing input. The name X followed by the byte 0xFF is not
    empty, is not temp under ASCII folding and matches no attached
    database under ASCII folding. [sqlower] turns the byte, which is not
    well-formed UTF-8, into U+FFFD, so the count query finds the database
    attached as X followed by U+FFFD: [TableNames] returns no error and
    issues the catalog query with the name spliced into its text. *)
Theorem verify_passes_unattached_name :
  nonempty ill_formed_name = true
  /\ ascii_fold ill_formed_name <> "temp"
  /\ Forall (fun n => ~ ascii_eqfold ill_formed_name n)
       (Engine.attached Engine.odd_attachment)
  /\ run (Schema_TableNames unicode.CaseRanges_excerpt Engine.executor
            (DB ill_formed_name)) Engine.odd_attachment
     = (([], None),
        {| conn := Engine.odd_attachment;
           issued := [ verify_query (DB ill_formed_name);
                       catalog_query (ill_formed_name +:+ ".sqlite_master") "table" ] |})
  /\ sqlower ill_formed_name = "x" +:+ Engine.replacement.
Proof.
  split; [reflexivity|]. split; [discriminate|].
  split; [repeat constructor; discriminate|].
  split; vm_compute; reflexivity.
Qed.

Lemma excerpt_lower_avoids_temp : lower_avoids_temp unicode.CaseRanges_excerpt.
Proof.
  intros r Hr. unfold unicode.ToLower, unicode.MaxASCII.
  destruct (Z.leb_spec r 0x7F); [lia|].
  unfold unicode.To, unicode.to. simpl orb. cbv iota.
  unfold unicode.CaseRanges_excerpt, unicode.scan.
  cbn [unicode.Lo unicode.Hi unicode.Delta unicode.delta_at].
  unfold unicode.UpperLower, unicode.MaxRune, unicode.LowerCase, unicode.UpperCase.
  simpl Z.eqb. cbv iota. simpl Z.ltb. cbv iota.
  unfold temp_letter.
  repeat match goal with
         | |- context [if (?a <=? ?b) && (?c <=? ?d) then _ else _] =>
           let E := fresh "E" in
           destruct ((a <=? b) && (c <=? d)) eqn:E;
           [apply andb_true_iff in E as [?%Z.leb_le ?%Z.leb_le]|clear E]
         end;
    simpl fst;
    try match goal with
    | |- context [Z.lor ?x ?y] =>
      assert (0 <= Z.lor x y)
        by (apply Z.lor_nonneg; split; [apply Z.ldiff_nonneg; lia|done])
    end;
    (split; [lia|repeat apply orb_false_intro; apply Z.eqb_neq; lia]).
Qed.



(** ** The theorems at concrete inputs *)

Lemma single_pass_grouping_witness :
  fst (run (Schema_ForeignKeys Engine.executor Main "t") Engine.sample)
    = (sample_foreign_keys, None)
  /\ fst (run (Schema_Indexes Engine.executor Main "t") Engine.sample)
    = (sample_indexes, None).
Proof.
  destruct (single_pass_grouping Engine.executor Main "t" Engine.sample)
    as (_ & _ & Hfk & Hidx).
  split.
  - rewrite (Hfk (Engine.fk_rows Engine.sample) Engine.sample eq_refl). reflexivity.
  - rewrite (Hidx (Engine.idx_rows Engine.sample) Engine.sample eq_refl). reflexivity.
Defined.

Lemma scan_decodes_folded_literals_witness :
  ForeignKeyAction_Scan unicode.CaseRanges_excerpt ForeignKeyActionNone
      (VBytes "Set Default") = (ForeignKeyActionSetDefault, None)
  /\ IndexType_Scan unicode.CaseRanges_excerpt IndexTypeNormal (VString "PK")
     = (IndexTypePrimaryKey, None)
  /\ ForeignKeyAction_Scan unicode.CaseRanges_excerpt ForeignKeyActionRestrict
      (VString "bogus")
     = (ForeignKeyActionRestrict,
        Some (Errorf "unsupported ForeignKeyAction: %q" [VString "bogus"])).
Proof.
  pose proof (scan_decodes_folded_literals unicode.CaseRanges_excerpt
                ForeignKeyActionNone IndexTypeNormal (VBytes "Set Default")) as Hfk.
  pose proof (scan_decodes_folded_literals unicode.CaseRanges_excerpt
                ForeignKeyActionNone IndexTypeNormal (VString "PK")) as Hidx.
  pose proof (scan_decodes_folded_literals unicode.CaseRanges_excerpt
                ForeignKeyActionRestrict IndexTypeNormal (VString "bogus")) as Hbogus.
  cbn [text_of] in Hfk, Hidx, Hbogus.
  destruct Hfk as (_ & _ & Hfk & _).
  destruct Hidx as (_ & _ & _ & _ & _ & _ & Hidx & _).
  destruct Hbogus as (_ & Hbogus & _).
  split; [|split].
  - apply (Hfk "SET DEFAULT"); [|reflexivity].
    unfold ForeignKeyAction_literals. rewrite !elem_of_cons. tauto.
  - apply (Hidx "pk"); [|reflexivity].
    unfold IndexType_literals. rewrite !elem_of_cons. tauto.
  - apply Hbogus. reflexivity.
Defined.

Lemma foreign_key_columns_paired_witness :
  fst (run (Schema_ForeignKeys Engine.executor Main "t") Engine.sample)
    = (sample_foreign_keys, None)
  /\ Forall (fun fk =>
       length (ForeignKey.ChildKey fk) = length (ForeignKey.ParentKey fk)
       /\ (1 <= length (ForeignKey.ChildKey fk))%nat) sample_foreign_keys.
Proof.
  split; [reflexivity|].
  apply Forall_forall. intros fk Hin.
  destruct (foreign_key_columns_paired Engine.executor Main "t" Engine.sample
              sample_foreign_keys eq_refl fk Hin) as (Hlen & Hpos & _).
  split; assumption.
Defined.

Lemma key_columns_prefix_of_aux_witness :
  fst (fst (run (Schema_IndexColumns Engine.executor Main "t_ab") Engine.shuffled))
    = Engine.key_columns
  /\ fst (fst (run (Schema_IndexColumnsAux Engine.executor Main "t_ab") Engine.shuffled))
    = fst (fst (run (Schema_IndexColumns Engine.executor Main "t_ab") Engine.shuffled))
      ++ Engine.aux_columns.
Proof.
  assert (Forall (fun col => IndexColumn.IsKey col = true) Engine.key_columns) as Hk
    by (repeat constructor).
  assert (Forall (fun col => IndexColumn.IsKey col = false) Engine.aux_columns) as Ha
    by (repeat constructor).
  destruct (key_columns_prefix_of_aux Engine.executor Main "t_ab" Engine.shuffled
              (fun _ => Engine.xinfo Engine.shuffled)
              Engine.key_columns Engine.aux_columns
              (fun q => eq_refl) eq_refl Hk Ha)
    as (_ & _ & _ & Happ & Hkeys).
  split; [exact Hkeys|exact Happ].
Defined.

Lemma no_rows_no_error_witness :
  fst (run (Schema_Columns Engine.executor noSchema "missing") Engine.empty) = ([], None)
  /\ fst (run (Schema_ForeignKeys Engine.executor noSchema "missing") Engine.empty)
     = ([], None)
  /\ fst (run (Schema_Indexes Engine.executor noSchema "missing") Engine.empty)
     = ([], None)
  /\ fst (run (Schema_IndexColumns Engine.executor noSchema "missing") Engine.empty)
     = ([], None)
  /\ fst (run (Schema_IndexColumnsAux Engine.executor noSchema "missing") Engine.empty)
     = ([], None).
Proof.
  destruct (no_rows_no_error Engine.executor noSchema "missing" Engine.empty)
    as (H1 & H2 & H3 & H4 & H5).
  split; [apply H1; reflexivity|]. split; [apply H2; reflexivity|].
  split; [apply H3; reflexivity|]. split; [apply H4; reflexivity|].
  apply H5; reflexivity.
Defined.

Lemma temp_routing_witness :
  issued (snd (run (Schema_TableNames unicode.CaseRanges_excerpt Engine.executor
                      (DB "TeMp")) Engine.sample))
    = [catalog_query "sqlite_temp_master" "table"]
  /\ exists rest,
       issued (snd (run (Schema_IndexNames unicode.CaseRanges_excerpt Engine.executor
                           (DB "main")) Engine.sample))
       = verify_query (DB "main") :: rest.
Proof.
  split.
  - destruct (temp_routing unicode.CaseRanges_excerpt Engine.executor
                (DB "TeMp") Engine.sample eq_refl) as [_ H].
    apply Forall_cons in H as [[H _] _].
    exact (proj2 (H eq_refl)).
  - destruct (temp_routing unicode.CaseRanges_excerpt Engine.executor
                (DB "main") Engine.sample eq_refl) as [_ H].
    apply Forall_cons in H as [_ H]. apply Forall_cons in H as [_ H].
    apply Forall_cons in H as [_ H]. apply Forall_cons in H as [[_ [_ H]] _].
    apply H. discriminate.
Defined.

Lemma failed_scan_keeps_receiver_witness :
  fst (ForeignKeyAction_Scan unicode.CaseRanges_excerpt ForeignKeyActionSetNull (VInt 42))
    = ForeignKeyActionSetNull
  /\ fst (IndexType_Scan unicode.CaseRanges_excerpt IndexTypeUnique (VString "unknown"))
    = IndexTypeUnique.
Proof.
  split.
  - apply (failed_scan_keeps_receiver unicode.CaseRanges_excerpt
             ForeignKeyActionSetNull IndexTypeUnique (VInt 42)). discriminate.
  - apply (failed_scan_keeps_receiver unicode.CaseRanges_excerpt
             ForeignKeyActionSetNull IndexTypeUnique (VString "unknown")). discriminate.
Defined.

Lemma groups_nonempty_witness :
  Forall (fun fk => ForeignKey.ChildKey fk <> [] /\ ForeignKey.ParentKey fk <> [])
    (fst (fst (run (Schema_ForeignKeys Engine.executor Main "t") Engine.sample)))
  /\ Forall (fun idx => Index.ColumnNames idx <> [])
    (fst (fst (run (Schema_Indexes Engine.executor Main "t") Engine.sample))).
Proof.
  destruct (groups_nonempty Engine.executor Main "t" Engine.sample) as [Hfk Hidx].
  split; apply Forall_forall.
  - apply (Hfk sample_foreign_keys). reflexivity.
  - apply (Hidx sample_indexes). reflexivity.
Defined.

Lemma unknown_database_refused_witness :
  run (Schema_TableNames unicode.CaseRanges_excerpt Engine.executor
         (DB "); DROP TABLE users; --")) Engine.sample
  = (([], Some (Errorf "could not get %s names: %s"
                  [VString "table";
                   VError (Errorf "unknown database '%s'"
                             [VString "); DROP TABLE users; --"])])),
     {| conn := Engine.sample;
        issued := [verify_query (DB "); DROP TABLE users; --")] |}).
Proof.
  assert (Forall (fun n => ~ ascii_eqfold "); DROP TABLE users; --" n)
            (Engine.attached Engine.sample)) as Hnone
    by (repeat constructor; discriminate).
  pose proof (unknown_database_refused unicode.CaseRanges_excerpt Engine.executor
                (DB "); DROP TABLE users; --") Engine.sample Engine.sample
                (Engine.attached Engine.sample) eq_refl eq_refl
                excerpt_lower_avoids_temp ltac:(discriminate) Hnone eq_refl) as H.
  apply Forall_cons in H as [[H _] _]. exact H.
Defined.

Lemma splice_follows_verification_witness :
  issued (snd (run (masterTableNames unicode.CaseRanges_excerpt Engine.executor
                      (DB "Main") "view") Engine.sample))
  = [verify_query (DB "Main"); catalog_query "Main.sqlite_master" "view"].
Proof.
  pose proof (splice_follows_verification unicode.CaseRanges_excerpt Engine.executor
                (DB "Main") "view" Engine.sample eq_refl ltac:(discriminate)) as H.
  cbv zeta in H. exact (proj2 H).
Defined.

(** * The lowering of schema names *)

(** ** Decoding what was encoded *)

Lemma first_two s0 : 194 <= s0 <= 223 -> utf8.first s0 = Some (2%nat, 128, 191).
Proof.
  intros H. unfold utf8.first, utf8.locb, utf8.hicb.
  destruct (Z.ltb_spec s0 0xC2); [lia|]. destruct (Z.leb_spec s0 0xDF); [done|lia].
Qed.

Lemma first_three s0 :
  224 <= s0 <= 239 ->
  utf8.first s0 = Some (3%nat, if s0 =? 224 then 160 else 128,
                               if s0 =? 237 then 159 else 191).
Proof.
  intros H. unfold utf8.first, utf8.locb, utf8.hicb.
  repeat match goal with
         | |- context [if ?a <? ?b then _ else _] => destruct (Z.ltb_spec a b)
         | |- context [if ?a <=? ?b then _ else _] => destruct (Z.leb_spec a b)
         | |- context [if ?a =? ?b then _ else _] => destruct (Z.eqb_spec a b)
         end; (reflexivity || lia).
Qed.

Lemma first_four s0 :
  240 <= s0 <= 244 ->
  utf8.first s0 = Some (4%nat, if s0 =? 240 then 144 else 128,
                               if s0 =? 244 then 143 else 191).
Proof.
  intros H. unfold utf8.first, utf8.locb, utf8.hicb.
  repeat match goal with
         | |- context [if ?a <? ?b then _ else _] => destruct (Z.ltb_spec a b)
         | |- context [if ?a <=? ?b then _ else _] => destruct (Z.leb_spec a b)
         | |- context [if ?a =? ?b then _ else _] => destruct (Z.eqb_spec a b)
         end; (reflexivity || lia).
Qed.


Lemma length_string_app s t :
  String.length (s +:+ t) = (String.length s + String.length t)%nat.
Proof. induction s as [|c s IH]; [done|]. rewrite string_app_cons. simpl. by rewrite IH. Qed.

Lemma string_drop_app s t : string_drop (String.length s) (s +:+ t) = t.
Proof. induction s as [|c s IH]; [done|]. by rewrite string_app_cons. Qed.

Ltac small_bytes :=
  repeat match goal with
         | |- context [(?a + ?b) mod 256] => rewrite (Z.mod_small (a + b) 256) by euclid
         end.

(** The first rune of a string that starts with the encoding of [r] is
    [r], and its width the length of the encoding. *)
Lemma Decode_Encode r t :
  scalar r ->
  utf8.DecodeRuneInString (utf8.EncodeRune r +:+ t)
  = (r, String.length (utf8.EncodeRune r)).
Proof.
  unfold scalar, utf8.MaxRune, utf8.surrogateMin, utf8.surrogateMax.
  intros [Hr Hsur]. unfold utf8.EncodeRune, utf8.encode3.
  destruct (Z.leb_spec 0 r); [|lia]. cbn [andb].
  destruct (Z.leb_spec r 0x7F).
  { rewrite string_app_cons, Decode_ascii; rewrite byteval_tobyte, Z.mod_small by lia;
      [done|lia]. }
  destruct (Z.leb_spec r 0x7FF).
  { rewrite !string_app_cons. unfold utf8.DecodeRuneInString.
    rewrite land_maskx, Z.shiftr_div_pow2 by lia.
    rewrite (lor_const 0xC0 _ 6), (lor_const 0x80 _ 6) by (done || euclid).
    rewrite !byteval_tobyte.
    small_bytes.
    unfold utf8.RuneSelf. destruct (Z.ltb_spec (192 + r / 2 ^ 6) 128); [euclid|].
    rewrite first_two by euclid.
    destruct (Z.ltb_spec (128 + r mod 64) 128); [euclid|].
    destruct (Z.ltb_spec 191 (128 + r mod 64)); [euclid|].
    cbn [orb Nat.leb String.length].
    rewrite ?land_mask2, ?land_maskx, ?Z.shiftl_mul_pow2 by lia.
    rewrite lor_disjoint by euclid. f_equal. euclid. }
  unfold utf8.MaxRune, utf8.surrogateMin, utf8.surrogateMax.
  destruct (Z.ltb_spec r 0); [lia|]. destruct (Z.ltb_spec 0x10FFFF r); [lia|].
  assert ((0xD800 <=? r) && (r <=? 0xDFFF) = false) as ->.
  { apply andb_false_iff. destruct Hsur; [left; apply Z.leb_gt|right; apply Z.leb_gt]; lia. }
  cbn [orb].
  destruct (Z.leb_spec r 0xFFFF).
  { rewrite !string_app_cons. unfold utf8.DecodeRuneInString.
    rewrite !land_maskx, !Z.shiftr_div_pow2 by lia.
    rewrite (lor_const 0xE0 _ 4), !(lor_const 0x80 _ 6) by (done || euclid).
    rewrite !byteval_tobyte.
    small_bytes.
    unfold utf8.RuneSelf. destruct (Z.ltb_spec (224 + r / 2 ^ 12) 128); [euclid|].
    rewrite first_three by euclid.
    assert (((128 + (r / 2 ^ 6) mod 64 <? (if 224 + r / 2 ^ 12 =? 224 then 160 else 128))
             || ((if 224 + r / 2 ^ 12 =? 237 then 159 else 191) <? 128 + (r / 2 ^ 6) mod 64))
            = false) as ->.
    { apply orb_false_intro; [apply Z.ltb_ge|apply Z.ltb_ge].
      - destruct (Z.eqb_spec (224 + r / 2 ^ 12) 224); euclid.
      - destruct (Z.eqb_spec (224 + r / 2 ^ 12) 237); euclid. }
    unfold utf8.cont, utf8.locb, utf8.hicb.
    destruct (Z.leb_spec 128 (128 + r mod 64)); [|euclid].
    destruct (Z.leb_spec (128 + r mod 64) 191); [|euclid].
    cbn [andb negb Nat.leb String.length].
    rewrite ?land_mask3, ?land_maskx, ?Z.shiftl_mul_pow2 by lia.
    rewrite (lor_disjoint _ _ 12) by euclid.
    rewrite (lor_const _ ((128 + r mod 64) mod 64) 6) by euclid.
    f_equal. euclid. }
  rewrite !string_app_cons. unfold utf8.DecodeRuneInString.
  rewrite !land_maskx, !Z.shiftr_div_pow2 by lia.
  rewrite (lor_const 0xF0 _ 3), !(lor_const 0x80 _ 6) by (done || euclid).
  rewrite !byteval_tobyte.
  small_bytes.
  unfold utf8.RuneSelf. destruct (Z.ltb_spec (240 + r / 2 ^ 18) 128); [euclid|].
  rewrite first_four by euclid.
  assert (((128 + (r / 2 ^ 12) mod 64 <? (if 240 + r / 2 ^ 18 =? 240 then 144 else 128))
           || ((if 240 + r / 2 ^ 18 =? 244 then 143 else 191) <? 128 + (r / 2 ^ 12) mod 64))
          = false) as ->.
  { apply orb_false_intro; [apply Z.ltb_ge|apply Z.ltb_ge].
    - destruct (Z.eqb_spec (240 + r / 2 ^ 18) 240); euclid.
    - destruct (Z.eqb_spec (240 + r / 2 ^ 18) 244); euclid. }
  unfold utf8.cont, utf8.locb, utf8.hicb.
  destruct (Z.leb_spec 128 (128 + (r / 2 ^ 6) mod 64)); [|euclid].
  destruct (Z.leb_spec (128 + (r / 2 ^ 6) mod 64) 191); [|euclid].
  destruct (Z.leb_spec 128 (128 + r mod 64)); [|euclid].
  destruct (Z.leb_spec (128 + r mod 64) 191); [|euclid].
  cbn [andb negb Nat.leb String.length].
  rewrite ?land_mask4, ?land_maskx, ?Z.shiftl_mul_pow2 by lia.
  rewrite (lor_disjoint _ _ 18) by euclid.
  rewrite (lor_const _ ((128 + (r / 2 ^ 6) mod 64) mod 64 * 2 ^ 6) 12) by euclid.
  rewrite (lor_const _ ((128 + r mod 64) mod 64) 6) by euclid.
  f_equal. euclid.
Qed.

Lemma EncodeRune_length r : (1 <= String.length (utf8.EncodeRune r) <= 4)%nat.
Proof.
  unfold utf8.EncodeRune, utf8.encode3.
  repeat match goal with
         | |- context [if ?b then _ else _] => destruct b
         end; simpl; lia.
Qed.

Lemma scalar_RuneError : scalar utf8.RuneError.
Proof.
  unfold scalar, utf8.RuneError, utf8.MaxRune, utf8.surrogateMin, utf8.surrogateMax. lia.
Qed.

(** A rune without an encoding of its own is written as [RuneError]. *)
Lemma EncodeRune_not_scalar r :
  ~ scalar r -> utf8.EncodeRune r = utf8.EncodeRune utf8.RuneError.
Proof.
  unfold scalar, utf8.MaxRune, utf8.surrogateMin, utf8.surrogateMax. intros Hn.
  change (utf8.EncodeRune utf8.RuneError) with (utf8.encode3 utf8.RuneError).
  unfold utf8.EncodeRune, utf8.MaxRune, utf8.surrogateMin, utf8.surrogateMax.
  destruct (Z.leb_spec 0 r); cbn [andb orb].
  - destruct (Z.leb_spec r 0x7F); [lia|]. destruct (Z.leb_spec r 0x7FF); [lia|].
    destruct (Z.ltb_spec r 0); [done|]. cbn [orb].
    destruct (Z.ltb_spec 0x10FFFF r); [done|]. cbn [orb].
    destruct (Z.leb_spec 0xD800 r); [|lia]. destruct (Z.leb_spec r 0xDFFF); [done|lia].
  - destruct (Z.ltb_spec r 0); [done|lia].
Qed.

(** What [EncodeRune] writes is well formed. *)
Lemma ValidString_Encode_app r t :
  utf8.ValidString (utf8.EncodeRune r +:+ t) = utf8.ValidString t.
Proof.
  assert (forall r, scalar r ->
            utf8.ValidString (utf8.EncodeRune r +:+ t) = utf8.ValidString t) as Hscalar.
  { clear r. intros r Hr.
    pose proof (EncodeRune_length r) as Hlen.
    pose proof (Decode_Encode r t Hr) as Hdec.
    pose proof (string_drop_app (utf8.EncodeRune r) t) as Hdrop.
    destruct (utf8.EncodeRune r +:+ t) as [|c rest] eqn:E.
    { apply (f_equal String.length) in E. rewrite length_string_app in E.
      simpl in E. lia. }
    rewrite ValidString_cons, Hdec, Hdrop.
    destruct (Z.eqb_spec r utf8.RuneError) as [->|_]; [|done].
    by change (utf8.EncodeRune utf8.RuneError) with (utf8.encode3 utf8.RuneError). }
  destruct (Z.le_gt_cases 0 r) as [H0|H0];
    [destruct (Z.le_gt_cases r utf8.MaxRune) as [H1|H1];
     [destruct (Z.lt_ge_cases r utf8.surrogateMin) as [H2|H2];
      [|destruct (Z.lt_ge_cases utf8.surrogateMax r) as [H3|H3]]|]|];
    try (apply Hscalar; unfold scalar; lia);
    (rewrite EncodeRune_not_scalar; [apply Hscalar, scalar_RuneError|unfold scalar; lia]).
Qed.

(** ** The result of [sqlower] *)

Lemma Decode_nonneg c t : 0 <= fst (utf8.DecodeRuneInString (String c t)).
Proof.
  pose proof (byteval_range c).
  destruct (Z.lt_ge_cases (byteval c) 128) as [Hc|Hc].
  - rewrite Decode_ascii by done. simpl. lia.
  - pose proof (Decode_nonascii c t Hc). lia.
Qed.

Lemma sqlower_cons c t :
  sqlower (String c t) =
  let r := fst (utf8.DecodeRuneInString (String c t)) in
  utf8.EncodeRune (if (65 <=? r) && (r <=? 90) then 97 + r - 65 else r)
  +:+ sqlower (string_drop (snd (utf8.DecodeRuneInString (String c t))) (String c t)).
Proof.
  unfold sqlower. rewrite Map_cons. cbv zeta.
  pose proof (Decode_nonneg c t) as Hr.
  destruct ((65 <=? fst (utf8.DecodeRuneInString (String c t)))
            && (fst (utf8.DecodeRuneInString (String c t)) <=? 90)) eqn:E.
  - apply andb_true_iff in E as [E1 E2]. apply Z.leb_le in E1, E2.
    by destruct (Z.leb_spec 0 (97 + fst (utf8.DecodeRuneInString (String c t)) - 65)); [|lia].
  - by destruct (Z.leb_spec 0 (fst (utf8.DecodeRuneInString (String c t)))); [|lia].
Qed.

(** Induction on a string along the sequences that decoding cuts it in. *)
Lemma decode_ind (P : string -> Prop) :
  P EmptyString ->
  (forall c t,
     P (string_drop (snd (utf8.DecodeRuneInString (String c t))) (String c t)) ->
     P (String c t)) ->
  forall s, P s.
Proof.
  intros Hnil Hcons s.
  remember (String.length s) as n eqn:Hn.
  assert (String.length s <= n)%nat as Hle by lia. clear Hn.
  revert s Hle. induction n as [|n IH]; intros s Hle.
  - destruct s; [done|simpl in Hle; lia].
  - destruct s as [|c t]; [done|]. apply Hcons, IH.
    pose proof (Decode_width c t) as Hw.
    pose proof (length_string_drop (snd (utf8.DecodeRuneInString (String c t))) (String c t))
      as Hd.
    change (String.length (String c t)) with (S (String.length t)) in *. lia.
Qed.

Lemma sqlower_ValidString s : utf8.ValidString (sqlower s) = true.
Proof.
  induction s as [|c t IH] using decode_ind; [done|].
  rewrite sqlower_cons. cbv zeta. by rewrite ValidString_Encode_app.
Qed.

Lemma only_impl (P Q : Z -> bool) s :
  (forall b, P b = true -> Q b = true) -> only P s = true -> only Q s = true.
Proof.
  intros HPQ. induction s as [|c s IH]; [done|]. cbn [only].
  intros H. apply andb_true_iff in H as [Hc Hs]. by rewrite HPQ, IH.
Qed.

Lemma sqlower_no_upper s : only (fun b => negb (upper_letter b)) (sqlower s) = true.
Proof.
  induction s as [|c t IH] using decode_ind; [done|].
  rewrite sqlower_cons. cbv zeta. rewrite only_app, IH, andb_true_r.
  pose proof (byteval_range c) as Hc.
  destruct (Z.lt_ge_cases (byteval c) 128) as [Hlow|Hhigh].
  - rewrite Decode_ascii by done. cbn [fst].
    destruct ((65 <=? byteval c) && (byteval c <=? 90)) eqn:E.
    + apply andb_true_iff in E as [E1 E2]. apply Z.leb_le in E1, E2.
      rewrite EncodeRune_ascii by lia. cbn [only].
      rewrite byteval_tobyte, Z.mod_small, andb_true_r by lia.
      unfold upper_letter. destruct (Z.leb_spec (97 + byteval c - 65) 90); [lia|].
      by rewrite andb_false_r.
    + rewrite EncodeRune_ascii by lia. cbn [only].
      rewrite byteval_tobyte, Z.mod_small, andb_true_r by lia.
      unfold upper_letter. by rewrite E.
  - pose proof (Decode_nonascii c t Hhigh) as Hr.
    destruct (Z.leb_spec (fst (utf8.DecodeRuneInString (String c t))) 90); [lia|].
    rewrite andb_false_r.
    apply (only_impl (fun b => 128 <=? b)); [|by apply EncodeRune_high_all].
    intros b Hb. apply Z.leb_le in Hb. unfold upper_letter.
    destruct (Z.leb_spec b 90); [lia|]. by rewrite andb_false_r.
Qed.

Lemma ascii_fold_no_upper s :
  only (fun b => negb (upper_letter b)) s = true -> ascii_fold s = s.
Proof.
  unfold ascii_fold. induction s as [|c s IH]; [done|].
  cbn [only strings.map_bytes]. intros H. apply andb_true_iff in H as [Hc Hs].
  rewrite IH by done. f_equal. unfold strings.lower_byte.
  unfold upper_letter in Hc. apply negb_true_iff in Hc. by rewrite Hc.
Qed.

Lemma length_ascii_fold s : String.length (ascii_fold s) = String.length s.
Proof. unfold ascii_fold. induction s as [|c s IH]; [done|]. simpl. by rewrite IH. Qed.

(** [sqlower] keeps the length of a well-formed string and makes every
    other string longer. *)
Lemma length_sqlower s :
  (String.length s <= String.length (sqlower s))%nat
  /\ (String.length (sqlower s) = String.length s -> utf8.ValidString s = true).
Proof.
  induction s as [|c t [IHle IHeq]] using decode_ind; [done|].
  rewrite sqlower_cons, ValidString_cons. cbv zeta.
  rewrite length_string_app.
  pose proof (byteval_range c) as Hc.
  pose proof (Decode_width c t) as Hw.
  pose proof (EncodeRune_length
                (if (65 <=? fst (utf8.DecodeRuneInString (String c t)))
                    && (fst (utf8.DecodeRuneInString (String c t)) <=? 90)
                 then 97 + fst (utf8.DecodeRuneInString (String c t)) - 65
                 else fst (utf8.DecodeRuneInString (String c t)))) as Hlen.
  destruct (Z.lt_ge_cases (byteval c) 128) as [Hlow|Hhigh].
  - rewrite Decode_ascii in * by done. cbn [fst snd string_drop String.length] in *.
    assert ((byteval c =? utf8.RuneError) = false) as ->
      by (apply Z.eqb_neq; unfold utf8.RuneError; lia).
    cbn [andb negb]. split; [lia|]. intros E. apply IHeq. lia.
  - pose proof (Encode_Decode c t Hhigh) as Hround.
    pose proof (Decode_nonascii c t Hhigh) as Hr.
    destruct (utf8.DecodeRuneInString (String c t)) as [r w].
    cbn [fst snd] in *.
    destruct (Z.leb_spec r 90); [lia|]. rewrite andb_false_r in *.
    pose proof (length_string_drop w (String c t)) as Hd.
    destruct ((r =? utf8.RuneError) && (w =? 1)%nat) eqn:Hbad.
    + apply andb_true_iff in Hbad as [E1 E2].
      apply Z.eqb_eq in E1. apply Nat.eqb_eq in E2. subst r w.
      cbn [string_drop String.length] in *.
      change (String.length (utf8.EncodeRune utf8.RuneError)) with 3%nat.
      split; [lia|]. intros E. lia.
    + specialize (Hround eq_refl).
      apply (f_equal String.length) in Hround.
      rewrite length_string_app in Hround. cbn [String.length] in Hround.
      cbn [negb andb]. cbn [String.length]. split; [lia|].
      intros E. apply IHeq. lia.
Qed.

(** Whatever bytes the name holds, [sqlower] returns well-formed UTF-8 in
    which no byte is an upper-case ASCII letter. *)
Theorem sqlower_well_formed (s : string) :
  utf8.ValidString (sqlower s) = true
  /\ only (fun b => negb (upper_letter b)) (sqlower s) = true.
Proof. split; [apply sqlower_ValidString|apply sqlower_no_upper]. Qed.

(** [sqlower] is idempotent, and its result is a fixed point of the LOWER
    of SQLite, with which the count query compares it. *)
Theorem sqlower_idempotent (s : string) :
  sqlower (sqlower s) = sqlower s /\ ascii_fold (sqlower s) = sqlower s.
Proof.
  assert (ascii_fold (sqlower s) = sqlower s) as Hfix
    by apply ascii_fold_no_upper, sqlower_no_upper.
  split; [|exact Hfix].
  rewrite sqlower_valid by apply sqlower_ValidString. exact Hfix.
Qed.

(** [sqlower] agrees with the LOWER of SQLite, which lowers the letters A
    to Z and keeps every other byte, exactly on the names that are
    well-formed UTF-8. It never shortens a name, and keeps the length of
    exactly those names. *)
Theorem sqlower_is_LOWER_iff_well_formed (s : string) :
  (sqlower s = ascii_fold s <-> utf8.ValidString s = true)
  /\ (String.length s <= String.length (sqlower s))%nat
  /\ (String.length (sqlower s) = String.length s <-> utf8.ValidString s = true).
Proof.
  destruct (length_sqlower s) as [Hle Heq].
  split; [|split; [exact Hle|]].
  - split; [|apply sqlower_valid].
    intros E. apply Heq. by rewrite E, length_ascii_fold.
  - split; [exact Heq|].
    intros Hvalid. by rewrite sqlower_valid, length_ascii_fold.
Qed.

(** * Groups of rows *)

Section GroupFacts.
Context {Row K : Type} `{EqDecision K}.
Variable key : Row -> K.

Lemma runs_head a l : exists tl more, runs key (a :: l) = (a, tl) :: more.
Proof.
  simpl. destruct (runs key l) as [|[r' run] more]; [by eexists _, _|].
  case_decide; by eexists _, _.
Qed.

Lemma run_head_in rows run : run ∈ runs key rows -> fst run ∈ rows.
Proof.
  intros Hin. destruct (run_in_rows key rows run Hin) as (pre & post & ->).
  unfold run_rows. rewrite elem_of_app, elem_of_app, elem_of_cons. tauto.
Qed.

Lemma length_runs rows : (length (runs key rows) <= length rows)%nat.
Proof.
  induction rows as [|r rest IH]; simpl; [lia|].
  destruct (runs key rest) as [|[r' run] more]; simpl in *; [lia|].
  case_decide; simpl; lia.
Qed.

Lemma runs_nil rows : runs key rows = [] <-> rows = [].
Proof. split; [apply runs_nil_inv|by intros ->]. Qed.

(** The payload of the runs, laid end to end, is the payload of the rows. *)
Lemma runs_payload {A} (f : Row -> A) rows :
  concat (map (fun run => map f (run_rows run)) (runs key rows)) = map f rows.
Proof.
  rewrite <- (runs_concat key rows) at 2.
  generalize (runs key rows). intros rs.
  induction rs as [|a rs IH]; [done|]. cbn [map concat]. by rewrite map_app, IH.
Qed.

(** The keys of the runs are the keys of the rows. *)
Lemma runs_keys rows k :
  k ∈ map key rows <-> k ∈ map (fun run => key (fst run)) (runs key rows).
Proof.
  change (k ∈ key <$> rows <-> k ∈ (fun run => key (fst run)) <$> runs key rows).
  rewrite !list_elem_of_fmap. split.
  - intros (x & -> & Hx). rewrite <- (runs_concat key rows) in Hx.
    pose proof (runs_homogeneous key rows) as Hhom.
    revert Hx Hhom. generalize (runs key rows). intros rs Hx Hhom.
    induction rs as [|a rs IH]; [by apply elem_of_nil in Hx|].
    cbn [map concat] in Hx. apply elem_of_app in Hx as [Hx|Hx].
    + exists a. split; [|left]. apply Forall_cons in Hhom as [Ha _].
      unfold run_rows in Hx. apply elem_of_cons in Hx as [->|Hx]; [done|].
      rewrite Forall_forall in Ha. by apply Ha.
    + apply Forall_cons in Hhom as [_ Hhom].
      destruct (IH Hx Hhom) as (run & E & Hrun). exists run. split; [done|by right].
  - intros (run & -> & Hrun). exists (fst run). split; [done|by apply run_head_in].
Qed.

Lemma rows_of_run (a : Row * list Row) k :
  Forall (fun x => key x = key (fst a)) (snd a) ->
  rows_of key k (run_rows a) = if decide (key (fst a) = k) then run_rows a else [].
Proof.
  destruct a as [h tl]. simpl. intros Ha. unfold rows_of, run_rows. simpl.
  case_decide as Hk.
  - rewrite filter_cons_True by done. f_equal.
    induction Ha as [|x l Hx Hl IH]; [done|].
    rewrite filter_cons_True by congruence. by rewrite IH.
  - rewrite filter_cons_False by done.
    induction Ha as [|x l Hx Hl IH]; [done|].
    rewrite filter_cons_False by congruence. exact IH.
Qed.

Lemma rows_of_app k l1 l2 : rows_of key k (l1 ++ l2) = rows_of key k l1 ++ rows_of key k l2.
Proof. unfold rows_of. apply filter_app. Qed.

Lemma rows_of_other_runs k (rs : list (Row * list Row)) :
  Forall (fun run => Forall (fun x => key x = key (fst run)) (snd run)) rs ->
  k ∉ map (fun run => key (fst run)) rs ->
  rows_of key k (concat (map run_rows rs)) = [].
Proof.
  induction rs as [|b rs IH]; [done|].
  intros Hhom Hnotin. apply Forall_cons in Hhom as [Hb Hhom].
  cbn [map concat]. rewrite rows_of_app, rows_of_run by done.
  rewrite decide_False.
  - simpl. apply IH; [done|]. intros Hin. apply Hnotin. simpl. by right.
  - intros E. apply Hnotin. subst k. simpl. by left.
Qed.

Lemma rows_of_runs (rs : list (Row * list Row)) :
  Forall (fun run => Forall (fun x => key x = key (fst run)) (snd run)) rs ->
  NoDup (map (fun run => key (fst run)) rs) ->
  Forall (fun run => run_rows run = rows_of key (key (fst run)) (concat (map run_rows rs)))
    rs.
Proof.
  induction rs as [|a rs IH]; [constructor|].
  intros Hhom Hnodup. apply Forall_cons in Hhom as [Ha Hhom].
  cbn [map] in Hnodup. apply NoDup_cons in Hnodup as [Hnotin Hnodup].
  specialize (IH Hhom Hnodup). cbn [map concat].
  constructor.
  - rewrite rows_of_app, rows_of_run, decide_True by done.
    by rewrite rows_of_other_runs, app_nil_r.
  - rewrite Forall_forall in IH |- *. intros run Hrun.
    rewrite rows_of_app, rows_of_run by done. rewrite decide_False.
    + simpl. by apply IH.
    + intros E. apply Hnotin.
      change (key (fst a) ∈ (fun run => key (fst run)) <$> rs).
      apply list_elem_of_fmap. by exists run.
Qed.

(** When no two runs have the same key, a run holds all the rows of its
    key. *)
Lemma runs_rows_of rows :
  NoDup (map (fun run => key (fst run)) (runs key rows)) ->
  Forall (fun run => run_rows run = rows_of key (key (fst run)) rows) (runs key rows).
Proof.
  intros Hnodup.
  pose proof (rows_of_runs (runs key rows) (runs_homogeneous key rows) Hnodup) as H.
  by rewrite runs_concat in H.
Qed.

(** Rows in groups give runs of different keys. *)
Lemma runs_grouped_NoDup rows :
  grouped key rows -> NoDup (map (fun run => key (fst run)) (runs key rows)).
Proof.
  induction rows as [|r rest IH]; [constructor|].
  intros [Hr Hrest]. specialize (IH Hrest).
  destruct rest as [|r1 rest']; [simpl; repeat constructor; by intros ?%elem_of_nil|].
  destruct (runs_head r1 rest') as (tl & more & E).
  change (runs key (r :: r1 :: rest'))
    with (match runs key (r1 :: rest') with
          | (r', run) :: more =>
            if decide (key r = key r') then (r, r' :: run) :: more
            else (r, []) :: (r', run) :: more
          | [] => [(r, [])]
          end).
  case_eq (runs key (r1 :: rest')); [intros E'; by rewrite E' in E|].
  intros [r' run] more' E'. rewrite E' in E. injection E as -> -> ->.
  rewrite E' in IH. case_decide as Hk.
  - simpl in *. by rewrite Hk.
  - destruct Hr as [Hr|Hr]; [done|].
    change (NoDup (key r :: map (fun run => key (fst run)) ((r1, tl) :: more))).
    apply NoDup_cons. split; [|done].
    rewrite <- E'. rewrite <- runs_keys.
    change (key r ∉ key <$> r1 :: rest'). rewrite list_elem_of_fmap.
    intros (x & Ex & Hx). rewrite Forall_forall in Hr. by apply (Hr x).
Qed.

End GroupFacts.

(** Rows sorted by an integer key give runs of increasing keys. *)
Lemma runs_sorted {Row} (key : Row -> Z) rows :
  Sorted Z.le (map key rows) ->
  StronglySorted Z.lt (map (fun run => key (fst run)) (runs key rows)).
Proof.
  intros Hsorted. apply Sorted_StronglySorted in Hsorted; [|intros x y z; lia].
  induction rows as [|r rest IH]; [constructor|].
  simpl in Hsorted. apply StronglySorted_inv in Hsorted as [Hrest Hr].
  specialize (IH Hrest).
  destruct rest as [|r1 rest']; [simpl; repeat constructor|].
  destruct (runs_head key r1 rest') as (tl & more & E).
  change (runs key (r :: r1 :: rest'))
    with (match runs key (r1 :: rest') with
          | (r', run) :: more =>
            if decide (key r = key r') then (r, r' :: run) :: more
            else (r, []) :: (r', run) :: more
          | [] => [(r, [])]
          end).
  rewrite E in IH |- *. case_decide as Hk.
  - simpl in *. by rewrite Hk.
  - simpl in IH |- *. constructor; [done|].
    apply StronglySorted_inv in IH as [_ Hmore].
    simpl in Hr. apply Forall_cons in Hr as [Hle _].
    constructor; [lia|]. eapply Forall_impl; [exact Hmore|]. simpl. lia.
Qed.

Lemma StronglySorted_lt_NoDup (l : list Z) : StronglySorted Z.lt l -> NoDup l.
Proof.
  induction 1 as [|x l Hl IH Hx]; [constructor|].
  apply NoDup_cons. split; [|done].
  intros Hin. rewrite Forall_forall in Hx. specialize (Hx x Hin). lia.
Qed.

Section Groups.
Context {Conn : Type} (db : Executor Conn).

Lemma ForeignKeys_success s tn c rows c' :
  queryRows_fkRow db (ForeignKeys_query s tn) c = ((rows, None), c') ->
  fst (fst (run (Schema_ForeignKeys db s tn) c))
  = map (ForeignKey_of_run tn) (runs fkRow.ID rows).
Proof. intros E. rewrite run_Schema_ForeignKeys, E. simpl. apply ForeignKeys_fold_runs. Qed.

Lemma Indexes_success s tn c rows c' :
  queryRows_idxRow db (Indexes_query s tn) c = ((rows, None), c') ->
  fst (fst (run (Schema_Indexes db s tn) c)) = map Index_of_run (runs idxRow.Name rows).
Proof. intros E. rewrite run_Schema_Indexes, E. simpl. apply Indexes_fold_runs. Qed.

(** No row is lost, repeated or moved by the reassembly. The child key
    lists of the foreign keys that [ForeignKeys] returns, laid end to end,
    are the from column of the rows of the answer in row order, and the
    parent key lists the to column; likewise the column names of the
    indexes that [Indexes] returns. There are at most as many records as
    rows, none exactly when there is no row, and every foreign key names
    the table that was asked for as its child table. *)
Theorem rows_conserved (s : Schema) (tableName : string) (c : Conn) :
  (forall rows c',
     queryRows_fkRow db (ForeignKeys_query s tableName) c = ((rows, None), c') ->
     let foreignKeys := fst (fst (run (Schema_ForeignKeys db s tableName) c)) in
     concat (map ForeignKey.ChildKey foreignKeys) = map fkRow.From rows
     /\ concat (map ForeignKey.ParentKey foreignKeys) = map fkRow.To rows
     /\ (length foreignKeys <= length rows)%nat
     /\ (foreignKeys = [] <-> rows = [])
     /\ Forall (fun fk => ForeignKey.ChildTable fk = tableName) foreignKeys)
  /\ (forall rows c',
     queryRows_idxRow db (Indexes_query s tableName) c = ((rows, None), c') ->
     let indexes := fst (fst (run (Schema_Indexes db s tableName) c)) in
     concat (map Index.ColumnNames indexes) = map idxRow.ColumnName rows
     /\ (length indexes <= length rows)%nat
     /\ (indexes = [] <-> rows = [])).
Proof.
  split; intros rows c' E; cbv zeta.
  - rewrite (ForeignKeys_success _ _ _ _ _ E), !map_map, length_map.
    split; [apply (runs_payload fkRow.ID fkRow.From)|].
    split; [apply (runs_payload fkRow.ID fkRow.To)|].
    split; [apply length_runs|]. split.
    + rewrite <- (runs_nil fkRow.ID rows).
      destruct (runs fkRow.ID rows); [done|]. by split.
    + apply Forall_forall. intros fk Hin.
      apply list_elem_of_fmap in Hin as (run & -> & _). done.
  - rewrite (Indexes_success _ _ _ _ _ E), !map_map, length_map.
    split; [apply (runs_payload idxRow.Name idxRow.ColumnName)|].
    split; [apply length_runs|].
    rewrite <- (runs_nil idxRow.Name rows).
    destruct (runs idxRow.Name rows); [done|]. by split.
Qed.

(** When the rows of the answer come sorted by id, as the query of
    [ForeignKeys] orders them, the foreign keys returned have strictly
    increasing ids, which are the ids that occur in the rows, and each is
    made from all the rows of its id: its key lists hold their from and
    to columns in row order, and its parent table and its two actions are
    those of the first of them. *)
Theorem foreign_keys_by_id (s : Schema) (tableName : string) (c c' : Conn)
    (rows : list fkRow.t) :
  queryRows_fkRow db (ForeignKeys_query s tableName) c = ((rows, None), c') ->
  Sorted Z.le (map fkRow.ID rows) ->
  let foreignKeys := fst (fst (run (Schema_ForeignKeys db s tableName) c)) in
  StronglySorted Z.lt (map ForeignKey.ID foreignKeys)
  /\ (forall id, id ∈ map fkRow.ID rows <-> id ∈ map ForeignKey.ID foreignKeys)
  /\ Forall (fun fk =>
       let group := rows_of fkRow.ID (ForeignKey.ID fk) rows in
       ForeignKey.ChildKey fk = map fkRow.From group
       /\ ForeignKey.ParentKey fk = map fkRow.To group
       /\ exists r rest,
            group = r :: rest
            /\ ForeignKey.ParentTable fk = fkRow.Table r
            /\ ForeignKey.OnUpdate fk = fkRow.OnUpdate r
            /\ ForeignKey.OnDelete fk = fkRow.OnDelete r) foreignKeys.
Proof.
  intros E Hsorted. cbv zeta.
  rewrite (ForeignKeys_success _ _ _ _ _ E), map_map.
  change (map (fun x => ForeignKey.ID (ForeignKey_of_run tableName x)) (runs fkRow.ID rows))
    with (map (fun run => fkRow.ID (fst run)) (runs fkRow.ID rows)).
  pose proof (runs_sorted fkRow.ID rows Hsorted) as Hinc.
  split; [exact Hinc|]. split; [apply runs_keys|].
  pose proof (runs_rows_of fkRow.ID rows (StronglySorted_lt_NoDup _ Hinc)) as Hall.
  rewrite Forall_forall in Hall. apply Forall_forall. intros fk Hin.
  apply list_elem_of_fmap in Hin as (run & -> & Hrun).
  simpl. rewrite <- (Hall run Hrun).
  split; [done|]. split; [done|]. by exists (fst run), (snd run).
Qed.

(** When the rows of one index are consecutive in the answer, as the
    order by position in the index list makes them, the indexes that
    [Indexes] returns have pairwise different names, which are the names
    that occur in the rows, and each is made from all the rows of its
    name: it holds their column names in row order, and its type and its
    two flags are those of the first of them. *)
Theorem indexes_by_name (s : Schema) (tableName : string) (c c' : Conn)
    (rows : list idxRow.t) :
  queryRows_idxRow db (Indexes_query s tableName) c = ((rows, None), c') ->
  grouped idxRow.Name rows ->
  let indexes := fst (fst (run (Schema_Indexes db s tableName) c)) in
  NoDup (map Index.Name indexes)
  /\ (forall n, n ∈ map idxRow.Name rows <-> n ∈ map Index.Name indexes)
  /\ Forall (fun idx =>
       let group := rows_of idxRow.Name (Index.Name idx) rows in
       Index.ColumnNames idx = map idxRow.ColumnName group
       /\ exists r rest,
            group = r :: rest
            /\ Index.Type_ idx = idxRow.Type_ r
            /\ Index.IsUnique idx = idxRow.Unique r
            /\ Index.IsPartial idx = idxRow.Partial r) indexes.
Proof.
  intros E Hgrouped. cbv zeta.
  rewrite (Indexes_success _ _ _ _ _ E), map_map.
  change (map (fun x => Index.Name (Index_of_run x)) (runs idxRow.Name rows))
    with (map (fun run => idxRow.Name (fst run)) (runs idxRow.Name rows)).
  pose proof (runs_grouped_NoDup idxRow.Name rows Hgrouped) as Hnodup.
  split; [exact Hnodup|]. split; [apply runs_keys|].
  pose proof (runs_rows_of idxRow.Name rows Hnodup) as Hall.
  rewrite Forall_forall in Hall. apply Forall_forall. intros idx Hin.
  apply list_elem_of_fmap in Hin as (run & -> & Hrun).
  simpl. rewrite <- (Hall run Hrun).
  split; [done|]. by exists (fst run), (snd run).
Qed.

End Groups.

(** * Results and errors *)

(** ** Messages of wrapped errors *)

Ltac render :=
  intros; unfold wraps; cbn; rewrite ?string_app_nil_r, ?string_app_assoc; reflexivity.

Lemma wraps_Columns printOther tn e :
  wraps printOther
    (Errorf "could not get columns for table %s: %s" [VString tn; VError e])
    ("could not get columns for table " +:+ tn +:+ ": ") e.
Proof. render. Qed.

Lemma wraps_ForeignKeys printOther tn e :
  wraps printOther
    (Errorf "could not get foreign keys for table %s: %s" [VString tn; VError e])
    ("could not get foreign keys for table " +:+ tn +:+ ": ") e.
Proof. render. Qed.

Lemma wraps_Indexes printOther tn e :
  wraps printOther
    (Errorf "could not get indexes for table %s: %s" [VString tn; VError e])
    ("could not get indexes for table " +:+ tn +:+ ": ") e.
Proof. render. Qed.

Lemma wraps_indexColumns printOther n e :
  wraps printOther
    (Errorf "could not get columns for index %s: %s" [VString n; VError e])
    ("could not get columns for index " +:+ n +:+ ": ") e.
Proof. render. Qed.

Lemma wraps_names printOther typ e :
  wraps printOther
    (Errorf "could not get %s names: %s" [VString typ; VError e])
    ("could not get " +:+ typ +:+ " names: ") e.
Proof. render. Qed.

Lemma wraps_SchemaNames printOther e :
  wraps printOther (Errorf "could not get schema names: %s" [VError e])
    "could not get schema names: " e.
Proof. render. Qed.

Section Outcomes.
Context {Conn : Type} (db : Executor Conn).

(** ** Operations on a table or an index *)

Lemma run_Schema_Columns_eq s tn c :
  run (Schema_Columns db s tn) c =
  let '((columns, err), c') := queryRows_Column db (Columns_query s tn) c in
  (match err with
   | Some e => ([], Some (Errorf "could not get columns for table %s: %s"
                            [VString tn; VError e]))
   | None => (columns, None)
   end, {| conn := c'; issued := [Columns_query s tn] |}).
Proof.
  unfold run, Schema_Columns, issue, mbind, M_bind, mret, M_ret, Columns_query.
  simpl. destruct (queryRows_Column db _ c) as [[rows [e|]] c']; done.
Qed.

Lemma run_Schema_ForeignKeys_eq s tn c :
  run (Schema_ForeignKeys db s tn) c =
  let '((rows, err), c') := queryRows_fkRow db (ForeignKeys_query s tn) c in
  (match err with
   | Some e => ([], Some (Errorf "could not get foreign keys for table %s: %s"
                            [VString tn; VError e]))
   | None => (ForeignKeys_fold tn rows, None)
   end, {| conn := c'; issued := [ForeignKeys_query s tn] |}).
Proof.
  unfold run, Schema_ForeignKeys, issue, mbind, M_bind, mret, M_ret, ForeignKeys_query.
  simpl. destruct (queryRows_fkRow db _ c) as [[rows [e|]] c']; done.
Qed.

Lemma run_Schema_Indexes_eq s tn c :
  run (Schema_Indexes db s tn) c =
  let '((rows, err), c') := queryRows_idxRow db (Indexes_query s tn) c in
  (match err with
   | Some e => ([], Some (Errorf "could not get indexes for table %s: %s"
                            [VString tn; VError e]))
   | None => (Indexes_fold rows, None)
   end, {| conn := c'; issued := [Indexes_query s tn] |}).
Proof.
  unfold run, Schema_Indexes, issue, mbind, M_bind, mret, M_ret, Indexes_query.
  simpl. destruct (queryRows_idxRow db _ c) as [[rows [e|]] c']; done.
Qed.

Lemma run_indexColumns_eq s n aux c :
  run (indexColumns db s n aux) c =
  let '((columns, err), c') := queryRows_IndexColumn db (indexColumns_query s n aux) c in
  (match err with
   | Some e => ([], Some (Errorf "could not get columns for index %s: %s"
                            [VString n; VError e]))
   | None => (columns, None)
   end, {| conn := c'; issued := [indexColumns_query s n aux] |}).
Proof.
  unfold run, indexColumns, issue, mbind, M_bind, mret, M_ret, indexColumns_query.
  simpl. destruct (queryRows_IndexColumn db _ c) as [[rows [e|]] c']; done.
Qed.

End Outcomes.

Section Relay.
Context {Conn : Type} (db : Executor Conn).

Lemma run_SchemaNames_eq c :
  run (SchemaNames db) c =
  let '((names, err), c') := queryStrings db SchemaNames_query c in
  (match err with
   | Some e => ([], Some (Errorf "could not get schema names: %s" [VError e]))
   | None => (names, None)
   end, {| conn := c'; issued := [SchemaNames_query] |}).
Proof.
  unfold run, SchemaNames, issue, mbind, M_bind, mret, M_ret, SchemaNames_query.
  simpl. destruct (queryStrings db _ c) as [[rows [e|]] c']; done.
Qed.

Lemma run_masterTableNames_query_eq tableName typ w :
  masterTableNames_query db tableName typ w =
  let '((names, err), c') := queryStrings db (catalog_query tableName typ) (conn w) in
  (match err with
   | Some e => ([], Some (Errorf "could not get %s names: %s" [VString typ; VError e]))
   | None => (names, None)
   end, {| conn := c'; issued := issued w ++ [catalog_query tableName typ] |}).
Proof.
  unfold masterTableNames_query, issue, mbind, M_bind, mret, M_ret, catalog_query.
  destruct (queryStrings db _ (conn w)) as [[names [e|]] c']; done.
Qed.

Lemma relays_SchemaNames :
  relays (SchemaNames db) (queryStrings db) SchemaNames_query id
    "could not get schema names: ".
Proof.
  intros c. rewrite run_SchemaNames_eq.
  destruct (queryStrings db _ c) as [[rows [e|]] c']; (split; [done|]); [|done].
  split; [done|]. eexists. split; [done|]. intros. apply wraps_SchemaNames.
Qed.

Lemma relays_Schema_Columns s tn :
  relays (Schema_Columns db s tn) (queryRows_Column db) (Columns_query s tn) id
    ("could not get columns for table " +:+ tn +:+ ": ").
Proof.
  intros c. rewrite run_Schema_Columns_eq.
  destruct (queryRows_Column db _ c) as [[rows [e|]] c']; (split; [done|]); [|done].
  split; [done|]. eexists. split; [done|]. intros. apply wraps_Columns.
Qed.

Lemma relays_Schema_ForeignKeys s tn :
  relays (Schema_ForeignKeys db s tn) (queryRows_fkRow db) (ForeignKeys_query s tn)
    (ForeignKeys_fold tn) ("could not get foreign keys for table " +:+ tn +:+ ": ").
Proof.
  intros c. rewrite run_Schema_ForeignKeys_eq.
  destruct (queryRows_fkRow db _ c) as [[rows [e|]] c']; (split; [done|]); [|done].
  split; [done|]. eexists. split; [done|]. intros. apply wraps_ForeignKeys.
Qed.

Lemma relays_Schema_Indexes s tn :
  relays (Schema_Indexes db s tn) (queryRows_idxRow db) (Indexes_query s tn)
    Indexes_fold ("could not get indexes for table " +:+ tn +:+ ": ").
Proof.
  intros c. rewrite run_Schema_Indexes_eq.
  destruct (queryRows_idxRow db _ c) as [[rows [e|]] c']; (split; [done|]); [|done].
  split; [done|]. eexists. split; [done|]. intros. apply wraps_Indexes.
Qed.

Lemma relays_indexColumns s n aux :
  relays (indexColumns db s n aux) (queryRows_IndexColumn db)
    (indexColumns_query s n aux) id ("could not get columns for index " +:+ n +:+ ": ").
Proof.
  intros c. rewrite run_indexColumns_eq.
  destruct (queryRows_IndexColumn db _ c) as [[rows [e|]] c']; (split; [done|]); [|done].
  split; [done|]. eexists. split; [done|]. intros. apply wraps_indexColumns.
Qed.

(** Each of [SchemaNames], [Columns], [ForeignKeys], [Indexes] and
    [indexColumns] issues the one query it builds and relays the answer: it
    returns the rows (for [ForeignKeys] and [Indexes], the records folded
    from them) with the nil error, or, when the answer carries an error,
    the nil list, whatever rows came with the error, and an error whose
    message names the operation and the object and ends with the message of
    the answer's error. *)
Theorem operations_relay_answers (s : Schema) (objectName : string) (includeAux : bool) :
  relays (SchemaNames db) (queryStrings db) SchemaNames_query id
    "could not get schema names: "
  /\ relays (Schema_Columns db s objectName) (queryRows_Column db)
       (Columns_query s objectName) id
       ("could not get columns for table " +:+ objectName +:+ ": ")
  /\ relays (Schema_ForeignKeys db s objectName) (queryRows_fkRow db)
       (ForeignKeys_query s objectName) (ForeignKeys_fold objectName)
       ("could not get foreign keys for table " +:+ objectName +:+ ": ")
  /\ relays (Schema_Indexes db s objectName) (queryRows_idxRow db)
       (Indexes_query s objectName) Indexes_fold
       ("could not get indexes for table " +:+ objectName +:+ ": ")
  /\ relays (indexColumns db s objectName includeAux) (queryRows_IndexColumn db)
       (indexColumns_query s objectName includeAux) id
       ("could not get columns for index " +:+ objectName +:+ ": ").
Proof.
  split; [apply relays_SchemaNames|]. split; [apply relays_Schema_Columns|].
  split; [apply relays_Schema_ForeignKeys|]. split; [apply relays_Schema_Indexes|].
  apply relays_indexColumns.
Qed.

End Relay.

Section Listing.
Variable CaseRanges : list unicode.CaseRange.
Context {Conn : Type} (db : Executor Conn).

Lemma relays_masterTableNames_query tableName typ :
  relays (masterTableNames_query db tableName typ) (queryStrings db)
    (catalog_query tableName typ) id ("could not get " +:+ typ +:+ " names: ").
Proof.
  intros c. unfold run. rewrite run_masterTableNames_query_eq. cbn [conn issued app].
  destruct (queryStrings db _ c) as [[rows [e|]] c']; (split; [done|]); [|done].
  split; [done|]. eexists. split; [done|]. intros. apply wraps_names.
Qed.

(** Whatever the selector, a name-listing call issues one query or two,
    the last of them alone when the selector is unnamed or temp. When it
    returns an error the list is nil and the message of the error starts
    with the words could not get, the type tag and the word names; when it
    returns no error the names are the rows of the answer to the last
    query issued, a catalog query bound to the type tag, and the connection
    is left as that answer leaves it. *)
Theorem name_listing_outcomes (s : Schema) (typ : string) (c : Conn) :
  let '((names, err), w) := run (masterTableNames CaseRanges db s typ) c in
  (1 <= length (issued w) <= 2)%nat
  /\ match err with
     | Some outer =>
       names = []
       /\ exists inner, forall printOther,
            wraps printOther outer ("could not get " +:+ typ +:+ " names: ") inner
     | None =>
       exists tableName c0,
         last (issued w) = Some (catalog_query tableName typ)
         /\ queryStrings db (catalog_query tableName typ) c0 = ((names, None), conn w)
     end.
Proof.
  assert (forall tableName w0,
    (length (issued w0) <= 1)%nat ->
    let '((names, err), w) := masterTableNames_query db tableName typ w0 in
    (1 <= length (issued w) <= 2)%nat
    /\ match err with
       | Some outer =>
         names = []
         /\ exists inner, forall printOther,
              wraps printOther outer ("could not get " +:+ typ +:+ " names: ") inner
       | None =>
         exists tableName c0,
           last (issued w) = Some (catalog_query tableName typ)
           /\ queryStrings db (catalog_query tableName typ) c0 = ((names, None), conn w)
       end) as Htail.
  { intros tableName w0 Hlen. rewrite run_masterTableNames_query_eq.
    destruct (queryStrings db (catalog_query tableName typ) (conn w0))
      as [[rows [e|]] c'] eqn:E; cbn [issued conn]; rewrite length_app; simpl length.
    - split; [lia|]. split; [done|]. exists e. intros. apply wraps_names.
    - split; [lia|]. exists tableName, (conn w0). by rewrite last_snoc. }
  unfold masterTableNames.
  destruct (nonempty (name s)); [|apply Htail; simpl; lia].
  destruct (String.eqb (strings.ToLower CaseRanges (name s)) "temp");
    [apply Htail; simpl; lia|].
  unfold run, mbind, M_bind. rewrite verify_eq. cbn [conn issued app].
  destruct (QueryRow_Scan db (verify_query s) c) as [[count [e|]] c'].
  - simpl. split; [lia|]. split; [done|]. exists e. intros. apply wraps_names.
  - destruct (count <? 1).
    + simpl. split; [lia|]. split; [done|]. eexists. intros. apply wraps_names.
    + apply Htail. simpl. lia.
Qed.

(** The package-level [TableNames], [ViewNames], [TriggerNames] and
    [IndexNames] relay the answer to one query, the catalog query on
    sqlite_master bound to the type tag: no count query is made and no
    name enters the SQL text. *)
Theorem package_level_name_listings :
  Forall (fun op =>
    relays (snd op) (queryStrings db) (catalog_query "sqlite_master" (fst op)) id
      ("could not get " +:+ fst op +:+ " names: "))
    (package_name_listings CaseRanges db).
Proof. repeat constructor; apply relays_masterTableNames_query. Qed.

End Listing.

(** ** Names as bound values *)

Section Bound.
Context {Conn : Type} (db : Executor Conn).

Lemma Columns_q_scope s s' n n' :
  nonempty (name s) = nonempty (name s') -> Columns_q s n = Columns_q s' n'.
Proof.
  intros E. unfold Columns_q.
  by rewrite !placeholdersFor_spec, !length_scoped_params, E.
Qed.

Lemma ForeignKeys_q_scope s s' n n' :
  nonempty (name s) = nonempty (name s') -> ForeignKeys_q s n = ForeignKeys_q s' n'.
Proof.
  intros E. unfold ForeignKeys_q.
  by rewrite !placeholdersFor_spec, !length_scoped_params, E.
Qed.

Lemma indexColumns_q_scope s s' n n' aux :
  nonempty (name s) = nonempty (name s') ->
  indexColumns_q s n aux = indexColumns_q s' n' aux.
Proof.
  intros E. unfold indexColumns_q.
  by rewrite !placeholdersFor_spec, !length_scoped_params, E.
Qed.

Lemma Indexes_q_scope s s' :
  nonempty (name s) = nonempty (name s') -> Indexes_q s = Indexes_q s'.
Proof. intros E. unfold Indexes_q. by rewrite E. Qed.

(** The names given to [Columns], [ForeignKeys], [Indexes] and
    [indexColumns] reach the database as bound values only. Two calls
    whose selectors are both named or both unnamed issue the same SQL
    text, whatever the names of the selectors and of the objects; the
    values bound are the object name followed, for a named selector, by
    its name, once per pragma call of the query. *)
Theorem object_names_are_bound (s s' : Schema) (n n' : string) (c c' : Conn)
    (includeAux : bool) :
  nonempty (name s) = nonempty (name s') ->
  let scope := if nonempty (name s) then [VString (name s)] else [] in
  (map text (issued (snd (run (Schema_Columns db s n) c)))
     = map text (issued (snd (run (Schema_Columns db s' n') c')))
   /\ map params (issued (snd (run (Schema_Columns db s n) c)))
      = [VString n :: scope])
  /\ (map text (issued (snd (run (Schema_ForeignKeys db s n) c)))
      = map text (issued (snd (run (Schema_ForeignKeys db s' n') c')))
   /\ map params (issued (snd (run (Schema_ForeignKeys db s n) c)))
      = [VString n :: scope])
  /\ (map text (issued (snd (run (Schema_Indexes db s n) c)))
      = map text (issued (snd (run (Schema_Indexes db s' n') c')))
   /\ map params (issued (snd (run (Schema_Indexes db s n) c)))
      = [VString n :: scope ++ scope])
  /\ (map text (issued (snd (run (indexColumns db s n includeAux) c)))
      = map text (issued (snd (run (indexColumns db s' n' includeAux) c')))
   /\ map params (issued (snd (run (indexColumns db s n includeAux) c)))
      = [VString n :: scope]).
Proof.
  intros E scope. subst scope.
  rewrite !issued_Schema_Columns, !issued_Schema_ForeignKeys, !issued_Schema_Indexes,
    !issued_indexColumns.
  cbn [map text params].
  rewrite (Columns_q_scope s s' n n' E), (ForeignKeys_q_scope s s' n n' E),
    (Indexes_q_scope s s' E), (indexColumns_q_scope s s' n n' includeAux E).
  unfold scoped_params, Indexes_params.
  destruct (nonempty (name s)); done.
Qed.

(** The package-level [Columns], [ForeignKeys], [Indexes], [IndexColumns]
    and [IndexColumnsAux] relay the answer to a query that binds the object
    name and nothing else, and whose text is the same for every object. *)
Theorem package_level_object_functions (objectName : string) :
  relays (Columns db objectName) (queryRows_Column db)
    {| text := Columns_q noSchema EmptyString; params := [VString objectName] |} id
    ("could not get columns for table " +:+ objectName +:+ ": ")
  /\ relays (ForeignKeys db objectName) (queryRows_fkRow db)
       {| text := ForeignKeys_q noSchema EmptyString; params := [VString objectName] |}
       (ForeignKeys_fold objectName)
       ("could not get foreign keys for table " +:+ objectName +:+ ": ")
  /\ relays (Indexes db objectName) (queryRows_idxRow db)
       {| text := Indexes_q noSchema; params := [VString objectName] |} Indexes_fold
       ("could not get indexes for table " +:+ objectName +:+ ": ")
  /\ relays (IndexColumns db objectName) (queryRows_IndexColumn db)
       {| text := indexColumns_q noSchema EmptyString false;
          params := [VString objectName] |} id
       ("could not get columns for index " +:+ objectName +:+ ": ")
  /\ relays (IndexColumnsAux db objectName) (queryRows_IndexColumn db)
       {| text := indexColumns_q noSchema EmptyString true;
          params := [VString objectName] |} id
       ("could not get columns for index " +:+ objectName +:+ ": ").
Proof.
  split; [|split; [|split; [|split]]].
  - rewrite <- (Columns_q_scope noSchema noSchema objectName EmptyString eq_refl).
    apply (relays_Schema_Columns db noSchema).
  - rewrite <- (ForeignKeys_q_scope noSchema noSchema objectName EmptyString eq_refl).
    apply (relays_Schema_ForeignKeys db noSchema).
  - apply (relays_Schema_Indexes db noSchema).
  - rewrite <- (indexColumns_q_scope noSchema noSchema objectName EmptyString false eq_refl).
    apply (relays_indexColumns db noSchema).
  - rewrite <- (indexColumns_q_scope noSchema noSchema objectName EmptyString true eq_refl).
    apply (relays_indexColumns db noSchema).
Qed.

End Bound.

(** ** Verification *)

Section Verification.
Context {Conn : Type} (db : Executor Conn).

(** The verification of a selector does not depend on the ASCII case of
    its name: for two well-formed names that are equal under ASCII
    folding, [verify] issues the same count query, bound to the same
    value, leaves the connection in the same state, and returns an error
    for one exactly when it does for the other. *)
Theorem verification_ignores_ascii_case (s s' : Schema) (c : Conn) :
  utf8.ValidString (name s) = true ->
  utf8.ValidString (name s') = true ->
  ascii_eqfold (name s) (name s') ->
  verify_query s = verify_query s'
  /\ snd (run (verify db s) c) = snd (run (verify db s') c)
  /\ (fst (run (verify db s) c) = None <-> fst (run (verify db s') c) = None).
Proof.
  intros Hs Hs' Hfold.
  assert (verify_query s = verify_query s') as Eq.
  { unfold verify_query. rewrite !sqlower_valid by done. by rewrite Hfold. }
  split; [exact Eq|]. unfold run. rewrite !verify_eq, Eq. cbn [conn issued].
  destruct (QueryRow_Scan db (verify_query s') c) as [[count [e|]] c']; [done|].
  by destruct (count <? 1).
Qed.

End Verification.

(** * Values written by the decoders *)

Section Written.
Variable CaseRanges : list unicode.CaseRange.

(** A call of [Scan] that returns no error leaves in its receiver one of
    the declared constants of the enumeration, the same whatever the
    receiver held before; and a byte slice is decoded as the string of the
    same bytes is, error included. *)
Theorem scan_writes_declared_constant (v v' : ForeignKeyAction) (t t' : IndexType)
    (src : any) (content : string) :
  (snd (ForeignKeyAction_Scan CaseRanges v src) = None ->
   fst (ForeignKeyAction_Scan CaseRanges v src) ∈ map snd ForeignKeyAction_literals
   /\ ForeignKeyAction_Scan CaseRanges v' src = ForeignKeyAction_Scan CaseRanges v src)
  /\ (snd (IndexType_Scan CaseRanges t src) = None ->
   fst (IndexType_Scan CaseRanges t src) ∈ map snd IndexType_literals
   /\ IndexType_Scan CaseRanges t' src = IndexType_Scan CaseRanges t src)
  /\ ForeignKeyAction_Scan CaseRanges v (VBytes content)
     = ForeignKeyAction_Scan CaseRanges v (VString content)
  /\ IndexType_Scan CaseRanges t (VBytes content)
     = IndexType_Scan CaseRanges t (VString content).
Proof.
  split; [|split; [|split; reflexivity]].
  - unfold ForeignKeyAction_Scan.
    destruct (toString src) as [s ok]. destruct ok; simpl negb; cbv iota; [|done].
    repeat match goal with
           | |- context [if ?b then _ else _] => destruct b
           end; simpl; intros Hok; try done;
      (split; [|done]); rewrite !elem_of_cons; tauto.
  - unfold IndexType_Scan.
    destruct (toString src) as [s ok]. destruct ok; simpl negb; cbv iota; [|done].
    repeat match goal with
           | |- context [if ?b then _ else _] => destruct b
           end; simpl; intros Hok; try done;
      (split; [|done]); rewrite !elem_of_cons; tauto.
Qed.

End Written.

(** * The helpers of the tests *)

Section Flag.
Variable CaseRanges : list unicode.CaseRange.

(** The flag of the tests. [Set] accepts every text that is memory, file or
    temp in any mix of ASCII cases and stores the mode of that name. A call
    that returns an error leaves the mode as it was. A call that returns
    no error stores one of the three named modes, the same whatever the
    mode was before, and never the unknown mode, so that [String] of the
    stored mode is not Unknown. [String] is no inverse of [Set]: of the
    three names it prints, [Set] accepts temp alone. *)
Theorem dbMode_Set_stores_known_mode (m m' : dbMode) (s : string) :
  (forall lit mode, (lit, mode) ∈ dbMode_literals -> ascii_eqfold s lit ->
     dbMode_Set CaseRanges m s = (mode, None))
  /\ (snd (dbMode_Set CaseRanges m s) <> None -> fst (dbMode_Set CaseRanges m s) = m)
  /\ (snd (dbMode_Set CaseRanges m s) = None ->
      fst (dbMode_Set CaseRanges m s) ∈ map snd dbMode_literals
      /\ fst (dbMode_Set CaseRanges m s) <> dbModeUnknown
      /\ dbMode_String (fst (dbMode_Set CaseRanges m s)) <> "Unknown"
      /\ dbMode_Set CaseRanges m' s = dbMode_Set CaseRanges m s)
  /\ Forall (fun mode =>
       snd (dbMode_Set CaseRanges m (dbMode_String mode)) = None <-> mode = dbModeTemp)
       (map snd dbMode_literals).
Proof.
  split; [|split; [|split]].
  - intros lit mode Hin Hfold. unfold dbMode_literals in Hin.
    rewrite !elem_of_cons, elem_of_nil in Hin.
    unfold dbMode_Set.
    destruct Hin as [[= -> ->]|[[= -> ->]|[[= -> ->]|[]]]].
    + by rewrite (ToLower_eqfold CaseRanges s "memory" eq_refl eq_refl Hfold).
    + by rewrite (ToLower_eqfold CaseRanges s "file" eq_refl eq_refl Hfold).
    + by rewrite (ToLower_eqfold CaseRanges s "temp" eq_refl eq_refl Hfold).
  - unfold dbMode_Set.
    repeat match goal with
           | |- context [if ?b then _ else _] => destruct b
           end; simpl; done.
  - unfold dbMode_Set.
    repeat match goal with
           | |- context [if ?b then _ else _] => destruct b
           end; simpl; intros Hok; try done;
      (split; [rewrite !elem_of_cons; tauto|done]).
  - repeat constructor; done.
Qed.

End Flag.

(** ** The comparison of slices *)

Lemma equalStringSlices_loop_spec pre l1 l2 :
  length l1 = length l2 ->
  equalStringSlices_loop (seq (length pre) (length l1)) (pre ++ l1) (pre ++ l2)
  = Some (bool_decide (l1 = l2)).
Proof.
  revert pre l2. induction l1 as [|a l1 IH]; intros pre [|b l2] Hlen; try done.
  injection Hlen as Hlen. cbn [length seq equalStringSlices_loop].
  rewrite !list_lookup_middle by done.
  destruct (String.eqb_spec a b) as [->|Hne]; cbn [negb].
  - specialize (IH (pre ++ [b]) l2 Hlen).
    rewrite length_app, Nat.add_1_r, <- !app_assoc in IH. cbn [app] in IH.
    rewrite IH. f_equal. apply bool_decide_ext. split; congruence.
  - f_equal. symmetry. apply bool_decide_eq_false. congruence.
Qed.

(** [equalStringSlices] never indexes out of range, and returns true
    exactly when the two slices hold the same strings in the same order. *)
Theorem equalStringSlices_decides_equality (s1 s2 : list string) :
  equalStringSlices s1 s2 = Some (bool_decide (s1 = s2)).
Proof.
  unfold equalStringSlices.
  destruct (Nat.eqb_spec (length s1) (length s2)) as [Hlen|Hlen]; cbn [negb].
  - apply (equalStringSlices_loop_spec [] s1 s2 Hlen).
  - f_equal. symmetry. apply bool_decide_eq_false. congruence.
Qed.

(** ** More theorems at concrete inputs *)

Lemma rows_conserved_witness :
  concat (map ForeignKey.ChildKey
            (fst (fst (run (Schema_ForeignKeys Engine.executor Main "t") Engine.sample))))
    = ["a"; "b"; "c"]
  /\ concat (map Index.ColumnNames
               (fst (fst (run (Schema_Indexes Engine.executor Main "t") Engine.sample))))
    = [Engine.text_column "a"; Engine.text_column "b"; Engine.text_column "c"].
Proof.
  destruct (rows_conserved Engine.executor Main "t" Engine.sample) as [Hfk Hidx].
  split.
  - exact (proj1 (Hfk (Engine.fk_rows Engine.sample) Engine.sample eq_refl)).
  - exact (proj1 (Hidx (Engine.idx_rows Engine.sample) Engine.sample eq_refl)).
Defined.

Lemma foreign_keys_by_id_witness :
  Sorted Z.le (map fkRow.ID (Engine.fk_rows Engine.sample))
  /\ StronglySorted Z.lt
       (map ForeignKey.ID
          (fst (fst (run (Schema_ForeignKeys Engine.executor Main "t") Engine.sample)))).
Proof.
  assert (Sorted Z.le (map fkRow.ID (Engine.fk_rows Engine.sample))) as Hsorted.
  { simpl. repeat constructor; lia. }
  split; [exact Hsorted|].
  exact (proj1 (foreign_keys_by_id Engine.executor Main "t" Engine.sample Engine.sample
                  (Engine.fk_rows Engine.sample) eq_refl Hsorted)).
Defined.

Lemma indexes_by_name_witness :
  grouped idxRow.Name (Engine.idx_rows Engine.sample)
  /\ NoDup (map Index.Name
              (fst (fst (run (Schema_Indexes Engine.executor Main "t") Engine.sample)))).
Proof.
  assert (grouped idxRow.Name (Engine.idx_rows Engine.sample)) as Hgrouped.
  { simpl. split; [by left|]. split; [|done].
    right. repeat constructor. discriminate. }
  split; [exact Hgrouped|].
  exact (proj1 (indexes_by_name Engine.executor Main "t" Engine.sample Engine.sample
                  (Engine.idx_rows Engine.sample) eq_refl Hgrouped)).
Defined.

Lemma object_names_are_bound_witness :
  map text (issued (snd (run (Schema_Columns Engine.executor
                                (DB "x'); DROP TABLE users; --") "t; --") Engine.sample)))
  = map text (issued (snd (run (Schema_Columns Engine.executor Main "t") Engine.empty))).
Proof.
  exact (proj1 (proj1 (object_names_are_bound Engine.executor
                         (DB "x'); DROP TABLE users; --") Main "t; --" "t"
                         Engine.sample Engine.empty false eq_refl))).
Defined.

Lemma scan_writes_declared_constant_witness :
  snd (ForeignKeyAction_Scan unicode.CaseRanges_excerpt ForeignKeyActionNone
         (VString "cascade")) = None
  /\ ForeignKeyAction_Scan unicode.CaseRanges_excerpt ForeignKeyActionRestrict
       (VString "cascade")
     = ForeignKeyAction_Scan unicode.CaseRanges_excerpt ForeignKeyActionNone
         (VString "cascade").
Proof.
  split; [reflexivity|].
  destruct (scan_writes_declared_constant unicode.CaseRanges_excerpt
              ForeignKeyActionNone ForeignKeyActionRestrict
              IndexTypeNormal IndexTypeNormal (VString "cascade") EmptyString) as [H _].
  exact (proj2 (H eq_refl)).
Defined.

Lemma verification_ignores_ascii_case_witness :
  verify_query (DB "MAIN") = verify_query (DB "main")
  /\ fst (run (verify Engine.executor (DB "MAIN")) Engine.sample) = None.
Proof.
  destruct (verification_ignores_ascii_case Engine.executor (DB "MAIN") (DB "main")
              Engine.sample eq_refl eq_refl eq_refl) as (Hq & _ & Hiff).
  split; [exact Hq|]. apply Hiff. reflexivity.
Defined.

Lemma dbMode_Set_stores_known_mode_witness :
  ascii_eqfold "Memory" "memory"
  /\ dbMode_Set unicode.CaseRanges_excerpt dbModeUnknown "Memory" = (dbModeMemory, None)
  /\ dbMode_String dbModeMemory = "memory-based".
Proof.
  split; [reflexivity|]. split; [|reflexivity].
  apply (proj1 (dbMode_Set_stores_known_mode unicode.CaseRanges_excerpt
                  dbModeUnknown dbModeUnknown "Memory") "memory" dbModeMemory);
    [left|reflexivity].
Defined.
